(** * codex-multi-account-switch: a shallow embedding of the runtime core

    The development follows the TypeScript sources:
    - [lib/request/helpers/model-map.ts], [lib/request/request-transformer.ts]
      (model normalisation, input repair, body transformation);
    - [lib/request/fetch-helpers.ts], [lib/request/response-handler.ts]
      (URL rewrite, error remapping, SSE to JSON);
    - [lib/accounts/rotation.ts], [lib/accounts/manager.ts],
      [lib/accounts/storage.ts] (selection, account manager, persistence).

    Conventions.  A JavaScript string is the [string] of its UTF-8 text;
    lengths, positions and slices count UTF-16 code units, as JavaScript
    does.  JavaScript numbers are exact:
    integers where the code only ever stores integers (millisecond
    timestamps, counters, health scores), rationals [Q] where it divides or
    reads a number from a file (token buckets, hybrid scores, the active
    index).  [Date.now()] is an explicit argument [now].  A function that can
    throw returns an [option] or a sum.  What the runtime provides
    ([JSON.parse], [JSON.stringify], the text decoders, base64) is a variable
    of the section that uses it. *)

From Stdlib Require Import ZArith QArith Lqa Lia FunInd.
From Stdlib Require Ascii String DecimalString.
From stdpp Require Import base option list sorting strings gmap.
Import Stdlib.Strings.Ascii.

Local Open Scope Z_scope.

#[local] Set Warnings "-clear-no-such-hyp".

(* stdpp freezes [String.append]; the proofs below compute with it. *)
#[local] Arguments String.append !_ _ / : simpl nomatch.

(** ** JavaScript string primitives *)

Module Js.

Definition lower_ascii (c : Ascii.ascii) : Ascii.ascii :=
  let n := Ascii.N_of_ascii c in
  if ((65 <=? n) && (n <=? 90))%N then Ascii.ascii_of_N (n + 32) else c.

(** The two characters beyond ASCII whose lower-case form holds an ASCII
    letter: U+0130 (bytes 196 176), which becomes [i] followed by U+0307
    (bytes 204 135), and U+212A, the Kelvin sign (bytes 226 132 170), which
    becomes [k]. *)
Definition dotted_I (c c1 : Ascii.ascii) : bool :=
  ((Ascii.N_of_ascii c =? 196) && (Ascii.N_of_ascii c1 =? 176))%N.

Definition kelvin (c c1 c2 : Ascii.ascii) : bool :=
  ((Ascii.N_of_ascii c =? 226) && (Ascii.N_of_ascii c1 =? 132)
   && (Ascii.N_of_ascii c2 =? 170))%N.

(** [s.toLowerCase()], as far as the sources can tell: they only compare
    lower-cased texts with ASCII patterns and count their code units.  The
    letters [A] to [Z], U+0130 and U+212A are mapped.  The lower-case form
    of any other character holds no ASCII character and has as many code
    units as the character, so leaving it as it is changes neither a
    comparison with an ASCII pattern nor a position. *)
Function toLowerCase (s : string) {struct s} : string :=
  match s with
  | EmptyString => EmptyString
  | String c EmptyString => String (lower_ascii c) EmptyString
  | String c (String c1 s2 as s1) =>
      if dotted_I c c1
      then String "i"
             (String (Ascii.ascii_of_N 204)
                (String (Ascii.ascii_of_N 135) (toLowerCase s2)))
      else
        match s2 with
        | String c2 s3 =>
            if kelvin c c1 c2 then String "k" (toLowerCase s3)
            else String (lower_ascii c) (toLowerCase s1)
        | EmptyString => String (lower_ascii c) (toLowerCase s1)
        end
  end.

(** [s.startsWith(p)], for a prefix [p] that ends with a whole character
    (the ASCII patterns of the sources) *)
Fixpoint startsWith (s p : string) {struct p} : bool :=
  match p, s with
  | EmptyString, _ => true
  | String _ _, EmptyString => false
  | String b p', String a s' => Ascii.eqb a b && startsWith s' p'
  end.

(** [s.includes(p)], for an ASCII pattern [p] *)
Fixpoint includes (s p : string) : bool :=
  startsWith s p ||
  match s with
  | EmptyString => false
  | String _ s' => includes s' p
  end.

(** The text without its first [n] bytes: [s.slice(n)] and [s.substring(n)]
    behind [n] ASCII characters *)
Fixpoint drop (n : nat) (s : string) : string :=
  match n, s with
  | O, _ => s
  | S _, EmptyString => EmptyString
  | S n', String _ s' => drop n' s'
  end.

(** The first [n] bytes of the text *)
Fixpoint take (n : nat) (s : string) : string :=
  match n, s with
  | O, _ => EmptyString
  | S _, EmptyString => EmptyString
  | S n', String a s' => String a (take n' s')
  end.

(** The UTF-16 code units a byte of the text stands for: one for the first
    byte of a character of the basic plane, two for the first byte of a
    character outside it (a four-byte sequence), none for a continuation
    byte. *)
Definition units (c : Ascii.ascii) : nat :=
  let n := Ascii.N_of_ascii c in
  if (n <? 128)%N then 1%nat
  else if (n <? 192)%N then 0%nat
  else if (n <? 240)%N then 1%nat
  else 2%nat.

(** [s.length] *)
Fixpoint length (s : string) : nat :=
  match s with
  | EmptyString => O
  | String c s' => (units c + length s')%nat
  end.

(** The leading surrogate of the character whose four-byte sequence starts
    with [b0 b1 b2], as the three bytes that stand for a lone surrogate. *)
Definition leading_surrogate (b0 b1 b2 : Ascii.ascii) : string :=
  let hi :=
    (55296 + ((Ascii.N_of_ascii b0 mod 8) * 256
              + (Ascii.N_of_ascii b1 mod 64) * 4
              + (Ascii.N_of_ascii b2 mod 64) / 16) - 64)%N in
  String (Ascii.ascii_of_N 237)
    (String (Ascii.ascii_of_N (128 + (hi / 64) mod 64))
       (String (Ascii.ascii_of_N (128 + hi mod 64)) EmptyString)).

(** [s.slice(0, n)] and [s.substring(0, n)] for [0 <= n]: the first [n]
    code units.  A character outside the basic plane is two units; when the
    cut falls between them, its leading surrogate is what remains of it. *)
Fixpoint slice_to (n : nat) (s : string) : string :=
  match s with
  | EmptyString => EmptyString
  | String c s' =>
      match units c, n with
      | O, _ => String c (slice_to n s')
      | S O, O => EmptyString
      | S O, S n' => String c (slice_to n' s')
      | S (S _), O => EmptyString
      | S (S _), S O =>
          match s' with
          | String c1 (String c2 _) => leading_surrogate c c1 c2
          | _ => EmptyString
          end
      | S (S _), S (S n') => String c (slice_to n' s')
      end
  end.

(** [s.startsWith(p)], code unit by code unit, for any [p] *)
Definition startsWith_units (s p : string) : bool :=
  String.eqb (slice_to (length p) s) p.

(** The trailing surrogate of the character whose four-byte sequence ends
    with [b2 b3], as the three bytes that stand for a lone surrogate. *)
Definition trailing_surrogate (b2 b3 : Ascii.ascii) : string :=
  let lo :=
    (56320 + (Ascii.N_of_ascii b2 mod 16) * 64
     + Ascii.N_of_ascii b3 mod 64)%N in
  String (Ascii.ascii_of_N 237)
    (String (Ascii.ascii_of_N (128 + (lo / 64) mod 64))
       (String (Ascii.ascii_of_N (128 + lo mod 64)) EmptyString)).

(** [s.slice(n)] for [0 <= n]: the text behind its first [n] code units.
    When the cut falls between the two units of a character outside the
    basic plane, its trailing surrogate is what remains of it.  (The bytes
    that continue a character go with its first byte.) *)
Fixpoint slice_from (n : nat) (s : string) : string :=
  match s with
  | EmptyString => EmptyString
  | String c s' =>
      match units c, n with
      | O, _ => slice_from n s'
      | S O, O => s
      | S O, S n' => slice_from n' s'
      | S (S _), O => s
      | S (S _), S O =>
          match s' with
          | String _ (String c2 (String c3 r)) =>
              trailing_surrogate c2 c3 +:+ r
          | _ => EmptyString
          end
      | S (S _), S (S n') => slice_from n' s'
      end
  end.

(** [s.replace(pat, rep)] with a string pattern: only the leftmost
    occurrence is replaced ([rep] holds no [$] here). *)
Fixpoint replace (s pat rep : string) : string :=
  if startsWith s pat then rep +:+ drop (String.length pat) s
  else match s with
       | EmptyString => EmptyString
       | String a s' => String a (replace s' pat rep)
       end.

Fixpoint split_on (c : Ascii.ascii) (s : string) : list string :=
  match s with
  | EmptyString => [EmptyString]
  | String a s' =>
      if Ascii.eqb a c then EmptyString :: split_on c s'
      else match split_on c s' with
           | [] => [String a EmptyString]
           | w :: ws => String a w :: ws
           end
  end.

(** [s.split(sep)]; the sources only split on one-character separators. *)
Definition split (s sep : string) : list string :=
  match sep with
  | String c EmptyString => split_on c s
  | _ => [s]
  end.

(** the line feed ["\n"] *)
Definition LF : string := String (Ascii.ascii_of_N 10) EmptyString.

(** [xs.pop()] on the result of a split *)
Definition pop (xs : list string) : string := List.last xs EmptyString.

(** JavaScript truthiness of a string *)
Definition truthy (s : string) : bool :=
  match s with EmptyString => false | _ => true end.

Definition is_space (c : Ascii.ascii) : bool :=
  let n := Ascii.N_of_ascii c in (((9 <=? n) && (n <=? 13)) || (n =? 32))%N.

(** The white space and line terminators of JavaScript beyond ASCII, by
    their UTF-8 bytes: U+00A0; U+1680, U+2000 to U+200A, U+2028, U+2029,
    U+202F, U+205F, U+3000 and U+FEFF. *)
Definition is_space2 (c c1 : Ascii.ascii) : bool :=
  ((Ascii.N_of_ascii c =? 194) && (Ascii.N_of_ascii c1 =? 160))%N.

Definition is_space3 (c c1 c2 : Ascii.ascii) : bool :=
  let n := Ascii.N_of_ascii c in
  let n1 := Ascii.N_of_ascii c1 in
  let n2 := Ascii.N_of_ascii c2 in
  (((n =? 225) && (n1 =? 154) && (n2 =? 128))
   || ((n =? 226) && (n1 =? 128)
       && (((128 <=? n2) && (n2 <=? 138)) || (n2 =? 168) || (n2 =? 169)
           || (n2 =? 175)))
   || ((n =? 226) && (n1 =? 129) && (n2 =? 159))
   || ((n =? 227) && (n1 =? 128) && (n2 =? 128))
   || ((n =? 239) && (n1 =? 187) && (n2 =? 191)))%N.

(** [s.trimStart()] *)
Fixpoint trimStart (s : string) : string :=
  match s with
  | String c s1 =>
      if is_space c then trimStart s1
      else
        match s1 with
        | String c1 s2 =>
            if is_space2 c c1 then trimStart s2
            else
              match s2 with
              | String c2 s3 => if is_space3 c c1 c2 then trimStart s3 else s
              | EmptyString => s
              end
        | EmptyString => s
        end
  | EmptyString => s
  end.

(** The text is white space throughout. *)
Definition blank (s : string) : bool :=
  match trimStart s with
  | EmptyString => true
  | _ => false
  end.

(** [s.trimEnd()]: the text without its longest white-space ending *)
Fixpoint trimEnd (s : string) : string :=
  match s with
  | EmptyString => EmptyString
  | String c s' => if blank s then EmptyString else String c (trimEnd s')
  end.

(** [s.trim()] *)
Definition trim (s : string) : string := trimEnd (trimStart s).

(** [s.indexOf(p)] for an ASCII pattern [p]: the position of its leftmost
    occurrence, in code units; [None] is [-1]. *)
Fixpoint indexOf (s p : string) : option nat :=
  if startsWith s p then Some O
  else match s with
       | EmptyString => None
       | String c s' =>
           option_map (fun i => (units c + i)%nat) (indexOf s' p)
       end.

End Js.

(** ** Model normalisation ([model-map.ts], [request-transformer.ts]) *)

Definition MODEL_MAP : list (string * string) :=
  [ ("gpt-5.1-codex", "gpt-5.1-codex");
    ("gpt-5.1-codex-low", "gpt-5.1-codex");
    ("gpt-5.1-codex-medium", "gpt-5.1-codex");
    ("gpt-5.1-codex-high", "gpt-5.1-codex");
    ("gpt-5.1-codex-max", "gpt-5.1-codex-max");
    ("gpt-5.1-codex-max-low", "gpt-5.1-codex-max");
    ("gpt-5.1-codex-max-medium", "gpt-5.1-codex-max");
    ("gpt-5.1-codex-max-high", "gpt-5.1-codex-max");
    ("gpt-5.1-codex-max-xhigh", "gpt-5.1-codex-max");
    ("gpt-5.2", "gpt-5.2");
    ("gpt-5.2-none", "gpt-5.2");
    ("gpt-5.2-low", "gpt-5.2");
    ("gpt-5.2-medium", "gpt-5.2");
    ("gpt-5.2-high", "gpt-5.2");
    ("gpt-5.2-xhigh", "gpt-5.2");
    ("gpt-5.2-codex", "gpt-5.2-codex");
    ("gpt-5.2-codex-low", "gpt-5.2-codex");
    ("gpt-5.2-codex-medium", "gpt-5.2-codex");
    ("gpt-5.2-codex-high", "gpt-5.2-codex");
    ("gpt-5.2-codex-xhigh", "gpt-5.2-codex");
    ("gpt-5.1-codex-mini", "gpt-5.1-codex-mini");
    ("gpt-5.1-codex-mini-medium", "gpt-5.1-codex-mini");
    ("gpt-5.1-codex-mini-high", "gpt-5.1-codex-mini");
    ("gpt-5.1", "gpt-5.1");
    ("gpt-5.1-none", "gpt-5.1");
    ("gpt-5.1-low", "gpt-5.1");
    ("gpt-5.1-medium", "gpt-5.1");
    ("gpt-5.1-high", "gpt-5.1");
    ("gpt-5.1-chat-latest", "gpt-5.1");
    ("gpt-5-codex", "gpt-5.1-codex");
    ("codex-mini-latest", "gpt-5.1-codex-mini");
    ("gpt-5-codex-mini", "gpt-5.1-codex-mini");
    ("gpt-5-codex-mini-medium", "gpt-5.1-codex-mini");
    ("gpt-5-codex-mini-high", "gpt-5.1-codex-mini");
    ("gpt-5", "gpt-5.1");
    ("gpt-5-mini", "gpt-5.1");
    ("gpt-5-nano", "gpt-5.1") ].

(** The own properties of the table *)
Fixpoint map_get (k : string) (m : list (string * string)) : option string :=
  match m with
  | [] => None
  | (k', v) :: m' => if String.eqb k' k then Some v else map_get k m'
  end.

(** The property names every JavaScript object inherits from
    [Object.prototype].  Under such a name the table answers the inherited
    value: a function, or the prototype object for [__proto__]. *)
Definition Object_prototype_keys : list string :=
  [ "constructor"; "__defineGetter__"; "__defineSetter__"; "hasOwnProperty";
    "__lookupGetter__"; "__lookupSetter__"; "isPrototypeOf";
    "propertyIsEnumerable"; "toString"; "valueOf"; "__proto__";
    "toLocaleString" ].

(** What the normalisation hands on as the model: a string, or the value
    inherited under a property name of [Object.prototype], which is truthy
    and is no string. *)
Inductive ModelName : Type :=
| model_name (s : string)
| inherited_property (k : string).

Coercion model_name : string >-> ModelName.

(** [MODEL_MAP[k]]; [None] is [undefined]. *)
Definition MODEL_MAP_get (k : string) : option ModelName :=
  match map_get k MODEL_MAP with
  | Some v => Some (model_name v)
  | None =>
      if List.existsb (String.eqb k) Object_prototype_keys
      then Some (inherited_property k)
      else None
  end.

Definition getNormalizedModel (modelId : string) : option ModelName :=
  match MODEL_MAP_get modelId with
  | Some v => Some v
  | None =>
      let lower := Js.toLowerCase modelId in
      match List.find (fun kv => String.eqb (Js.toLowerCase kv.1) lower)
                      MODEL_MAP with
      | Some kv => MODEL_MAP_get kv.1
      | None => None
      end
  end.

Definition normalizeModel (model : option string) : ModelName :=
  match model with
  | None => "gpt-5.1"
  | Some m =>
      if negb (Js.truthy m) then "gpt-5.1" else
      let modelId := if Js.includes m "/" then Js.pop (Js.split m "/") else m in
      match getNormalizedModel modelId with
      | Some mapped => mapped
      | None =>
          let n := Js.toLowerCase modelId in
          if Js.includes n "gpt-5.2-codex" || Js.includes n "gpt 5.2 codex"
          then "gpt-5.2-codex"
          else if Js.includes n "gpt-5.2" || Js.includes n "gpt 5.2"
          then "gpt-5.2"
          else if Js.includes n "gpt-5.1-codex-max"
                  || Js.includes n "gpt 5.1 codex max"
          then "gpt-5.1-codex-max"
          else if Js.includes n "gpt-5.1-codex-mini"
                  || Js.includes n "gpt 5.1 codex mini"
          then "gpt-5.1-codex-mini"
          else if Js.includes n "codex-mini-latest"
                  || Js.includes n "gpt-5-codex-mini"
                  || Js.includes n "gpt 5 codex mini"
          then "codex-mini-latest"
          else if Js.includes n "gpt-5.1-codex" || Js.includes n "gpt 5.1 codex"
          then "gpt-5.1-codex"
          else if Js.includes n "gpt-5.1" || Js.includes n "gpt 5.1"
          then "gpt-5.1"
          else if Js.includes n "codex" then "gpt-5.1-codex"
          else if Js.includes n "gpt-5" || Js.includes n "gpt 5"
          then "gpt-5.1"
          else "gpt-5.1"
      end
  end.

(** The strings [normalizeModel] can answer *)
Definition normalizeModel_results : list string :=
  [ "gpt-5.1"; "gpt-5.1-codex"; "gpt-5.1-codex-max"; "gpt-5.1-codex-mini";
    "gpt-5.2"; "gpt-5.2-codex"; "codex-mini-latest" ].

(** ** URL rewrite ([fetch-helpers.ts]) *)

Definition URL_PATHS_RESPONSES : string := "/responses".
Definition URL_PATHS_CODEX_RESPONSES : string := "/codex/responses".

Definition rewriteUrlForCodex (url : string) : string :=
  Js.replace url URL_PATHS_RESPONSES URL_PATHS_CODEX_RESPONSES.

(** ** JavaScript values read from JSON

    A number [JNum m e] is the finite number [m * 10^e]; [JInf] is an
    infinity, which [JSON.parse] answers for a numeral beyond the range of
    the numbers.  An object holds its own properties, in the order of their
    creation. *)

#[local] Set Warnings "-register-all".

Inductive json : Type :=
| JNull
| JBool (b : bool)
| JNum (m e : Z)
| JInf (negative : bool)
| JStr (s : string)
| JArr (xs : list json)
| JObj (kvs : list (string * json)).

(** A JavaScript object read from JSON: its own properties. *)
Definition jobject : Type := list (string * json).

(** [o[k]]; [None] is [undefined]. *)
Fixpoint jget (k : string) (o : jobject) : option json :=
  match o with
  | [] => None
  | (k', v) :: o' => if String.eqb k' k then Some v else jget k o'
  end.

(** [o[k] = v] *)
Fixpoint jset (k : string) (v : json) (o : jobject) : jobject :=
  match o with
  | [] => [(k, v)]
  | (k', v') :: o' =>
      if String.eqb k' k then (k, v) :: o' else (k', v') :: jset k v o'
  end.

(** [delete o[k]], also the rest pattern [{ k, ...rest }] *)
Fixpoint jdel (k : string) (o : jobject) : jobject :=
  match o with
  | [] => []
  | (k', v') :: o' =>
      if String.eqb k' k then jdel k o' else (k', v') :: jdel k o'
  end.

(** JavaScript truthiness *)
Definition jtruthy (v : json) : bool :=
  match v with
  | JNull => false
  | JBool b => b
  | JNum m _ => negb (m =? 0)
  | JInf _ => true
  | JStr s => Js.truthy s
  | JArr _ | JObj _ => true
  end.

Definition string_of_N (n : N) : string :=
  DecimalString.NilZero.string_of_uint (N.to_uint n).

Fixpoint zeros (n : nat) : string :=
  match n with O => EmptyString | S n' => String "0"%char (zeros n') end.

(** [String(x)] for a number, in plain decimal notation. *)
Definition number_to_string (m e : Z) : string :=
  let sign := if m <? 0 then "-" else EmptyString in
  let d := string_of_N (Z.to_N (Z.abs m)) in
  if 0 <=? e then sign +:+ (if m =? 0 then "0" else d +:+ zeros (Z.to_nat e))
  else
    let k := Z.to_nat (- e) in
    let n := String.length d in
    if (k <? n)%nat
    then sign +:+ Js.take (n - k) d +:+ "." +:+ Js.drop (n - k) d
    else sign +:+ "0." +:+ zeros (k - n) +:+ d.

(** *** A reader and a printer of JSON texts

    The examples are run with them.  The statements hold for whatever the
    [JSON.parse] and [JSON.stringify] of the runtime answer: numbers are read
    exactly here and printed in plain decimal notation, members in the order
    of their creation. *)

Definition hex_digit (n : N) : Ascii.ascii :=
  if (n <? 10)%N then Ascii.ascii_of_N (48 + n) else Ascii.ascii_of_N (87 + n).

(** The escapes of [JSON.stringify] inside a string literal *)
Definition escape_char (c : Ascii.ascii) : string :=
  let n := Ascii.N_of_ascii c in
  if (n =? 34)%N then "\" +:+ String c EmptyString
  else if (n =? 92)%N then "\\"
  else if (n =? 8)%N then "\b"
  else if (n =? 12)%N then "\f"
  else if (n =? 10)%N then "\n"
  else if (n =? 13)%N then "\r"
  else if (n =? 9)%N then "\t"
  else if (n <? 32)%N
       then "\u00" +:+ String (hex_digit (n / 16))
                        (String (hex_digit (n mod 16)) EmptyString)
  else String c EmptyString.

Fixpoint escape (s : string) : string :=
  match s with
  | EmptyString => EmptyString
  | String c s' => escape_char c +:+ escape s'
  end.

Definition DQUOTE : string := String (Ascii.ascii_of_N 34) EmptyString.

Definition quote (s : string) : string := DQUOTE +:+ escape s +:+ DQUOTE.

Fixpoint join (sep : string) (xs : list string) : string :=
  match xs with
  | [] => EmptyString
  | [x] => x
  | x :: xs' => x +:+ sep +:+ join sep xs'
  end.

Fixpoint write_json (v : json) : string :=
  match v with
  | JNull => "null"
  | JBool true => "true"
  | JBool false => "false"
  | JNum m e => number_to_string m e
  | JInf _ => "null"
  | JStr s => quote s
  | JArr xs => "[" +:+ join "," (List.map write_json xs) +:+ "]"
  | JObj kvs =>
      "{" +:+
      join "," (List.map (fun kv => match kv with
                                    | (k, x) => quote k +:+ ":" +:+ write_json x
                                    end) kvs)
      +:+ "}"
  end.


Definition is_ws (c : Ascii.ascii) : bool :=
  let n := Ascii.N_of_ascii c in
  ((n =? 32) || (n =? 9) || (n =? 10) || (n =? 13))%N.

Fixpoint skip_ws (s : string) : string :=
  match s with
  | String c s' => if is_ws c then skip_ws s' else s
  | EmptyString => s
  end.

Definition digit_of (c : Ascii.ascii) : option Z :=
  let n := Ascii.N_of_ascii c in
  if ((48 <=? n) && (n <=? 57))%N then Some (Z.of_N (n - 48)) else None.

Definition hex_of (c : Ascii.ascii) : option N :=
  let n := Ascii.N_of_ascii c in
  if ((48 <=? n) && (n <=? 57))%N then Some (n - 48)%N
  else if ((97 <=? n) && (n <=? 102))%N then Some (n - 87)%N
  else if ((65 <=? n) && (n <=? 70))%N then Some (n - 55)%N
  else None.

(** The longest run of digits: value, number of digits, rest. *)
Fixpoint read_digits (s : string) (acc n : Z) : Z * Z * string :=
  match s with
  | EmptyString => (acc, n, s)
  | String c s' =>
      match digit_of c with
      | Some d => read_digits s' (10 * acc + d) (n + 1)
      | None => (acc, n, s)
      end
  end.

Fixpoint strip_zeros (fuel : nat) (m e : Z) : Z * Z :=
  match fuel with
  | O => (m, e)
  | S f =>
      if m =? 0 then (0, 0)
      else if m mod 10 =? 0 then strip_zeros f (m / 10) (e + 1)
      else (m, e)
  end.

Definition mk_num (m e : Z) : json :=
  let '(m', e') := strip_zeros (S (Z.to_nat (Z.log2 (Z.abs m)))) m e in
  JNum m' e'.

Definition parse_exponent (s : string) : option (Z * string) :=
  match s with
  | String c r =>
      if (Ascii.eqb c "e" || Ascii.eqb c "E")%char then
        let '(sg, r1) :=
          match r with
          | String "-"%char r' => (-1, r')
          | String "+"%char r' => (1, r')
          | _ => (1, r)
          end in
        let '(v, n, r2) := read_digits r1 0 0 in
        if n =? 0 then None else Some (sg * v, r2)
      else Some (0, s)
  | EmptyString => Some (0, s)
  end.

Definition parse_fraction (ip : Z) (s : string) : option (Z * Z * string) :=
  match s with
  | String "."%char r =>
      let '(v, n, r1) := read_digits r ip 0 in
      if n =? 0 then None else Some (v, n, r1)
  | _ => Some (ip, 0, s)
  end.

Definition parse_number (s : string) : option (json * string) :=
  let '(sg, s1) :=
    match s with
    | String "-"%char r => (-1, r)
    | _ => (1, s)
    end in
  match s1 with
  | EmptyString => None
  | String c r =>
      match digit_of c with
      | None => None
      | Some d =>
          let '(ip, s2) :=
            if d =? 0 then (0, r)
            else let '(v, _, r') := read_digits r d 1 in (v, r') in
          match parse_fraction ip s2 with
          | None => None
          | Some (m, fl, s3) =>
              match parse_exponent s3 with
              | None => None
              | Some (ex, s4) => Some (mk_num (sg * m) (ex - fl), s4)
              end
          end
      end
  end.

(** UTF-8 bytes of a code unit given by a [\uXXXX] escape (surrogate halves
    are encoded one by one). *)
Definition utf8 (cp : N) : string :=
  let b (n : N) := Ascii.ascii_of_N n in
  if (cp <? 128)%N then String (b cp) EmptyString
  else if (cp <? 2048)%N
  then String (b (192 + cp / 64)%N)
         (String (b (128 + cp mod 64)%N) EmptyString)
  else String (b (224 + cp / 4096)%N)
         (String (b (128 + (cp / 64) mod 64)%N)
            (String (b (128 + cp mod 64)%N) EmptyString)).

Definition unescape (c : Ascii.ascii) : option string :=
  let n := Ascii.N_of_ascii c in
  let one (k : N) := Some (String (Ascii.ascii_of_N k) EmptyString) in
  if (n =? 34)%N then one 34%N
  else if (n =? 92)%N then one 92%N
  else if (n =? 47)%N then one 47%N
  else if (n =? 98)%N then one 8%N
  else if (n =? 102)%N then one 12%N
  else if (n =? 110)%N then one 10%N
  else if (n =? 114)%N then one 13%N
  else if (n =? 116)%N then one 9%N
  else None.

(** The inside of a string literal, after the opening quote. *)
Fixpoint parse_string_body (s : string) : option (string * string) :=
  match s with
  | EmptyString => None
  | String c s' =>
      let n := Ascii.N_of_ascii c in
      if (n =? 34)%N then Some (EmptyString, s')
      else if (n =? 92)%N then
        match s' with
        | String "u"%char (String h1 (String h2 (String h3 (String h4 r)))) =>
            match hex_of h1, hex_of h2, hex_of h3, hex_of h4 with
            | Some a1, Some a2, Some a3, Some a4 =>
                match parse_string_body r with
                | Some (t, r') =>
                    Some (utf8 (4096 * a1 + 256 * a2 + 16 * a3 + a4)%N +:+ t, r')
                | None => None
                end
            | _, _, _, _ => None
            end
        | String e r =>
            match unescape e with
            | Some u =>
                match parse_string_body r with
                | Some (t, r') => Some (u +:+ t, r')
                | None => None
                end
            | None => None
            end
        | EmptyString => None
        end
      else if (n <? 32)%N then None
      else
        match parse_string_body s' with
        | Some (t, r') => Some (String c t, r')
        | None => None
        end
  end.

Fixpoint parse_value (fuel : nat) (s : string) : option (json * string) :=
  match fuel with
  | O => None
  | S f =>
      match skip_ws s with
      | EmptyString => None
      | String c r =>
          let n := Ascii.N_of_ascii c in
          if (n =? 123)%N then
            match skip_ws r with
            | String "}"%char r' => Some (JObj [], r')
            | _ => parse_members f r []
            end
          else if (n =? 91)%N then
            match skip_ws r with
            | String "]"%char r' => Some (JArr [], r')
            | _ => parse_elements f r []
            end
          else if (n =? 34)%N then
            match parse_string_body r with
            | Some (t, r') => Some (JStr t, r')
            | None => None
            end
          else if Js.startsWith (String c r) "true"
          then Some (JBool true, Js.drop 4 (String c r))
          else if Js.startsWith (String c r) "false"
          then Some (JBool false, Js.drop 5 (String c r))
          else if Js.startsWith (String c r) "null"
          then Some (JNull, Js.drop 4 (String c r))
          else parse_number (String c r)
      end
  end
with parse_elements (fuel : nat) (s : string) (acc : list json)
  : option (json * string) :=
  match fuel with
  | O => None
  | S f =>
      match parse_value f s with
      | None => None
      | Some (v, r) =>
          match skip_ws r with
          | String ","%char r' => parse_elements f r' (acc ++ [v])
          | String "]"%char r' => Some (JArr (acc ++ [v]), r')
          | _ => None
          end
      end
  end
with parse_members (fuel : nat) (s : string) (acc : jobject)
  : option (json * string) :=
  match fuel with
  | O => None
  | S f =>
      match skip_ws s with
      | String c r =>
          if (Ascii.N_of_ascii c =? 34)%N then
            match parse_string_body r with
            | None => None
            | Some (k, r1) =>
                match skip_ws r1 with
                | String ":"%char r2 =>
                    match parse_value f r2 with
                    | None => None
                    | Some (v, r3) =>
                        match skip_ws r3 with
                        | String ","%char r4 => parse_members f r4 (jset k v acc)
                        | String "}"%char r4 => Some (JObj (jset k v acc), r4)
                        | _ => None
                        end
                    end
                | _ => None
                end
            end
          else None
      | EmptyString => None
      end
  end.

(** [None]: the text is not JSON.  Every recursive call follows at least one
    consumed character, so twice the length of the text is fuel enough. *)
Definition read_json (s : string) : option json :=
  match parse_value (2 * String.length s + 2) s with
  | Some (v, r) =>
      match skip_ws r with
      | EmptyString => Some v
      | _ => None
      end
  | None => None
  end.

(** [String(v)] / [v.toString()] on a JSON value *)
Fixpoint jtoString (v : json) : string :=
  match v with
  | JNull => "null"
  | JBool true => "true"
  | JBool false => "false"
  | JNum m e => number_to_string m e
  | JInf negative => if negative then "-Infinity" else "Infinity"
  | JStr s => s
  | JArr xs =>
      join "," (List.map (fun x => match x with
                                   | JNull => EmptyString
                                   | _ => jtoString x
                                   end) xs)
  | JObj _ => "[object Object]"
  end.

(** [v[k]] on any value: only objects carry the properties read here
    (reading a property of [null] throws in JavaScript; the typed sources
    do not hand [null] to these reads). *)
Definition jprop (v : json) (k : string) : option json :=
  match v with
  | JObj o => jget k o
  | _ => None
  end.

(** ** Input filtering ([helpers/input-utils.ts]) *)

(** An input item is an open JavaScript object: [type], [role], [content],
    [id], [call_id], [name], [output] and whatever else the host sent. *)
Definition InputItem : Type := jobject.

Definition OPENCODE_PROMPT_SIGNATURES : list string :=
  List.map Js.toLowerCase
    [ "you are a coding agent running in the opencode";
      "you are opencode, an agent";
      "you are opencode, an interactive cli agent";
      "you are opencode, an interactive cli tool";
      "you are opencode, the best coding agent on the planet" ].

Definition OPENCODE_CONTEXT_MARKERS : list string :=
  List.map Js.toLowerCase
    [ "here is some useful information about the environment you are running in:";
      "<env>";
      "instructions from:";
      "<instructions>" ].

Definition getContentText (item : InputItem) : string :=
  match jget "content" item with
  | Some (JStr s) => s
  | Some (JArr cs) =>
      join Js.LF
        (List.map (fun c => match jprop c "text" with
                            | Some t => jtoString t
                            | None => EmptyString
                            end)
           (List.filter
              (fun c => match jprop c "type", jprop c "text" with
                        | Some (JStr ty), Some t =>
                            String.eqb ty "input_text" && jtruthy t
                        | _, _ => false
                        end) cs))
  | _ => EmptyString
  end.

Definition replaceContentText (item : InputItem) (text : string) : InputItem :=
  match jget "content" item with
  | Some (JArr _) =>
      jset "content"
        (JArr [JObj [("type", JStr "input_text"); ("text", JStr text)]]) item
  | _ => jset "content" (JStr text) item
  end.

Definition extractOpenCodeContext (text : string) : option string :=
  let lower := Js.toLowerCase text in
  let earliest :=
    List.fold_left
      (fun (earliest : option nat) marker =>
         match Js.indexOf lower marker, earliest with
         | Some idx, None => Some idx
         | Some idx, Some e => if (idx <? e)%nat then Some idx else Some e
         | None, _ => earliest
         end)
      OPENCODE_CONTEXT_MARKERS None in
  match earliest with
  | None => None
  | Some e => Some (Js.trimStart (Js.slice_from e text))
  end.

Definition isOpenCodeSystemPrompt (item : InputItem)
    (cachedPrompt : option string) : bool :=
  let isSystemRole :=
    match jget "role" item with
    | Some (JStr r) => String.eqb r "developer" || String.eqb r "system"
    | _ => false
    end in
  if negb isSystemRole then false else
  let contentText := getContentText item in
  if negb (Js.truthy contentText) then false else
  let by_cache :=
    match cachedPrompt with
    | Some cachedPrompt' =>
        if Js.truthy cachedPrompt' then
          let ct := Js.trim contentText in
          let cp := Js.trim cachedPrompt' in
          String.eqb ct cp || Js.startsWith_units ct cp
          || String.eqb (Js.slice_to 200 ct) (Js.slice_to 200 cp)
        else false
    | None => false
    end in
  if by_cache then true else
  let normalized := Js.toLowerCase (Js.trimStart contentText) in
  List.existsb (fun sig => Js.startsWith normalized sig)
    OPENCODE_PROMPT_SIGNATURES.

Definition filterOpenCodeSystemPromptsWithCachedPrompt
    (input : list InputItem) (cachedPrompt : option string) : list InputItem :=
  List.flat_map
    (fun item =>
       if match jget "role" item with
          | Some (JStr r) => String.eqb r "user"
          | _ => false
          end then [item]
       else if negb (isOpenCodeSystemPrompt item cachedPrompt) then [item]
       else
         match extractOpenCodeContext (getContentText item) with
         | Some preserved =>
             if Js.truthy preserved then [replaceContentText item preserved]
             else []
         | None => []
         end)
    input.

Definition getCallId (item : InputItem) : option string :=
  match jget "call_id" item with
  | Some (JStr rawId) =>
      let trimmed := Js.trim rawId in
      if (0 <? String.length trimmed)%nat then Some trimmed else None
  | _ => None
  end.

Definition item_type (item : InputItem) (ty : string) : bool :=
  match jget "type" item with
  | Some (JStr t) => String.eqb t ty
  | _ => false
  end.

Definition OUTPUT_LIMIT : nat := Z.to_nat 16000.

(** [if (text.length > 16000)
       text = text.slice(0, 16000) + "\n...[truncated]"] *)
Definition truncate_output (text : string) : string :=
  if (OUTPUT_LIMIT <? Js.length text)%nat
  then Js.slice_to OUTPUT_LIMIT text +:+ Js.LF +:+ "...[truncated]"
  else text.

Section OrphanRepair.

(** [JSON.stringify(v)] on a value read from JSON, from the runtime *)
Variable JSON_stringify : json -> string.

(** The text of the [output] property; [None] when the property is absent:
    [JSON.stringify(undefined)] is [undefined], and reading its [length]
    throws a [TypeError]. *)
Definition output_text (item : InputItem) : option string :=
  match jget "output" item with
  | Some (JStr s) => Some s
  | Some out => Some (JSON_stringify out)
  | None => None
  end.

Definition convertOrphanedOutputToMessage (item : InputItem)
    (callId : option string) : option InputItem :=
  let toolName :=
    match jget "name" item with
    | Some (JStr n) => n
    | _ => "tool"
    end in
  match output_text item with
  | None => None
  | Some text =>
      Some [ ("type", JStr "message");
             ("role", JStr "assistant");
             ("content",
              JStr ("[Previous " +:+ toolName +:+ " result; call_id="
                    +:+ default "unknown" callId +:+ "]: "
                    +:+ truncate_output text)) ]
  end.

Record CallIdSets : Type := mkCallIdSets {
  functionCallIds : gset string;
  localShellCallIds : gset string;
  customToolCallIds : gset string
}.

Definition collect_call_id (acc : CallIdSets) (item : InputItem) : CallIdSets :=
  match getCallId item with
  | None => acc
  | Some callId =>
      if item_type item "function_call"
      then mkCallIdSets ({[callId]} ∪ functionCallIds acc)
             (localShellCallIds acc) (customToolCallIds acc)
      else if item_type item "local_shell_call"
      then mkCallIdSets (functionCallIds acc)
             ({[callId]} ∪ localShellCallIds acc) (customToolCallIds acc)
      else if item_type item "custom_tool_call"
      then mkCallIdSets (functionCallIds acc) (localShellCallIds acc)
             ({[callId]} ∪ customToolCallIds acc)
      else acc
  end.

Definition collectCallIds (input : list InputItem) : CallIdSets :=
  List.fold_left collect_call_id input (mkCallIdSets ∅ ∅ ∅).

(** The callback of the final [input.map]. *)
Definition repair_item (ids : CallIdSets) (item : InputItem)
  : option InputItem :=
  let known (cid : option string) (in_sets : string -> bool) : bool :=
    match cid with
    | Some c => in_sets c
    | None => false
    end in
  if item_type item "function_call_output"
     && negb (known (getCallId item)
                (fun c => bool_decide (c ∈ functionCallIds ids)
                          || bool_decide (c ∈ localShellCallIds ids)))
  then convertOrphanedOutputToMessage item (getCallId item)
  else if item_type item "custom_tool_call_output"
          && negb (known (getCallId item)
                     (fun c => bool_decide (c ∈ customToolCallIds ids)))
  then convertOrphanedOutputToMessage item (getCallId item)
  else if item_type item "local_shell_call_output"
          && negb (known (getCallId item)
                     (fun c => bool_decide (c ∈ localShellCallIds ids)))
  then convertOrphanedOutputToMessage item (getCallId item)
  else Some item.

(** [None]: the [TypeError] of an orphaned output without [output]. *)
Definition normalizeOrphanedToolOutputs (input : list InputItem)
  : option (list InputItem) :=
  mapM (repair_item (collectCallIds input)) input.

End OrphanRepair.

(** ** Request transformation ([request-transformer.ts]) *)

Inductive Effort : Type :=
| effort_none | effort_minimal | effort_low | effort_medium | effort_high
| effort_xhigh.

Inductive Summary : Type :=
| summary_auto | summary_concise | summary_detailed | summary_off | summary_on.

Inductive Verbosity : Type :=
| verbosity_low | verbosity_medium | verbosity_high.

Record ConfigOptions : Type := mkConfigOptions {
  reasoningEffort : option Effort;
  reasoningSummary : option Summary;
  textVerbosity : option Verbosity;
  cfg_include : option (list string)
}.

Definition emptyConfig : ConfigOptions := mkConfigOptions None None None None.

(** [{ ...a, ...b }] on configuration objects *)
Definition spreadConfig (a b : ConfigOptions) : ConfigOptions :=
  mkConfigOptions
    (if reasoningEffort b is Some x then Some x else reasoningEffort a)
    (if reasoningSummary b is Some x then Some x else reasoningSummary a)
    (if textVerbosity b is Some x then Some x else textVerbosity a)
    (if cfg_include b is Some x then Some x else cfg_include a).

Record UserConfig : Type := mkUserConfig {
  global : option ConfigOptions;
  models : list (string * option ConfigOptions)
}.

Record ReasoningConfig : Type := mkReasoningConfig {
  effort : Effort;
  summary : Summary
}.

(** [Partial<ReasoningConfig>] *)
Record PartialReasoning : Type := mkPartialReasoning {
  pr_effort : option Effort;
  pr_summary : option Summary
}.

(** [RequestBody]: the properties the transformer reads or writes, each
    possibly absent, and [extras] for every other property of the object.
    A body read from JSON has a string as its [model]; the transformer may
    leave an inherited value there ([normalizeModel]). *)
Record RequestBody : Type := mkRequestBody {
  model : option ModelName;
  store : option bool;
  stream : option bool;
  instructions : option string;
  input : option (list InputItem);
  tools : option json;
  reasoning : option PartialReasoning;
  text : option (option Verbosity);
  include : option (list string);
  providerOptions_openai : option ConfigOptions;
  prompt_cache_key : option string;
  max_output_tokens : option Z;
  max_completion_tokens : option Z;
  extras : jobject
}.

Fixpoint models_get (k : string) (m : list (string * option ConfigOptions))
  : option (option ConfigOptions) :=
  match m with
  | [] => None
  | (k', v) :: m' => if String.eqb k' k then Some v else models_get k m'
  end.

Definition getModelConfig (modelName : string) (userConfig : UserConfig)
  : ConfigOptions :=
  let globalOptions := default emptyConfig (global userConfig) in
  let modelOptions :=
    match models_get modelName (models userConfig) with
    | Some (Some o) => o
    | _ => emptyConfig
    end in
  spreadConfig globalOptions modelOptions.

Definition getReasoningConfig (modelName : option string)
    (userConfig : ConfigOptions) : ReasoningConfig :=
  let n := match modelName with
           | Some m => Js.toLowerCase m
           | None => EmptyString
           end in
  let isGpt52Codex :=
    Js.includes n "gpt-5.2-codex" || Js.includes n "gpt 5.2 codex" in
  let isGpt52General :=
    (Js.includes n "gpt-5.2" || Js.includes n "gpt 5.2") && negb isGpt52Codex in
  let isCodexMax := Js.includes n "codex-max" || Js.includes n "codex max" in
  let isCodexMini :=
    Js.includes n "codex-mini" || Js.includes n "codex mini"
    || Js.includes n "codex_mini" || Js.includes n "codex-mini-latest" in
  let isCodex := Js.includes n "codex" && negb isCodexMini in
  let isLightweight :=
    negb isCodexMini && (Js.includes n "nano" || Js.includes n "mini") in
  let isGpt51General :=
    (Js.includes n "gpt-5.1" || Js.includes n "gpt 5.1")
    && negb isCodex && negb isCodexMax && negb isCodexMini in
  let supportsXhigh := isGpt52General || isGpt52Codex || isCodexMax in
  let supportsNone := isGpt52General || isGpt51General in
  let defaultEffort :=
    if isCodexMini then effort_medium
    else if supportsXhigh then effort_high
    else if isLightweight then effort_minimal
    else effort_medium in
  let effort0 := default defaultEffort (reasoningEffort userConfig) in
  let effort1 :=
    if isCodexMini then
      let e1 := match effort0 with
                | effort_minimal | effort_low | effort_none => effort_medium
                | e => e
                end in
      let e2 := match e1 with effort_xhigh => effort_high | e => e end in
      match e2 with
      | effort_high | effort_medium => e2
      | _ => effort_medium
      end
    else effort0 in
  let effort2 :=
    match effort1 with
    | effort_xhigh => if negb supportsXhigh then effort_high else effort1
    | _ => effort1
    end in
  let effort3 :=
    match effort2 with
    | effort_none => if negb supportsNone then effort_low else effort2
    | _ => effort2
    end in
  let effort4 :=
    match effort3 with effort_minimal => effort_low | e => e end in
  mkReasoningConfig effort4
    (default summary_auto (reasoningSummary userConfig)).

Definition resolveReasoningConfig (modelName : string)
    (modelConfig : ConfigOptions) (body : RequestBody) : ReasoningConfig :=
  let providerOpts := providerOptions_openai body in
  let existingEffort :=
    match reasoning body ≫= pr_effort with
    | Some e => Some e
    | None => providerOpts ≫= reasoningEffort
    end in
  let existingSummary :=
    match reasoning body ≫= pr_summary with
    | Some e => Some e
    | None => providerOpts ≫= reasoningSummary
    end in
  let merged :=
    mkConfigOptions
      (if existingEffort is Some e then Some e else reasoningEffort modelConfig)
      (if existingSummary is Some e then Some e
       else reasoningSummary modelConfig)
      (textVerbosity modelConfig) (cfg_include modelConfig) in
  getReasoningConfig (Some modelName) merged.

Definition resolveTextVerbosity (modelConfig : ConfigOptions)
    (body : RequestBody) : Verbosity :=
  match mjoin (text body) with
  | Some v => v
  | None =>
      match providerOptions_openai body ≫= textVerbosity with
      | Some v => v
      | None => default verbosity_medium (textVerbosity modelConfig)
      end
  end.

(** [Array.from(new Set(xs))]: first occurrences, in order *)
Fixpoint dedup_strings (seen xs : list string) : list string :=
  match xs with
  | [] => []
  | x :: xs' =>
      if List.existsb (String.eqb x) seen then dedup_strings seen xs'
      else x :: dedup_strings (x :: seen) xs'
  end.

Definition resolveInclude (modelConfig : ConfigOptions) (body : RequestBody)
  : list string :=
  let base :=
    match include body with
    | Some b => b
    | None =>
        match providerOptions_openai body ≫= cfg_include with
        | Some b => b
        | None =>
            default ["reasoning.encrypted_content"] (cfg_include modelConfig)
        end
    end in
  let include := dedup_strings [] (List.filter Js.truthy base) in
  if List.existsb (String.eqb "reasoning.encrypted_content") include
  then include
  else include ++ ["reasoning.encrypted_content"].

Definition filterInput (input : list InputItem) : list InputItem :=
  List.map
    (fun item =>
       match jget "id" item with
       | Some i => if jtruthy i then jdel "id" item else item
       | None => item
       end)
    (List.filter (fun item => negb (item_type item "item_reference")) input).

Definition developer_message (text : string) : InputItem :=
  [ ("type", JStr "message");
    ("role", JStr "developer");
    ("content", JArr [JObj [("type", JStr "input_text"); ("text", JStr text)]]) ].

(** Request bodies are JavaScript objects: the transformer receives a
    reference and assigns to the object's properties. *)
Abbreviation ref := positive (only parsing).
Abbreviation heap := (gmap positive RequestBody) (only parsing).

Section Transformer.

(** The prompt texts of [lib/prompts]: long constants the transformation
    only copies. *)
Variable CODEX_OPENCODE_BRIDGE : string.
Variable TOOL_REMAP_MESSAGE : string.

(** [JSON.stringify], from the runtime *)
Variable JSON_stringify : json -> string.

Definition addCodexBridgeMessage (input : list InputItem) (hasTools : bool)
  : list InputItem :=
  if negb hasTools then input
  else developer_message CODEX_OPENCODE_BRIDGE :: input.

Definition addToolRemapMessage (input : list InputItem) (hasTools : bool)
  : list InputItem :=
  if negb hasTools then input
  else developer_message TOOL_REMAP_MESSAGE :: input.


Definition set_model (v : option ModelName) (b : RequestBody) : RequestBody :=
  mkRequestBody v (store b) (stream b) (instructions b) (input b) (tools b)
    (reasoning b) (text b) (include b) (providerOptions_openai b)
    (prompt_cache_key b) (max_output_tokens b) (max_completion_tokens b)
    (extras b).
Definition set_store (v : option bool) (b : RequestBody) : RequestBody :=
  mkRequestBody (model b) v (stream b) (instructions b) (input b) (tools b)
    (reasoning b) (text b) (include b) (providerOptions_openai b)
    (prompt_cache_key b) (max_output_tokens b) (max_completion_tokens b)
    (extras b).
Definition set_stream (v : option bool) (b : RequestBody) : RequestBody :=
  mkRequestBody (model b) (store b) v (instructions b) (input b) (tools b)
    (reasoning b) (text b) (include b) (providerOptions_openai b)
    (prompt_cache_key b) (max_output_tokens b) (max_completion_tokens b)
    (extras b).
Definition set_instructions (v : option string) (b : RequestBody)
  : RequestBody :=
  mkRequestBody (model b) (store b) (stream b) v (input b) (tools b)
    (reasoning b) (text b) (include b) (providerOptions_openai b)
    (prompt_cache_key b) (max_output_tokens b) (max_completion_tokens b)
    (extras b).
Definition set_input (v : option (list InputItem)) (b : RequestBody)
  : RequestBody :=
  mkRequestBody (model b) (store b) (stream b) (instructions b) v (tools b)
    (reasoning b) (text b) (include b) (providerOptions_openai b)
    (prompt_cache_key b) (max_output_tokens b) (max_completion_tokens b)
    (extras b).
Definition set_reasoning (v : option PartialReasoning) (b : RequestBody)
  : RequestBody :=
  mkRequestBody (model b) (store b) (stream b) (instructions b) (input b)
    (tools b) v (text b) (include b) (providerOptions_openai b)
    (prompt_cache_key b) (max_output_tokens b) (max_completion_tokens b)
    (extras b).
Definition set_text (v : option (option Verbosity)) (b : RequestBody)
  : RequestBody :=
  mkRequestBody (model b) (store b) (stream b) (instructions b) (input b)
    (tools b) (reasoning b) v (include b) (providerOptions_openai b)
    (prompt_cache_key b) (max_output_tokens b) (max_completion_tokens b)
    (extras b).
Definition set_include (v : option (list string)) (b : RequestBody)
  : RequestBody :=
  mkRequestBody (model b) (store b) (stream b) (instructions b) (input b)
    (tools b) (reasoning b) (text b) v (providerOptions_openai b)
    (prompt_cache_key b) (max_output_tokens b) (max_completion_tokens b)
    (extras b).
Definition set_max_output_tokens (v : option Z) (b : RequestBody)
  : RequestBody :=
  mkRequestBody (model b) (store b) (stream b) (instructions b) (input b)
    (tools b) (reasoning b) (text b) (include b) (providerOptions_openai b)
    (prompt_cache_key b) v (max_completion_tokens b) (extras b).
Definition set_max_completion_tokens (v : option Z) (b : RequestBody)
  : RequestBody :=
  mkRequestBody (model b) (store b) (stream b) (instructions b) (input b)
    (tools b) (reasoning b) (text b) (include b) (providerOptions_openai b)
    (prompt_cache_key b) (max_output_tokens b) v (extras b).

(** [body.f = v] through the reference *)
Definition assign (l : ref) (f : RequestBody -> RequestBody) (h : heap)
  : heap :=
  match h !! l with
  | Some b => <[l := f b]> h
  | None => h
  end.

(** The input clean-up of [transformRequestBody], up to orphan repair;
    [cachedPrompt] is what [getOpenCodeCodexPrompt()] resolved to ([None]
    when it failed). *)
Definition clean_input (cachedPrompt : option string) (codexMode : bool)
    (hasTools : bool) (input : list InputItem) : list InputItem :=
  let filtered := filterInput input in
  if codexMode
  then addCodexBridgeMessage
         (filterOpenCodeSystemPromptsWithCachedPrompt filtered cachedPrompt)
         hasTools
  else addToolRemapMessage filtered hasTools.

(** [transformRequestBody(body, codexInstructions, userConfig, codexMode)].
    The result is the new heap and the returned reference, [None] when the
    call throws (the assignments made before the throw stay).  It throws
    when orphan repair does, and when the model is no string: on the way in,
    where [normalizeModel] calls [model.includes], or on the way out of
    [normalizeModel], where [getReasoningConfig] calls
    [modelName.toLowerCase]. *)
Definition transformRequestBody (h : heap) (body : ref)
    (codexInstructions : string) (userConfig : UserConfig) (codexMode : bool)
    (cachedPrompt : option string) : heap * option ref :=
  match h !! body with
  | None => (h, None)
  | Some b0 =>
      match model b0 with
      | Some (inherited_property _) => (h, None)
      | originalModel' =>
      let originalModel :=
        match originalModel' with
        | Some (model_name m) => Some m
        | _ => None
        end in
      let normalizedModel := normalizeModel originalModel in
      let lookupModel :=
        match originalModel with
        | Some m => if Js.truthy m then model_name m else normalizedModel
        | None => normalizedModel
        end in
      let modelConfig :=
        match lookupModel with
        | model_name m => getModelConfig m userConfig
        | inherited_property _ =>
            (* not reached: [lookupModel] is [normalizedModel] only for an
               absent or empty model, and is then ["gpt-5.1"] *)
            getModelConfig EmptyString userConfig
        end in
      let h1 := assign body (set_model (Some normalizedModel)) h in
      let h2 := assign body (set_store (Some false)) h1 in
      let h3 := assign body (set_stream (Some true)) h2 in
      let h4 := assign body (set_instructions (Some codexInstructions)) h3 in
      let hasTools := if tools b0 is Some t then jtruthy t else false in
      let after_input : heap * bool :=
        match input b0 with
        | None => (h4, true)
        | Some inp =>
            let cleaned := clean_input cachedPrompt codexMode hasTools inp in
            let h5 := assign body (set_input (Some cleaned)) h4 in
            match normalizeOrphanedToolOutputs JSON_stringify cleaned with
            | Some repaired =>
                (assign body (set_input (Some repaired)) h5, true)
            | None => (h5, false)
            end
        end in
      let '(h6, ok) := after_input in
      if negb ok then (h6, None) else
      match normalizedModel, h6 !! body with
      | inherited_property _, _ => (h6, None)
      | model_name normalizedName, None => (h6, None)
      | model_name normalizedName, Some b6 =>
          let reasoningConfig :=
            resolveReasoningConfig normalizedName modelConfig b6 in
          let h7 :=
            assign body
              (set_reasoning
                 (Some (mkPartialReasoning (Some (effort reasoningConfig))
                          (Some (summary reasoningConfig))))) h6 in
          let h8 :=
            assign body
              (set_text (Some (Some (resolveTextVerbosity modelConfig b6))))
              h7 in
          let h9 :=
            assign body (set_include (Some (resolveInclude modelConfig b6)))
              h8 in
          let h10 := assign body (set_max_output_tokens None) h9 in
          let h11 := assign body (set_max_completion_tokens None) h10 in
          (h11, Some body)
      end
      end
  end.

End Transformer.

(** *** What orphan repair is meant to do, in terms of the sequence itself *)

(** Some item of type [ty] in the sequence carries the call id [cid]. *)
Definition has_call (input : list InputItem) (ty cid : string) : Prop :=
  exists c, c ∈ input /\ item_type c ty = true /\ getCallId c = Some cid.

(** The output item has no call id, or no call item the code pairs it with:
    a [function_call_output] pairs with [function_call] and with
    [local_shell_call] items. *)
Definition orphaned (input : list InputItem) (item : InputItem) : Prop :=
  (item_type item "function_call_output" = true
   /\ forall cid, getCallId item = Some cid ->
        ~ has_call input "function_call" cid
        /\ ~ has_call input "local_shell_call" cid)
  \/ (item_type item "custom_tool_call_output" = true
      /\ forall cid, getCallId item = Some cid ->
           ~ has_call input "custom_tool_call" cid)
  \/ (item_type item "local_shell_call_output" = true
      /\ forall cid, getCallId item = Some cid ->
           ~ has_call input "local_shell_call" cid).

Definition tool_name (item : InputItem) : string :=
  match jget "name" item with
  | Some (JStr n) => n
  | _ => "tool"
  end.

(** Apostrophes stand for double quotes in the JSON texts of the examples. *)
Fixpoint dq (s : string) : string :=
  match s with
  | EmptyString => EmptyString
  | String c s' =>
      String (if (N_of_ascii c =? 39)%N then ascii_of_N 34 else c) (dq s')
  end.

(** *** Sample items *)

Definition ex_call (ty cid : string) : InputItem :=
  [("type", JStr ty); ("call_id", JStr cid); ("name", JStr "shell")].

Definition ex_output (ty cid out : string) : InputItem :=
  [("type", JStr ty); ("call_id", JStr cid); ("output", JStr out)].

Definition ex_body : RequestBody :=
  mkRequestBody (Some (model_name "gpt-5-codex")) (Some true) None None None
    None None None None None None (Some 4096) None [].

(** ** Account rotation ([accounts/rotation.ts]) *)

Definition Qltb (a b : Q) : bool := negb (Qle_bool b a).
Definition Qmin' (a b : Q) : Q := if Qle_bool a b then a else b.
Definition Qmax' (a b : Q) : Q := if Qle_bool a b then b else a.

(** *** Health score *)

Record HealthScoreConfig : Type := mkHealthScoreConfig {
  initial : Z;
  successReward : Z;
  rateLimitPenalty : Z;
  failurePenalty : Z;
  recoveryRatePerHour : Z;
  minUsable : Z;
  maxScore : Z
}.

Definition DEFAULT_HEALTH_CONFIG : HealthScoreConfig :=
  mkHealthScoreConfig 70 1 (-10) (-20) 2 50 100.

Record HealthState : Type := mkHealthState {
  hs_score : Z;
  hs_lastUpdated : Z;
  hs_consecutiveFailures : nat
}.

Record HealthScoreTracker : Type := mkHealthScoreTracker {
  scores : gmap nat HealthState;
  hs_config : HealthScoreConfig
}.

Definition new_HealthScoreTracker : HealthScoreTracker :=
  mkHealthScoreTracker ∅ DEFAULT_HEALTH_CONFIG.

Module Health.

Definition getScore (t : HealthScoreTracker) (now : Z) (index : nat) : Z :=
  match scores t !! index with
  | None => initial (hs_config t)
  | Some state =>
      (* floor(hoursSince * recoveryRatePerHour) *)
      let recovered :=
        ((now - hs_lastUpdated state) * recoveryRatePerHour (hs_config t))
        / 3600000 in
      Z.min (maxScore (hs_config t)) (hs_score state + recovered)
  end.

Definition recordSuccess (t : HealthScoreTracker) (now : Z) (index : nat)
  : HealthScoreTracker :=
  let current := getScore t now index in
  mkHealthScoreTracker
    (<[index := mkHealthState
                  (Z.min (maxScore (hs_config t))
                     (current + successReward (hs_config t)))
                  now 0]> (scores t))
    (hs_config t).

Definition prior_failures (t : HealthScoreTracker) (index : nat) : nat :=
  match scores t !! index with
  | Some state => hs_consecutiveFailures state
  | None => O
  end.

Definition recordRateLimit (t : HealthScoreTracker) (now : Z) (index : nat)
  : HealthScoreTracker :=
  let current := getScore t now index in
  mkHealthScoreTracker
    (<[index := mkHealthState
                  (Z.max 0 (current + rateLimitPenalty (hs_config t)))
                  now (prior_failures t index + 1)]> (scores t))
    (hs_config t).

Definition recordFailure (t : HealthScoreTracker) (now : Z) (index : nat)
  : HealthScoreTracker :=
  let current := getScore t now index in
  mkHealthScoreTracker
    (<[index := mkHealthState
                  (Z.max 0 (current + failurePenalty (hs_config t)))
                  now (prior_failures t index + 1)]> (scores t))
    (hs_config t).

Definition isUsable (t : HealthScoreTracker) (now : Z) (index : nat) : bool :=
  minUsable (hs_config t) <=? getScore t now index.

Definition reset (t : HealthScoreTracker) (index : nat) : HealthScoreTracker :=
  mkHealthScoreTracker (delete index (scores t)) (hs_config t).

End Health.

(** *** Token bucket *)

Record TokenBucketConfig : Type := mkTokenBucketConfig {
  maxTokens : Q;
  regenerationRatePerMinute : Q;
  initialTokens : Q
}.

Definition DEFAULT_TOKEN_BUCKET_CONFIG : TokenBucketConfig :=
  mkTokenBucketConfig 50 6 50.

Record TokenBucketState : Type := mkTokenBucketState {
  tb_tokens : Q;
  tb_lastUpdated : Z
}.

Record TokenBucketTracker : Type := mkTokenBucketTracker {
  buckets : gmap nat TokenBucketState;
  tb_config : TokenBucketConfig
}.

Definition new_TokenBucketTracker : TokenBucketTracker :=
  mkTokenBucketTracker ∅ DEFAULT_TOKEN_BUCKET_CONFIG.

Module Bucket.

Definition getTokens (t : TokenBucketTracker) (now : Z) (index : nat) : Q :=
  match buckets t !! index with
  | None => initialTokens (tb_config t)
  | Some state =>
      let minutesSince := (inject_Z (now - tb_lastUpdated state) / 60000)%Q in
      let recovered :=
        (minutesSince * regenerationRatePerMinute (tb_config t))%Q in
      Qmin' (maxTokens (tb_config t)) (tb_tokens state + recovered)%Q
  end.

Definition hasTokens (t : TokenBucketTracker) (now : Z) (index : nat)
    (cost : Q) : bool :=
  Qle_bool cost (getTokens t now index).

Definition consume (t : TokenBucketTracker) (now : Z) (index : nat)
    (cost : Q) : TokenBucketTracker * bool :=
  let current := getTokens t now index in
  if Qltb current cost then (t, false)
  else (mkTokenBucketTracker
          (<[index := mkTokenBucketState (current - cost)%Q now]> (buckets t))
          (tb_config t), true).

Definition refund (t : TokenBucketTracker) (now : Z) (index : nat)
    (amount : Q) : TokenBucketTracker :=
  let current := getTokens t now index in
  mkTokenBucketTracker
    (<[index := mkTokenBucketState
                  (Qmin' (maxTokens (tb_config t)) (current + amount)%Q)
                  now]> (buckets t))
    (tb_config t).

Definition getMaxTokens (t : TokenBucketTracker) : Q := maxTokens (tb_config t).

End Bucket.

(** *** Selection *)

Record AccountMetrics : Type := mkAccountMetrics {
  m_index : nat;
  m_lastUsed : Z;
  healthScore : Q;
  isRateLimited : bool;
  m_enabled : bool
}.

Definition STICKINESS_BONUS : Q := 150.
Definition SWITCH_THRESHOLD : Q := 100.

Record Scored : Type := mkScored {
  s_index : nat;
  baseScore : Q;
  score : Q;
  isCurrent : bool
}.

(** [index === currentIndex], with [null] for no current index *)
Definition is_index (index : nat) (currentIndex : option nat) : bool :=
  match currentIndex with
  | Some c => Nat.eqb index c
  | None => false
  end.

(** The filter of [selectHybridAccount] *)
Definition is_candidate (tokenTracker : TokenBucketTracker) (now : Z)
    (minHealthScore : Q) (acc : AccountMetrics) : bool :=
  negb (isRateLimited acc) && m_enabled acc
  && Qle_bool minHealthScore (healthScore acc)
  && Bucket.hasTokens tokenTracker now (m_index acc) 1.

Definition base_score (tokenTracker : TokenBucketTracker) (now : Z)
    (acc : AccountMetrics) : Q :=
  let tokens := Bucket.getTokens tokenTracker now (m_index acc) in
  let healthComponent := (healthScore acc * 2)%Q in
  let tokenComponent :=
    ((tokens / Bucket.getMaxTokens tokenTracker) * 100 * 5)%Q in
  let secondsSinceUsed := (inject_Z (now - m_lastUsed acc) / 1000)%Q in
  let freshnessComponent := (Qmin' secondsSinceUsed 3600 * (1 # 10))%Q in
  Qmax' 0 (healthComponent + tokenComponent + freshnessComponent)%Q.

Definition score_account (tokenTracker : TokenBucketTracker) (now : Z)
    (currentIndex : option nat) (acc : AccountMetrics) : Scored :=
  let base := base_score tokenTracker now acc in
  let stickinessBonus :=
    if is_index (m_index acc) currentIndex then STICKINESS_BONUS else 0%Q in
  mkScored (m_index acc) base (base + stickinessBonus)%Q
    (is_index (m_index acc) currentIndex).

(** [xs.sort((a, b) => b.score - a.score)]: the sort is stable, so an
    element moves in front of those that follow it only past strictly lower
    scores. *)
Fixpoint insert_desc (x : Scored) (l : list Scored) : list Scored :=
  match l with
  | [] => [x]
  | y :: l' =>
      if Qle_bool (score y) (score x) then x :: y :: l'
      else y :: insert_desc x l'
  end.

Definition sort_desc (l : list Scored) : list Scored :=
  List.fold_right insert_desc [] l.

Definition selectHybridAccount (accounts : list AccountMetrics)
    (tokenTracker : TokenBucketTracker) (now : Z)
    (currentIndex : option nat) (minHealthScore : Q) : option nat :=
  let candidates :=
    List.filter (is_candidate tokenTracker now minHealthScore) accounts in
  match candidates with
  | [] => None
  | _ :: _ =>
      let scored :=
        sort_desc
          (List.map (score_account tokenTracker now currentIndex) candidates)
      in
      match scored with
      | [] => None
      | best :: _ =>
          match List.find isCurrent scored with
          | Some currentCandidate =>
              if negb (isCurrent best)
                 && Qltb (baseScore best - baseScore currentCandidate)
                      SWITCH_THRESHOLD
              then Some (s_index currentCandidate)
              else Some (s_index best)
          | None => Some (s_index best)
          end
      end
  end.

Definition available (a : AccountMetrics) : bool :=
  negb (isRateLimited a) && m_enabled a.

(** [xs.findIndex(p)]; [None] is [-1]. *)
Fixpoint findIndex {A : Type} (p : A -> bool) (l : list A) : option nat :=
  match l with
  | [] => None
  | x :: l' => if p x then Some O else option_map S (findIndex p l')
  end.

Definition selectRoundRobin (accounts : list AccountMetrics)
    (currentIndex : option nat) : option nat :=
  let avail := List.filter available accounts in
  match avail with
  | [] => None
  | first :: _ =>
      match currentIndex with
      | None => Some (m_index first)
      | Some c =>
          let nextPos :=
            match findIndex (fun a => Nat.eqb (m_index a) c) avail with
            | Some currentPos => ((currentPos + 1) mod length avail)%nat
            | None => O (* (-1 + 1) % n *)
            end in
          m_index <$> avail !! nextPos
      end
  end.

Definition selectSticky (accounts : list AccountMetrics)
    (currentIndex : option nat) : option nat :=
  let avail := List.filter available accounts in
  match avail with
  | [] => None
  | first :: _ =>
      match List.find (fun a => is_index (m_index a) currentIndex) avail with
      | Some current => Some (m_index current)
      | None => Some (m_index first)
      end
  end.

(** ** Accounts ([types.ts]) *)

Inductive AccountSelectionStrategy : Type :=
| sticky | round_robin | hybrid.

Inductive RateLimitReason : Type :=
| RATE_LIMIT_EXCEEDED | USAGE_LIMIT_REACHED | SERVER_ERROR | UNKNOWN.

Record TokenSuccess : Type := mkTokenSuccess {
  access : string;
  refresh : string;
  expires : Z
}.

Record StoredAccount : Type := mkStoredAccount {
  sa_email : option string;
  sa_refreshToken : string;
  sa_accessToken : option string;
  sa_accessTokenExpires : option Z;
  sa_accountId : option string;
  sa_addedAt : Z;
  sa_lastUsed : Z;
  sa_enabled : bool;
  sa_rateLimitResetTime : option Z;
  sa_rateLimitReason : option RateLimitReason;
  sa_consecutiveFailures : nat
}.

(** [ManagedAccount extends StoredAccount] with the position in the array *)
Record ManagedAccount : Type := mkManagedAccount {
  email : option string;
  refreshToken : string;
  accessToken : option string;
  accessTokenExpires : option Z;
  accountId : option string;
  addedAt : Z;
  lastUsed : Z;
  enabled : bool;
  rateLimitResetTime : option Z;
  rateLimitReason : option RateLimitReason;
  consecutiveFailures : nat;
  index : nat
}.

(** [activeIndex] is a number: whatever finite number the storage file
    holds, or the index of an account. *)
Record AccountStorage : Type := mkAccountStorage {
  st_accounts : list StoredAccount;
  st_activeIndex : Q
}.

(** The number [i] *)
Definition of_index (i : nat) : Q := inject_Z (Z.of_nat i).

(** The array index the number [q] is, if it is a non-negative integer:
    [xs[q]] is [undefined] for any other number, and [a.index === q] is
    false. *)
Definition as_index (q : Q) : option nat :=
  if (Qnum q mod Zpos (Qden q) =? 0) && (0 <=? Qnum q)
  then Some (Z.to_nat (Qnum q / Zpos (Qden q)))
  else None.

(** ** Persistence ([accounts/storage.ts])

    The storage file holds the JSON text of a storage document, written by
    [JSON.stringify] and read back by [JSON.parse]; the disk is modelled as
    that document.  An entry is [None] when it is not an object with a
    string [refreshToken]; [fd_accounts] is [None] when [accounts] is not an
    array, [fd_activeIndex] when [activeIndex] is not a finite number. *)

Record FileDocument : Type := mkFileDocument {
  fd_accounts : option (list (option StoredAccount));
  fd_activeIndex : option Q
}.

(** [None]: no file, or a file that does not parse. *)
Definition disk : Type := option FileDocument.

Definition createEmptyStorage : AccountStorage := mkAccountStorage [] 0%Q.

(** [tokenMap.set(key, acc)] on a JavaScript [Map]: a present key keeps its
    place, a new key goes last. *)
Fixpoint tokenMap_set (key : string) (acc : StoredAccount)
    (m : list (string * StoredAccount)) : list (string * StoredAccount) :=
  match m with
  | [] => [(key, acc)]
  | (k, v) :: m' =>
      if String.eqb k key then (k, acc) :: m'
      else (k, v) :: tokenMap_set key acc m'
  end.

Fixpoint tokenMap_get (key : string) (m : list (string * StoredAccount))
  : option StoredAccount :=
  match m with
  | [] => None
  | (k, v) :: m' => if String.eqb k key then Some v else tokenMap_get key m'
  end.

Definition deduplicateAccounts (accounts : list StoredAccount)
  : list StoredAccount :=
  let tokenMap :=
    List.fold_left
      (fun tokenMap acc =>
         match tokenMap_get (sa_refreshToken acc) tokenMap with
         | Some existing =>
             if sa_lastUsed existing <? sa_lastUsed acc
             then tokenMap_set (sa_refreshToken acc) acc tokenMap
             else tokenMap
         | None => tokenMap_set (sa_refreshToken acc) acc tokenMap
         end)
      accounts [] in
  List.map snd tokenMap.

Definition loadAccounts (d : disk) : AccountStorage :=
  match d with
  | None => createEmptyStorage
  | Some data =>
      match fd_accounts data with
      | None => createEmptyStorage
      | Some entries =>
          let validAccounts :=
            omap (fun e =>
                    match e with
                    | Some a =>
                        if (0 <? String.length (sa_refreshToken a))%nat
                        then Some a else None
                    | None => None
                    end) entries in
          let deduped := deduplicateAccounts validAccounts in
          let activeIndex0 := default 0%Q (fd_activeIndex data) in
          let activeIndex :=
            if (0 <? length deduped)%nat
            then Qmin' (Qmax' activeIndex0 0)
                   (inject_Z (Z.of_nat (length deduped) - 1))
            else 0%Q in
          mkAccountStorage deduped activeIndex
      end
  end.

(** The document [JSON.stringify(storage, null, 2)] denotes. *)
Definition saveAccounts (storage : AccountStorage) : disk :=
  Some (mkFileDocument (Some (List.map Some (st_accounts storage)))
          (Some (st_activeIndex storage))).

(** ** Account manager ([accounts/manager.ts]) *)

Definition BACKOFF_RATE_LIMIT_MS : Z := 30000.
Definition BACKOFF_QUOTA_EXHAUSTED_MS : list Z := [60000; 300000; 1800000].
Definition BACKOFF_SERVER_ERROR_MS : Z := 20000.
Definition BACKOFF_UNKNOWN_MS : Z := 60000.

Record AccountManager : Type := mkAccountManager {
  accounts : list ManagedAccount;
  activeIndex : option Q;
  strategy : AccountSelectionStrategy;
  healthTracker : HealthScoreTracker;
  tokenTracker : TokenBucketTracker;
  savePending : bool;
  loaded : bool
}.

Definition new_AccountManager (strategy : AccountSelectionStrategy)
  : AccountManager :=
  mkAccountManager [] None strategy new_HealthScoreTracker
    new_TokenBucketTracker false false.

(** The manager together with the storage file *)
Definition world : Type := AccountManager * disk.

Definition with_accounts (accs : list ManagedAccount) (m : AccountManager)
  : AccountManager :=
  mkAccountManager accs (activeIndex m) (strategy m) (healthTracker m)
    (tokenTracker m) (savePending m) (loaded m).

Definition with_activeIndex (i : option Q) (m : AccountManager)
  : AccountManager :=
  mkAccountManager (accounts m) i (strategy m) (healthTracker m)
    (tokenTracker m) (savePending m) (loaded m).

Definition with_healthTracker (t : HealthScoreTracker) (m : AccountManager)
  : AccountManager :=
  mkAccountManager (accounts m) (activeIndex m) (strategy m) t
    (tokenTracker m) (savePending m) (loaded m).

Definition with_tokenTracker (t : TokenBucketTracker) (m : AccountManager)
  : AccountManager :=
  mkAccountManager (accounts m) (activeIndex m) (strategy m) (healthTracker m)
    t (savePending m) (loaded m).

(** [scheduleSave()]: arms the one pending debounced save. *)
Definition scheduleSave (m : AccountManager) : AccountManager :=
  mkAccountManager (accounts m) (activeIndex m) (strategy m) (healthTracker m)
    (tokenTracker m) true (loaded m).

Definition to_managed (i : nat) (a : StoredAccount) : ManagedAccount :=
  mkManagedAccount (sa_email a) (sa_refreshToken a) (sa_accessToken a)
    (sa_accessTokenExpires a) (sa_accountId a) (sa_addedAt a) (sa_lastUsed a)
    (sa_enabled a) (sa_rateLimitResetTime a) (sa_rateLimitReason a)
    (sa_consecutiveFailures a) i.

Definition to_stored (a : ManagedAccount) : StoredAccount :=
  mkStoredAccount (email a) (refreshToken a) (accessToken a)
    (accessTokenExpires a) (accountId a) (addedAt a) (lastUsed a) (enabled a)
    (rateLimitResetTime a) (rateLimitReason a) (consecutiveFailures a).

Definition load (w : world) : world :=
  let '(m, d) := w in
  if loaded m then w
  else
    let storage := loadAccounts d in
    (mkAccountManager
       (imap to_managed (st_accounts storage))
       (if (0 <? length (st_accounts storage))%nat
        then Some (st_activeIndex storage) else None)
       (strategy m) (healthTracker m) (tokenTracker m) (savePending m) true,
     d).

Definition saveToDisk (w : world) : world :=
  let '(m, _) := w in
  (m, saveAccounts
        (mkAccountStorage (List.map to_stored (accounts m))
           (default 0%Q (activeIndex m)))).

(** The save armed by [scheduleSave] fires. *)
Definition flush (w : world) : world :=
  let '(m, d) := w in
  if savePending m
  then saveToDisk
         (mkAccountManager (accounts m) (activeIndex m) (strategy m)
            (healthTracker m) (tokenTracker m) false (loaded m), d)
  else w.

Definition JWT_CLAIM_PATH : string := "https://api.openai.com/auth".

(** [v?.[k]] *)
Definition opt_prop (v : option json) (k : string) : option json :=
  match v with
  | Some x => jprop x k
  | None => None
  end.

Definition as_string (v : option json) : option string :=
  match v with
  | Some (JStr s) => Some s
  | _ => None
  end.

Section Manager.

(** [Buffer.from(payload, "base64").toString("utf-8")], from the runtime *)
Variable base64_decode : string -> string.

(** [JSON.parse(s)], from the runtime; [None] is the [SyntaxError] it
    throws. *)
Variable JSON_parse : string -> option json.

(** [decodeJWT(token)]; [None] is [null]. *)
Definition decodeJWT (token : string) : option json :=
  match Js.split token "." with
  | [_; payload; _] => JSON_parse (base64_decode payload)
  | _ => None
  end.

(** The duplicate rule of [addAccount] *)
Definition same_account (tokens : TokenSuccess) (accountId' : option string)
    (a : ManagedAccount) : bool :=
  String.eqb (refreshToken a) (refresh tokens)
  || match accountId' with
     | Some id => Js.truthy id && bool_decide (accountId a = Some id)
     | None => false
     end.

Definition update_existing (tokens : TokenSuccess)
    (accountId' email' : option string) (existing : ManagedAccount)
  : ManagedAccount :=
  mkManagedAccount
    (match email' with
     | Some e => if Js.truthy e then Some e else email existing
     | None => email existing
     end)
    (refresh tokens) (Some (access tokens)) (Some (expires tokens)) accountId'
    (addedAt existing) (lastUsed existing) true None None O (index existing).

(** [decoded?.[JWT_CLAIM_PATH]?.chatgpt_account_id] *)
Definition token_accountId (tokens : TokenSuccess) : option string :=
  as_string (opt_prop (opt_prop (decodeJWT (access tokens)) JWT_CLAIM_PATH)
               "chatgpt_account_id").

(** [profileClaim?.email ?? decoded?.email] *)
Definition token_email (tokens : TokenSuccess) : option string :=
  let decoded := decodeJWT (access tokens) in
  match as_string (opt_prop (opt_prop decoded "https://api.openai.com/profile")
                     "email") with
  | Some e => Some e
  | None => as_string (opt_prop decoded "email")
  end.

Definition addAccount (w : world) (now : Z) (tokens : TokenSuccess)
  : world * nat :=
  let '(m, d) := load w in
  let accountId' := token_accountId tokens in
  let email' := token_email tokens in
  match findIndex (same_account tokens accountId') (accounts m) with
  | Some existingIdx =>
      match accounts m !! existingIdx with
      | Some existing =>
          let m1 :=
            with_accounts
              (<[existingIdx := update_existing tokens accountId' email'
                                  existing]> (accounts m)) m in
          let m2 :=
            with_healthTracker (Health.reset (healthTracker m1) existingIdx)
              m1 in
          (saveToDisk (m2, d), existingIdx)
      | None => ((m, d), existingIdx)
      end
  | None =>
      let newAccount :=
        mkManagedAccount email' (refresh tokens) (Some (access tokens))
          (Some (expires tokens)) accountId' now 0 true None None O
          (length (accounts m)) in
      let m1 := with_accounts (accounts m ++ [newAccount]) m in
      let m2 :=
        if Nat.eqb (length (accounts m1)) 1
        then with_activeIndex (Some 0%Q) m1 else m1 in
      (saveToDisk (m2, d), index newAccount)
  end.

End Manager.

Definition clear_rate_limit (a : ManagedAccount) : ManagedAccount :=
  mkManagedAccount (email a) (refreshToken a) (accessToken a)
    (accessTokenExpires a) (accountId a) (addedAt a) (lastUsed a) (enabled a)
    None None (consecutiveFailures a) (index a).

(** [isRateLimited(account)]: the answer, and the account after the call
    (an expired limit is cleared in place). *)
Definition Manager_isRateLimited (now : Z) (account : ManagedAccount)
  : bool * ManagedAccount :=
  match rateLimitResetTime account with
  | None => (false, account)
  | Some t =>
      if t =? 0 then (false, account)
      else if t <=? now then (false, clear_rate_limit account)
      else (true, account)
  end.

Definition calculateBackoff (reason : RateLimitReason) (failures : nat) : Z :=
  match reason with
  | USAGE_LIMIT_REACHED =>
      let idx := Nat.min failures (length BACKOFF_QUOTA_EXHAUSTED_MS - 1) in
      default BACKOFF_UNKNOWN_MS (BACKOFF_QUOTA_EXHAUSTED_MS !! idx)
  | RATE_LIMIT_EXCEEDED => BACKOFF_RATE_LIMIT_MS
  | SERVER_ERROR => BACKOFF_SERVER_ERROR_MS
  | UNKNOWN => BACKOFF_UNKNOWN_MS
  end.

Definition recordSuccess (m : AccountManager) (now : Z) (idx : nat)
  : AccountManager :=
  match accounts m !! idx with
  | None => m
  | Some a =>
      let a' :=
        mkManagedAccount (email a) (refreshToken a) (accessToken a)
          (accessTokenExpires a) (accountId a) (addedAt a) now (enabled a)
          (rateLimitResetTime a) (rateLimitReason a) O (index a) in
      scheduleSave
        (mkAccountManager (<[idx := a']> (accounts m)) (activeIndex m)
           (strategy m)
           (Health.recordSuccess (healthTracker m) now idx)
           (Bucket.consume (tokenTracker m) now idx 1).1
           (savePending m) (loaded m))
  end.

Definition markRateLimited (m : AccountManager) (now : Z) (idx : nat)
    (reason : RateLimitReason) : AccountManager :=
  match accounts m !! idx with
  | None => m
  | Some a =>
      let backoffMs := calculateBackoff reason (consecutiveFailures a) in
      let a' :=
        mkManagedAccount (email a) (refreshToken a) (accessToken a)
          (accessTokenExpires a) (accountId a) (addedAt a) (lastUsed a)
          (enabled a) (Some (now + backoffMs)) (Some reason)
          (consecutiveFailures a + 1) (index a) in
      scheduleSave
        (mkAccountManager (<[idx := a']> (accounts m)) (activeIndex m)
           (strategy m)
           (Health.recordRateLimit (healthTracker m) now idx)
           (tokenTracker m) (savePending m) (loaded m))
  end.

Definition recordFailure (m : AccountManager) (now : Z) (idx : nat)
  : AccountManager :=
  match accounts m !! idx with
  | None => m
  | Some a =>
      let failures := (consecutiveFailures a + 1)%nat in
      let a' :=
        mkManagedAccount (email a) (refreshToken a) (accessToken a)
          (accessTokenExpires a) (accountId a) (addedAt a) (lastUsed a)
          (if (5 <=? failures)%nat then false else enabled a)
          (rateLimitResetTime a) (rateLimitReason a) failures (index a) in
      scheduleSave
        (mkAccountManager (<[idx := a']> (accounts m)) (activeIndex m)
           (strategy m)
           (Health.recordFailure (healthTracker m) now idx)
           (tokenTracker m) (savePending m) (loaded m))
  end.

(** [curr.rateLimitResetTime ?? Infinity] compared with [<]; [None] is
    [Infinity]. *)
Definition reset_lt (curr prev : option Z) : bool :=
  match curr, prev with
  | Some c, Some p => c <? p
  | Some _, None => true
  | None, _ => false
  end.

(** [enabledAccounts.reduce((prev, curr) => ...)] *)
Definition soonest_of (first : ManagedAccount) (rest : list ManagedAccount)
  : ManagedAccount :=
  List.fold_left
    (fun prev curr =>
       if reset_lt (rateLimitResetTime curr) (rateLimitResetTime prev)
       then curr else prev)
    rest first.

(** The metrics snapshot of [selectAccount]; taking it clears the expired
    rate limits. *)
Definition snapshot (m : AccountManager) (now : Z)
  : list AccountMetrics * list ManagedAccount :=
  let checked := List.map (Manager_isRateLimited now) (accounts m) in
  (List.map
     (fun ba : bool * ManagedAccount =>
        mkAccountMetrics (index ba.2) (lastUsed ba.2)
          (inject_Z (Health.getScore (healthTracker m) now (index ba.2)))
          ba.1 (enabled ba.2))
     checked,
   List.map snd checked).

Definition DEFAULT_MIN_HEALTH_SCORE : Q := 50.

(** [this.activeIndex] as the current index of the selectors.  They only
    compare it with the indices of the accounts ([a.index === currentIndex]),
    so a number that is no index is handed over as [null], for which each of
    them does the same: no account is the current one. *)
Definition currentIndex (m : AccountManager) : option nat :=
  activeIndex m ≫= as_index.

(** The strategy dispatch of [selectAccount] *)
Definition run_selector (m : AccountManager) (now : Z)
    (metrics : list AccountMetrics) : option nat :=
  let effectiveStrategy :=
    if Nat.eqb (length (accounts m)) 1 then sticky else strategy m in
  match effectiveStrategy with
  | round_robin => selectRoundRobin metrics (currentIndex m)
  | sticky => selectSticky metrics (currentIndex m)
  | hybrid =>
      selectHybridAccount metrics (tokenTracker m) now (currentIndex m)
        DEFAULT_MIN_HEALTH_SCORE
  end.

Definition selectAccount (m : AccountManager) (now : Z)
  : AccountManager * option ManagedAccount :=
  match accounts m with
  | [] => (m, None)
  | _ :: _ =>
      let '(metrics, accs) := snapshot m now in
      let m1 := with_accounts accs m in
      let selected :=
        match run_selector m now metrics with
        | Some i => Some i
        | None =>
            match List.filter enabled accs with
            | [] => None
            | first :: rest => Some (index (soonest_of first rest))
            end
        end in
      match selected with
      | None => (m1, None)
      | Some selectedIndex =>
          (with_activeIndex (Some (of_index selectedIndex)) m1,
           accs !! selectedIndex)
      end
  end.

(** *** Reading aids for the statements about selection *)

(** Reset times ordered with an absent time as infinity *)
Definition inf_le (x y : option Z) : Prop :=
  match x, y with
  | _, None => True
  | None, Some _ => False
  | Some a, Some b => a <= b
  end.

(** Every account sits at the position its [index] names. *)
Definition well_indexed (accs : list ManagedAccount) : Prop :=
  forall (i : nat) a, accs !! i = Some a -> index a = i.

Definition ex_metrics (i : nat) (health : Q) : AccountMetrics :=
  mkAccountMetrics i 0 health false true.

Definition ex_account (i : nat) (token : string) (reset : option Z)
  : ManagedAccount :=
  mkManagedAccount None token None None None 0 0 true reset
    (if reset is Some _ then Some RATE_LIMIT_EXCEEDED else None) O i.

Definition ex_manager (accs : list ManagedAccount) : AccountManager :=
  mkAccountManager accs (Some 0%Q) hybrid new_HealthScoreTracker
    new_TokenBucketTracker false true.

(** *** Operations of the manager, as the interceptor and the OAuth flow
    issue them *)

Inductive operation : Type :=
| AddAccount (now : Z) (tokens : TokenSuccess)
| RecordSuccess (now : Z) (idx : nat)
| MarkRateLimited (now : Z) (idx : nat) (reason : RateLimitReason)
| RecordFailure (now : Z) (idx : nat)
| SaveTimerFires.

Section Operations.

Variable base64_decode : string -> string.
Variable JSON_parse : string -> option json.

Definition apply_operation (w : world) (o : operation) : world :=
  match o with
  | AddAccount now tokens =>
      (addAccount base64_decode JSON_parse w now tokens).1
  | RecordSuccess now idx => (recordSuccess w.1 now idx, w.2)
  | MarkRateLimited now idx reason => (markRateLimited w.1 now idx reason, w.2)
  | RecordFailure now idx => (recordFailure w.1 now idx, w.2)
  | SaveTimerFires => flush w
  end.

Definition run_operations (w : world) (ops : list operation) : world :=
  List.fold_left apply_operation ops w.

(** The duplicate rule, in words: equal refresh tokens, or the account id
    of the new tokens is present and the account has the same one. *)
Definition duplicate_of (tokens : TokenSuccess) (a : ManagedAccount) : Prop :=
  refreshToken a = refresh tokens
  \/ exists id, token_accountId base64_decode JSON_parse tokens = Some id
                /\ id <> EmptyString /\ accountId a = Some id.

End Operations.

(** The active index is a number between [0] and the last position of the
    account list, or is [null] on an empty list; nothing is in memory before
    the first load. *)
Definition active_in_range (m : AccountManager) : Prop :=
  match activeIndex m with
  | None => accounts m = []
  | Some q =>
      (q = 0 \/ 0 < q)%Q
      /\ (q <= inject_Z (Z.of_nat (length (accounts m)) - 1))%Q
  end.

Definition manager_ok (m : AccountManager) : Prop :=
  active_in_range m /\ (loaded m = false -> accounts m = []).

(** ** Responses ([fetch-helpers.ts], [response-handler.ts]) *)

(** [Headers]: names are kept in lower case, one value per name. *)
Definition Headers : Type := list (string * string).

Fixpoint headers_has (name : string) (h : Headers) : bool :=
  match h with
  | [] => false
  | (n, _) :: h' => String.eqb n name || headers_has name h'
  end.

Fixpoint headers_set (name value : string) (h : Headers) : Headers :=
  match h with
  | [] => [(name, value)]
  | (n, v) :: h' =>
      if String.eqb n name then (name, value) :: h'
      else (n, v) :: headers_set name value h'
  end.

(** A response: status line, headers, and the body as the chunks its stream
    delivers ([None] for a [null] body). *)
Record Response : Type := mkResponse {
  status : Z;
  statusText : string;
  headers : Headers;
  body : option (list string)
}.

Definition HTTP_STATUS_NOT_FOUND : Z := 404.
Definition HTTP_STATUS_TOO_MANY_REQUESTS : Z := 429.
Definition HTTP_STATUS_SERVICE_UNAVAILABLE : Z := 503.

Fixpoint concat_chunks (chunks : list string) : string :=
  match chunks with
  | [] => EmptyString
  | c :: cs => c +:+ concat_chunks cs
  end.

(** [new Response(text, { status, statusText, headers })] for a string
    [text]: the constructor names the content type of a text body when the
    headers it is given name none.  (A status outside 200 to 599, which the
    constructor refuses, is not modelled: the handlers pass on the status of
    the response they were given.) *)
Definition Response_of_text (text : string) (status : Z) (statusText : string)
    (headers : Headers) : Response :=
  mkResponse status statusText
    (if headers_has "content-type" headers then headers
     else headers ++ [("content-type", "text/plain;charset=UTF-8")])
    (Some [text]).

Section Responses.

(** [JSON.parse] and [JSON.stringify], from the runtime *)
Variable JSON_parse : string -> option json.
Variable JSON_stringify : json -> string.

(** The text of a body, from the runtime: [body_text] is what
    [await response.text()] resolves to for a body of these chunks, and
    [decode_stream] what a [TextDecoder] hands out for them when they are
    decoded one after the other with [{ stream: true }]. *)
Variable body_text : list string -> string.
Variable decode_stream : list string -> string.

(** [await response.clone().text()] (a read that fails, on which
    [mapUsageLimit404] gives up, is not modelled) *)
Definition response_text (r : Response) : string :=
  match body r with
  | Some chunks => body_text chunks
  | None => EmptyString
  end.

(** [a ?? b] *)
Definition nullish_or (a b : option json) : option json :=
  match a with
  | None | Some JNull => b
  | Some v => Some v
  end.

(** [v.toString()] on a value read from JSON; [None] is the [TypeError] of
    an object whose own [toString] property is not a function. *)
Fixpoint toString_call (v : json) : option string :=
  match v with
  | JObj o =>
      if List.existsb (fun kv : string * json => String.eqb kv.1 "toString") o
      then None else Some "[object Object]"
  | JArr xs =>
      (fix go (xs : list json) : option string :=
         match xs with
         | [] => Some EmptyString
         | x :: xs' =>
             match (match x with
                    | JNull => Some EmptyString
                    | _ => toString_call x
                    end), go xs' with
             | Some s, Some t =>
                 Some (match xs' with [] => s | _ => s +:+ "," +:+ t end)
             | _, _ => None
             end
         end) xs
  | _ => Some (jtoString v)
  end.

(** The [code] that [mapUsageLimit404] extracts inside its [try]: empty when
    the body does not parse or the conversion throws. *)
Definition error_code (text : string) : string :=
  match JSON_parse text with
  | None => EmptyString
  | Some parsed =>
      let error := jprop parsed "error" in
      match nullish_or
              (nullish_or (opt_prop error "code") (opt_prop error "type"))
              (Some (JStr EmptyString)) with
      | Some v => default EmptyString (toString_call v)
      | None => EmptyString
      end
  end.

(** [/a|b|c/i.test(s)] for literal alternatives *)
Definition regex_alternatives_test (alternatives : list string) (s : string)
  : bool :=
  List.existsb (fun a => Js.includes (Js.toLowerCase s) (Js.toLowerCase a))
    alternatives.

Definition USAGE_LIMIT_404_PATTERNS : list string :=
  ["usage_limit_reached"; "usage_not_included"; "rate_limit_exceeded";
   "usage limit"].

Definition mapUsageLimit404 (response : Response) : option Response :=
  if negb (status response =? HTTP_STATUS_NOT_FOUND) then None else
  let text := response_text response in
  if negb (Js.truthy text) then None else
  let code := error_code text in
  let haystack := Js.toLowerCase (code +:+ " " +:+ text) in
  if negb (regex_alternatives_test USAGE_LIMIT_404_PATTERNS haystack)
  then None
  else Some (mkResponse HTTP_STATUS_TOO_MANY_REQUESTS "Too Many Requests"
               (headers response) (body response)).

Definition handleErrorResponse (response : Response) : Response :=
  default response (mapUsageLimit404 response).

(** The body test of the classifier for [USAGE_LIMIT_REACHED] *)
Definition usage_limit_body (bodyText : string) : bool :=
  let lower := Js.toLowerCase bodyText in
  Js.includes lower "usage_limit_reached"
  || Js.includes lower "usage_not_included"
  || Js.includes lower "usage limit"
  || Js.includes lower "exhausted"
  || Js.includes lower "quota".

Definition classifyRateLimitReason (status : Z) (bodyText : string)
  : RateLimitReason :=
  if (status =? HTTP_STATUS_SERVICE_UNAVAILABLE) || (status =? 529)
  then SERVER_ERROR
  else
    let lower := Js.toLowerCase bodyText in
    if usage_limit_body bodyText then USAGE_LIMIT_REACHED
    else if Js.includes lower "rate_limit" || Js.includes lower "rate limit"
            || Js.includes lower "too many requests"
            || Js.includes lower "per minute"
    then RATE_LIMIT_EXCEEDED
    else UNKNOWN.

(** *** SSE to JSON *)

(** The event a line carries: the JSON after ["data: "], if it parses. *)
Definition sse_data (line : string) : option json :=
  if Js.startsWith line "data: " then JSON_parse (Js.drop 6 line) else None.

Definition is_completion (data : json) : bool :=
  match jprop data "type" with
  | Some (JStr t) =>
      String.eqb t "response.done" || String.eqb t "response.completed"
  | _ => false
  end.

(** The loop of [parseSseStream]: it returns at the first completion event,
    with whatever its [response] property holds ([None]: [undefined]). *)
Fixpoint first_completion (lines : list string) : option json :=
  match lines with
  | [] => None
  | line :: rest =>
      match sse_data line with
      | Some data =>
          if is_completion data then jprop data "response"
          else first_completion rest
      | None => first_completion rest
      end
  end.

Definition parseSseStream (sseText : string) : option json :=
  first_completion (Js.split sseText Js.LF).

(** [None]: the [Error] thrown for a response without body. *)
Definition convertSseToJson (response : Response) (headers' : Headers)
  : option Response :=
  match body response with
  | None => None
  | Some chunks =>
      let fullText := decode_stream chunks in
      let raw :=
        Response_of_text fullText (status response) (statusText response)
          headers' in
      match parseSseStream fullText with
      | Some finalResponse =>
          if jtruthy finalResponse
          then Some (Response_of_text (JSON_stringify finalResponse)
                       (status response) (statusText response)
                       (headers_set "content-type"
                          "application/json; charset=utf-8" headers'))
          else Some raw
      | None => Some raw
      end
  end.



(** A line carries a completion event. *)
Definition completion_line (line : string) : Prop :=
  exists data, sse_data line = Some data /\ is_completion data = true.

End Responses.

Definition ex_sse (lines : list string) : Response :=
  mkResponse 200 "OK" [("content-type", "text/event-stream")]
    (Some [join Js.LF (List.map dq lines)]).

(** * Further definitions *)

(** *** The clock along a run of operations *)

(** The reading of [Date.now()] an operation is issued at *)
Definition operation_time (o : operation) : option Z :=
  match o with
  | AddAccount now _ => Some now
  | RecordSuccess now _ => Some now
  | MarkRateLimited now _ _ => Some now
  | RecordFailure now _ => Some now
  | SaveTimerFires => None
  end.

(** The clock never runs backwards: every operation is issued at or after
    [t0] and at or after the operations before it. *)
Fixpoint chronological (t0 : Z) (ops : list operation) : bool :=
  match ops with
  | [] => true
  | o :: ops' =>
      match operation_time o with
      | Some t => (t0 <=? t) && chronological t ops'
      | None => chronological t0 ops'
      end
  end.

(** The time of the last operation of the run, [t0] when there is none *)
Fixpoint last_time (t0 : Z) (ops : list operation) : Z :=
  match ops with
  | [] => t0
  | o :: ops' => last_time (default t0 (operation_time o)) ops'
  end.

(** Every stored health score lies in [0, 100] and was written at or before
    [T]; the configuration is the default one. *)
Definition health_inv (t : HealthScoreTracker) (T : Z) : Prop :=
  hs_config t = DEFAULT_HEALTH_CONFIG
  /\ forall (i : nat) s, scores t !! i = Some s ->
       0 <= hs_score s <= 100 /\ hs_lastUpdated s <= T.

Definition bucket_inv (t : TokenBucketTracker) (T : Z) : Prop :=
  tb_config t = DEFAULT_TOKEN_BUCKET_CONFIG
  /\ forall (i : nat) s, buckets t !! i = Some s ->
       (0 <= tb_tokens s <= 50)%Q /\ tb_lastUpdated s <= T.

(** [getActiveAccount()] *)
Definition getActiveAccount (m : AccountManager) : option ManagedAccount :=
  match activeIndex m, accounts m with
  | None, _ => None
  | Some _, [] => None
  | Some q, _ :: _ => as_index q ≫= (accounts m !!.)
  end.

(** The active index is the index of an account. *)
Definition active_at_account (m : AccountManager) : Prop :=
  exists i : nat, currentIndex m = Some i /\ (i < length (accounts m))%nat.

(** The storage file holds no active index that is a fraction. *)
Definition integral_index (d : disk) : Prop :=
  forall data q, d = Some data -> fd_activeIndex data = Some q ->
    exists z : Z, (q == inject_Z z)%Q.

(** The active index in memory is a non-negative integer. *)
Definition active_integral (m : AccountManager) : Prop :=
  forall q, activeIndex m = Some q -> is_Some (as_index q).

(** The account can be selected at [now] under the strategy of the manager:
    it is enabled and not rate-limited and, for the hybrid strategy, its
    health score reaches the minimum of 50 and its bucket holds a token. *)
Definition selectable (m : AccountManager) (now : Z) (a : ManagedAccount)
  : Prop :=
  enabled a = true
  /\ (Manager_isRateLimited now a).1 = false
  /\ (strategy m = hybrid ->
      50 <= Health.getScore (healthTracker m) now (index a)
      /\ (1 <= Bucket.getTokens (tokenTracker m) now (index a))%Q).

(** A failure report for the account at [idx]: a rate limit or another
    failure *)
Definition reports_failure (idx : nat) (o : operation) : bool :=
  match o with
  | MarkRateLimited _ i _ => Nat.eqb i idx
  | RecordFailure _ i => Nat.eqb i idx
  | _ => false
  end.


(** *** Reading aids for the statements about the transformer *)

(** The item carries a truthy [id]. *)
Definition has_id (item : InputItem) : bool :=
  match jget "id" item with
  | Some i => jtruthy i
  | None => false
  end.

(** Neither an [item_reference] nor an item with an [id] *)
Definition stateless_item (item : InputItem) : Prop :=
  item_type item "item_reference" = false /\ has_id item = false.

(** [item.role === r] *)
Definition item_role (item : InputItem) (r : string) : bool :=
  match jget "role" item with
  | Some (JStr r') => String.eqb r' r
  | _ => false
  end.

(** The model traits [getReasoningConfig] computes from the lower-cased
    model name [n] *)
Definition isCodexMini (n : string) : bool :=
  Js.includes n "codex-mini" || Js.includes n "codex mini"
  || Js.includes n "codex_mini" || Js.includes n "codex-mini-latest".

Definition supportsXhigh (n : string) : bool :=
  let isGpt52Codex :=
    Js.includes n "gpt-5.2-codex" || Js.includes n "gpt 5.2 codex" in
  let isGpt52General :=
    (Js.includes n "gpt-5.2" || Js.includes n "gpt 5.2") && negb isGpt52Codex in
  let isCodexMax := Js.includes n "codex-max" || Js.includes n "codex max" in
  isGpt52General || isGpt52Codex || isCodexMax.

Definition supportsNone (n : string) : bool :=
  let isGpt52Codex :=
    Js.includes n "gpt-5.2-codex" || Js.includes n "gpt 5.2 codex" in
  let isGpt52General :=
    (Js.includes n "gpt-5.2" || Js.includes n "gpt 5.2") && negb isGpt52Codex in
  let isCodexMax := Js.includes n "codex-max" || Js.includes n "codex max" in
  let isCodex := Js.includes n "codex" && negb (isCodexMini n) in
  let isGpt51General :=
    (Js.includes n "gpt-5.1" || Js.includes n "gpt 5.1")
    && negb isCodex && negb isCodexMax && negb (isCodexMini n) in
  isGpt52General || isGpt51General.

(** The list [resolveInclude] starts from: the body's, else the provider
    options', else the model configuration's, else the default one *)
Definition include_base (modelConfig : ConfigOptions) (body : RequestBody)
  : list string :=
  match include body with
  | Some b => b
  | None =>
      match providerOptions_openai body ≫= cfg_include with
      | Some b => b
      | None => default ["reasoning.encrypted_content"] (cfg_include modelConfig)
      end
  end.

(** ** Prompt selection ([prompts/codex.ts]) *)

Inductive ModelFamily : Type :=
| family_gpt_5_2_codex | family_codex_max | family_codex | family_gpt_5_2
| family_gpt_5_1.

Definition PROMPT_FILES (f : ModelFamily) : string :=
  match f with
  | family_gpt_5_2_codex => "gpt-5.2-codex_prompt.md"
  | family_codex_max => "gpt-5.1-codex-max_prompt.md"
  | family_codex => "gpt_5_codex_prompt.md"
  | family_gpt_5_2 => "gpt_5_2_prompt.md"
  | family_gpt_5_1 => "gpt_5_1_prompt.md"
  end.

Definition getModelFamily (normalizedModel : string) : ModelFamily :=
  if Js.includes normalizedModel "gpt-5.2-codex"
     || Js.includes normalizedModel "gpt 5.2 codex"
  then family_gpt_5_2_codex
  else if Js.includes normalizedModel "codex-max" then family_codex_max
  else if Js.includes normalizedModel "codex"
          || Js.startsWith normalizedModel "codex-"
  then family_codex
  else if Js.includes normalizedModel "gpt-5.2" then family_gpt_5_2
  else family_gpt_5_1.

(** ** Request headers ([fetch-helpers.ts], [constants.ts]) *)

Definition OPENAI_HEADERS_BETA : string := "OpenAI-Beta".
Definition OPENAI_HEADERS_ACCOUNT_ID : string := "chatgpt-account-id".
Definition OPENAI_HEADERS_ORIGINATOR : string := "originator".
Definition OPENAI_HEADERS_SESSION_ID : string := "session_id".
Definition OPENAI_HEADERS_CONVERSATION_ID : string := "conversation_id".
Definition OPENAI_HEADER_VALUES_BETA_RESPONSES : string :=
  "responses=experimental".
Definition OPENAI_HEADER_VALUES_ORIGINATOR_CODEX : string := "codex_cli_rs".

(** [h.get(name)] for a lower-case [name]; [None] is [null]. *)
Fixpoint headers_get (name : string) (h : Headers) : option string :=
  match h with
  | [] => None
  | (n, v) :: h' => if String.eqb n name then Some v else headers_get name h'
  end.

(** [h.delete(name)] for a lower-case [name] *)
Fixpoint headers_delete (name : string) (h : Headers) : Headers :=
  match h with
  | [] => []
  | (n, v) :: h' =>
      if String.eqb n name then headers_delete name h'
      else (n, v) :: headers_delete name h'
  end.

Section CodexHeaders.

(** What the runtime makes of a header value: [None] when [Headers.set]
    rejects it with a [TypeError], otherwise the value it stores (the given
    one without the white space around it). *)
Variable header_value : string -> option string.

(** [h.set(name, value)] and [h.delete(name)]: header names are matched
    without regard to letter case. *)
Definition Headers_set (name value : string) (h : Headers) : option Headers :=
  match header_value value with
  | Some v => Some (headers_set (Js.toLowerCase name) v h)
  | None => None
  end.

Definition Headers_delete (name : string) (h : Headers) : Headers :=
  headers_delete (Js.toLowerCase name) h.

(** [createCodexHeaders(init, accountId, accessToken, opts)], where
    [initHeaders] is [new Headers(init?.headers ?? {})] and [promptCacheKey]
    is [opts?.promptCacheKey]; [None] is the [TypeError] of a rejected
    value. *)
Definition createCodexHeaders (initHeaders : Headers)
    (accountId accessToken : string) (promptCacheKey : option string)
  : option Headers :=
  let headers := Headers_delete "x-api-key" initHeaders in
  match Headers_set "Authorization" ("Bearer " +:+ accessToken) headers with
  | None => None
  | Some headers =>
  match Headers_set OPENAI_HEADERS_ACCOUNT_ID accountId headers with
  | None => None
  | Some headers =>
  match Headers_set OPENAI_HEADERS_BETA OPENAI_HEADER_VALUES_BETA_RESPONSES
          headers with
  | None => None
  | Some headers =>
  match Headers_set OPENAI_HEADERS_ORIGINATOR
          OPENAI_HEADER_VALUES_ORIGINATOR_CODEX headers with
  | None => None
  | Some headers =>
  let with_cache_key :=
    match promptCacheKey with
    | Some cacheKey =>
        if Js.truthy cacheKey then
          match Headers_set OPENAI_HEADERS_CONVERSATION_ID cacheKey headers with
          | None => None
          | Some headers =>
              Headers_set OPENAI_HEADERS_SESSION_ID cacheKey headers
          end
        else
          Some (Headers_delete OPENAI_HEADERS_SESSION_ID
                  (Headers_delete OPENAI_HEADERS_CONVERSATION_ID headers))
    | None =>
        Some (Headers_delete OPENAI_HEADERS_SESSION_ID
                (Headers_delete OPENAI_HEADERS_CONVERSATION_ID headers))
    end in
  match with_cache_key with
  | None => None
  | Some headers => Headers_set "accept" "text/event-stream" headers
  end
  end end end end.

End CodexHeaders.

(** The parts of a string between the occurrences of a separator, put
    together again *)
Fixpoint join_on (c : Ascii.ascii) (parts : list string) : string :=
  match parts with
  | [] => EmptyString
  | [p] => p
  | p :: ps => p +:+ String c (join_on c ps)
  end.

(** The character [c] does not occur in [s]. *)
Definition free_of (c : Ascii.ascii) (s : string) : Prop :=
  Js.includes s (String c EmptyString) = false.

(** *** Calls on the manager: the operations above, and [selectAccount()] *)

Inductive manager_call : Type :=
| Operation (o : operation)
| SelectAccount (now : Z).

Section Calls.

Variable base64_decode : string -> string.
Variable JSON_parse : string -> option json.

Definition apply_call (w : world) (c : manager_call) : world :=
  match c with
  | Operation o => apply_operation base64_decode JSON_parse w o
  | SelectAccount now => ((selectAccount w.1 now).1, w.2)
  end.

Definition run_calls (w : world) (calls : list manager_call) : world :=
  List.fold_left apply_call calls w.

End Calls.

(** * Properties *)

(** ** Strings *)

Lemma append_assoc (a b c : string) : (a +:+ b) +:+ c = a +:+ (b +:+ c).
Proof.
  induction a as [|x a IH]; cbn [String.append]; [done | by rewrite IH].
Qed.

Lemma append_nil_r (a : string) : a +:+ EmptyString = a.
Proof.
  induction a as [|x a IH]; cbn [String.append]; [done | by rewrite IH].
Qed.

Lemma length_append (a b : string) :
  String.length (a +:+ b) = (String.length a + String.length b)%nat.
Proof.
  induction a as [|x a IH]; cbn [String.append String.length];
    [done | by rewrite IH].
Qed.

Lemma startsWith_app (p r : string) : Js.startsWith (p +:+ r) p = true.
Proof.
  induction p as [|x p IH]; cbn [String.append Js.startsWith]; [done|].
  by rewrite Ascii.eqb_refl, IH.
Qed.

Lemma startsWith_inv (s p : string) :
  Js.startsWith s p = true -> exists r, s = p +:+ r.
Proof.
  revert s; induction p as [|x p IH]; intros s H.
  - by exists s.
  - destruct s as [|a s]; simpl in H; [done|].
    apply andb_prop in H as [Hc Hs].
    apply Ascii.eqb_eq in Hc as ->.
    destruct (IH _ Hs) as [r ->]. by exists r.
Qed.

(** Only the first [length p] characters of [s] matter to [s.startsWith(p)]. *)
Lemma startsWith_app_r (s t p : string) :
  (String.length p <= String.length s)%nat ->
  Js.startsWith (s +:+ t) p = Js.startsWith s p.
Proof.
  revert s; induction p as [|x p IH]; intros s Hlen; [done|].
  destruct s as [|a s]; cbn [String.append String.length Js.startsWith] in *;
    [lia|].
  rewrite IH; [done | lia].
Qed.

Lemma drop_app (p r : string) : Js.drop (String.length p) (p +:+ r) = r.
Proof.
  induction p as [|x p IH]; cbn [String.append String.length Js.drop];
    [by destruct r | done].
Qed.

(** ** Model normalisation *)

Example normalizeModel_ex1 :
  normalizeModel (Some "openai/gpt-5.1-codex-high") = "gpt-5.1-codex".
Proof. reflexivity. Qed.

Example rewriteUrl_ex1 :
  rewriteUrlForCodex "https://chatgpt.com/backend-api/responses"
  = "https://chatgpt.com/backend-api/codex/responses".
Proof. reflexivity. Qed.

Lemma map_get_In (k v : string) (m : list (string * string)) :
  map_get k m = Some v -> In v (List.map snd m).
Proof.
  induction m as [|[k' v'] m IH]; cbn; [done|].
  destruct (String.eqb k' k); [intros [= ->]; by left | right; by apply IH].
Qed.

Lemma MODEL_MAP_get_cases (k : string) (v : ModelName) :
  MODEL_MAP_get k = Some v ->
  match v with
  | model_name s => In s (List.map snd MODEL_MAP)
  | inherited_property k' => k' = k /\ In k Object_prototype_keys
  end.
Proof.
  unfold MODEL_MAP_get.
  destruct (map_get k MODEL_MAP) eqn:H1.
  - intros [= <-]. by eapply map_get_In.
  - destruct (List.existsb _ _) eqn:He; [|done]. intros [= <-].
    split; [done|]. apply existsb_exists in He as (x & Hx & ->%String.eqb_eq).
    done.
Qed.

Lemma getNormalizedModel_cases (modelId : string) (v : ModelName) :
  getNormalizedModel modelId = Some v ->
  match v with
  | model_name s => In s (List.map snd MODEL_MAP)
  | inherited_property k => In k Object_prototype_keys
  end.
Proof.
  unfold getNormalizedModel.
  destruct (MODEL_MAP_get modelId) as [v'|] eqn:H1.
  - intros [= <-]. apply MODEL_MAP_get_cases in H1.
    destruct v' as [s|k]; [done|]. by destruct H1 as [-> ?].
  - destruct (List.find _ MODEL_MAP) as [kv|]; [|done].
    intros H. apply MODEL_MAP_get_cases in H.
    destruct v as [s|k]; [done|]. by destruct H as [-> ?].
Qed.

(** [normalizeModel] answers one of seven names, or the value inherited
    under a property name of [Object.prototype]. *)
Lemma normalizeModel_range (model : option string) :
  match normalizeModel model with
  | model_name s => In s normalizeModel_results
  | inherited_property k => In k Object_prototype_keys
  end.
Proof.
  unfold normalizeModel. destruct model as [m|]; [|by left].
  destruct (negb (Js.truthy m)); [by left|].
  destruct (getNormalizedModel _) as [v|] eqn:Hg.
  - apply getNormalizedModel_cases in Hg. destruct v as [s|k]; [|done].
    cbn in Hg.
    repeat (destruct Hg as [<-|Hg]; [cbn; tauto|]). done.
  - repeat match goal with
           | |- context [if ?b then _ else _] => destruct b
           end; cbn; tauto.
Qed.

(** Apart from the legacy name the ladder can answer, every name
    [normalizeModel] answers is a fixed point. *)
Lemma normalizeModel_idempotent_elsewhere (model : option string)
    (s : string) :
  normalizeModel model = model_name s ->
  s <> "codex-mini-latest" ->
  normalizeModel (Some s) = model_name s.
Proof.
  intros E Hne. pose proof (normalizeModel_range model) as Hr.
  rewrite E in Hr. cbn in Hr.
  repeat (destruct Hr as [Hr|Hr];
          [rewrite <- Hr in *; first [done | by vm_compute]|]).
  done.
Qed.

(** C7. Model normalisation is not idempotent: an identifier that only
    contains [codex-mini-latest] (or [gpt-5-codex-mini]) falls through the
    table to the substring ladder, which answers the legacy name
    [codex-mini-latest]; the table itself maps that name to
    [gpt-5.1-codex-mini], so a second pass changes the result. *)
Theorem normalizeModel_codex_mini_latest_not_fixed :
  normalizeModel (Some "gpt-5-codex-mini-low") = "codex-mini-latest"
  /\ normalizeModel (Some "codex-mini-latest") = "gpt-5.1-codex-mini"
  /\ normalizeModel (Some "codex-mini-latest")
     <> normalizeModel (Some "gpt-5-codex-mini-low").
Proof. by vm_compute. Qed.

(** ** URL rewrite *)

Example rewriteUrl_ex2 :
  rewriteUrlForCodex "https://h/responses/x/responses"
  = "https://h/codex/responses/x/responses".
Proof. reflexivity. Qed.

(** C9 (as the code has it). For every URL: either [/responses] does not
    occur and the URL is returned as it is, or the URL splits at the leftmost
    occurrence of [/responses] (no occurrence starts inside [pre]) and exactly
    that occurrence is replaced by [/codex/responses], wherever it stands. *)
Theorem rewriteUrlForCodex_leftmost (url : string) :
  (Js.includes url "/responses" = false /\ rewriteUrlForCodex url = url)
  \/ (exists pre post,
        url = pre +:+ "/responses" +:+ post
        /\ Js.includes (pre +:+ "/response") "/responses" = false
        /\ rewriteUrlForCodex url = pre +:+ "/codex/responses" +:+ post).
Proof.
  unfold rewriteUrlForCodex, URL_PATHS_RESPONSES, URL_PATHS_CODEX_RESPONSES.
  induction url as [|a u IH].
  - by left.
  - destruct (Js.startsWith (String a u) "/responses") eqn:Hs.
    + right. destruct (startsWith_inv _ _ Hs) as [r Hr].
      exists EmptyString, r. split; [done|]. split; [done|].
      cbn [Js.replace]. rewrite Hs, Hr.
      by rewrite (drop_app "/responses" r).
    + cbn [Js.replace Js.includes]. rewrite Hs.
      destruct IH as [[Hn Hr] | (pre & post & Hu & Hn & Hr)].
      * left. by rewrite Hn, Hr.
      * right. exists (String a pre), post.
        split; [by rewrite Hu|]. split; [|by rewrite Hr].
        assert (Js.startsWith (String a (pre +:+ "/response")) "/responses"
                = false) as Hs'.
        { rewrite <- (startsWith_app_r _ ("s" +:+ post))
            by (cbn [String.length]; rewrite length_append; simpl; lia).
          cbn [String.append]. rewrite append_assoc.
          subst u. exact Hs. }
        cbn [String.append Js.includes]. by rewrite Hs', Hn.
Qed.

(** C9 (as the spec words it) fails: an occurrence of [/responses] that is
    not the trailing path segment is rewritten, and when two occur the
    trailing one is the one left alone. *)
Lemma rewriteUrlForCodex_not_trailing_only :
  rewriteUrlForCodex "https://chatgpt.com/backend-api/responses/compact"
  = "https://chatgpt.com/backend-api/codex/responses/compact"
  /\ rewriteUrlForCodex "https://chatgpt.com/backend-api/responses/compact"
     <> "https://chatgpt.com/backend-api/responses/compact"
  /\ rewriteUrlForCodex "https://h/responses/x/responses"
     <> "https://h/responses/x/codex/responses".
Proof. by vm_compute. Qed.

(** ** Orphan repair *)

Lemma item_type_excl (item : InputItem) (a b : string) :
  item_type item a = true -> a <> b -> item_type item b = false.
Proof.
  unfold item_type. destruct (jget "type" item) as [[]|]; try done.
  intros Ha%String.eqb_eq Hab. apply String.eqb_neq. congruence.
Qed.

Lemma has_call_nil (ty cid : string) : ~ has_call [] ty cid.
Proof. intros (c & Hc & _). by apply elem_of_nil in Hc. Qed.

Lemma has_call_cons (x : InputItem) (xs : list InputItem) (ty cid : string) :
  has_call (x :: xs) ty cid
  <-> (item_type x ty = true /\ getCallId x = Some cid) \/ has_call xs ty cid.
Proof.
  split.
  - intros (c & [->|Hc]%elem_of_cons & Ht & Hi); [by left|].
    right. by exists c.
  - intros [[Ht Hi] | (c & Hc & Ht & Hi)].
    + exists x. split; [by left | done].
    + exists c. split; [by right | done].
Qed.

(** One step of the collecting loop adds the call id of a call item to the
    set of its own type and to no other. *)
Lemma collect_call_id_sets (acc : CallIdSets) (x : InputItem) (cid : string) :
  (cid ∈ functionCallIds (collect_call_id acc x)
   <-> cid ∈ functionCallIds acc
       \/ (item_type x "function_call" = true /\ getCallId x = Some cid))
  /\ (cid ∈ localShellCallIds (collect_call_id acc x)
      <-> cid ∈ localShellCallIds acc
          \/ (item_type x "local_shell_call" = true /\ getCallId x = Some cid))
  /\ (cid ∈ customToolCallIds (collect_call_id acc x)
      <-> cid ∈ customToolCallIds acc
          \/ (item_type x "custom_tool_call" = true /\ getCallId x = Some cid)).
Proof.
  unfold collect_call_id.
  destruct (getCallId x) as [c|]; [|by intuition].
  destruct (item_type x "function_call") eqn:Hf.
  { pose proof (item_type_excl x _ "local_shell_call" Hf ltac:(done)) as Hl.
    pose proof (item_type_excl x _ "custom_tool_call" Hf ltac:(done)) as Hc.
    rewrite Hl, Hc. cbn. set_solver. }
  destruct (item_type x "local_shell_call") eqn:Hl.
  { pose proof (item_type_excl x _ "custom_tool_call" Hl ltac:(done)) as Hc.
    rewrite Hc. cbn. set_solver. }
  destruct (item_type x "custom_tool_call") eqn:Hc; cbn; set_solver.
Qed.

Lemma collect_fold (input : list InputItem) (acc : CallIdSets) (cid : string) :
  let r := List.fold_left collect_call_id input acc in
  (cid ∈ functionCallIds r
   <-> cid ∈ functionCallIds acc \/ has_call input "function_call" cid)
  /\ (cid ∈ localShellCallIds r
      <-> cid ∈ localShellCallIds acc
          \/ has_call input "local_shell_call" cid)
  /\ (cid ∈ customToolCallIds r
      <-> cid ∈ customToolCallIds acc
          \/ has_call input "custom_tool_call" cid).
Proof.
  revert acc. induction input as [|x xs IH]; intros acc; cbn.
  - pose proof (has_call_nil "function_call" cid).
    pose proof (has_call_nil "local_shell_call" cid).
    pose proof (has_call_nil "custom_tool_call" cid). tauto.
  - destruct (IH (collect_call_id acc x)) as (IH1 & IH2 & IH3).
    destruct (collect_call_id_sets acc x cid) as (S1 & S2 & S3).
    rewrite !has_call_cons. tauto.
Qed.

(** The three sets hold exactly the call ids of the call items of the
    sequence, type by type. *)
Lemma collectCallIds_spec (input : list InputItem) (cid : string) :
  (cid ∈ functionCallIds (collectCallIds input)
   <-> has_call input "function_call" cid)
  /\ (cid ∈ localShellCallIds (collectCallIds input)
      <-> has_call input "local_shell_call" cid)
  /\ (cid ∈ customToolCallIds (collectCallIds input)
      <-> has_call input "custom_tool_call" cid).
Proof.
  destruct (collect_fold input (mkCallIdSets ∅ ∅ ∅) cid) as (H1 & H2 & H3).
  unfold collectCallIds. cbn in *. set_solver.
Qed.

(** *** Lengths in code units *)

Lemma units_continuation (n : N) :
  (n < 64)%N -> Js.units (Ascii.ascii_of_N (128 + n)) = O.
Proof.
  intros Hn. unfold Js.units. rewrite Ascii.N_ascii_embedding by lia.
  destruct (N.ltb_spec (128 + n) 128); [lia|].
  destruct (N.ltb_spec (128 + n) 192); [done|lia].
Qed.

Lemma leading_surrogate_length (b0 b1 b2 : Ascii.ascii) :
  Js.length (Js.leading_surrogate b0 b1 b2) = 1%nat.
Proof.
  unfold Js.leading_surrogate. cbn [Js.length].
  rewrite !units_continuation by (apply N.mod_lt; lia). done.
Qed.

(** A slice of [n] code units is no longer than [n] and no longer than the
    text. *)
Lemma slice_to_length (n : nat) (s : string) :
  (Js.length (Js.slice_to n s) <= n)%nat
  /\ (Js.length (Js.slice_to n s) <= Js.length s)%nat.
Proof.
  revert n. induction s as [|c s IH]; intros n; cbn [Js.slice_to Js.length].
  { lia. }
  destruct (Js.units c) as [|[|u]] eqn:Hu.
  - cbn [Js.length]. rewrite Hu. destruct (IH n). lia.
  - destruct n as [|n']; cbn [Js.length]; [lia|].
    rewrite Hu. destruct (IH n'). lia.
  - destruct n as [|[|n']]; cbn [Js.length]; [lia| |].
    + destruct s as [|c1 [|c2 s']]; cbn [Js.length]; [lia|lia|].
      rewrite leading_surrogate_length. lia.
    + rewrite Hu. destruct (IH n').
      assert (u = O) as ->; [|lia].
      unfold Js.units in Hu.
      repeat match type of Hu with
             | (if ?b then _ else _) = _ => destruct b
             end; lia.
Qed.

(** A text of at most [n] code units is its own slice. *)
Lemma slice_to_all (n : nat) (s : string) :
  (Js.length s <= n)%nat -> Js.slice_to n s = s.
Proof.
  revert n. induction s as [|c s IH]; intros n; cbn [Js.slice_to Js.length];
    [done|].
  destruct (Js.units c) as [|[|u]] eqn:Hu; intros Hn.
  - by rewrite IH.
  - destruct n as [|n']; [lia|]. rewrite IH; [done|lia].
  - assert (u = O) as ->.
    { unfold Js.units in Hu.
      repeat match type of Hu with
             | (if ?b then _ else _) = _ => destruct b
             end; lia. }
    destruct n as [|[|n']]; [lia|lia|]. rewrite IH; [done|lia].
Qed.

(** The text of an orphaned output is cut at 16000 code units. *)
Lemma truncate_output_spec (text : string) :
  ((Js.length text <= OUTPUT_LIMIT)%nat -> truncate_output text = text)
  /\ ((OUTPUT_LIMIT < Js.length text)%nat ->
      truncate_output text
      = Js.slice_to OUTPUT_LIMIT text +:+ Js.LF +:+ "...[truncated]"
      /\ (Js.length (Js.slice_to OUTPUT_LIMIT text) <= OUTPUT_LIMIT)%nat).
Proof.
  unfold truncate_output.
  destruct (Nat.ltb_spec OUTPUT_LIMIT (Js.length text)); split; try lia;
    try done.
  intros _. split; [done|]. apply slice_to_length.
Qed.

(** The call id of an item is its [call_id] property, trimmed, when that is
    a string that is not blank. *)
Lemma getCallId_spec (item : InputItem) :
  match getCallId item with
  | Some cid =>
      exists rawId,
        jget "call_id" item = Some (JStr rawId)
        /\ cid = Js.trim rawId /\ cid <> EmptyString
  | None =>
      forall rawId,
        jget "call_id" item = Some (JStr rawId) -> Js.trim rawId = EmptyString
  end.
Proof.
  unfold getCallId. destruct (jget "call_id" item) as [[]|]; try done.
  destruct (Js.trim s) as [|c t] eqn:Et; cbn [String.length Nat.ltb Nat.leb].
  - by intros ? [= <-].
  - exists s. by rewrite Et.
Qed.

(** The limit counts code units, not bytes: a text of [n] letters of two
    bytes each is left whole up to 16000 letters, and cut after the first
    16000 beyond. *)
Lemma truncate_output_counts_code_units (n : nat) :
  let text n := List.fold_right String.append EmptyString (repeat "é" n) in
  String.length (text n) = (2 * n)%nat
  /\ Js.length (text n) = n
  /\ ((n <= OUTPUT_LIMIT)%nat -> truncate_output (text n) = text n)
  /\ ((OUTPUT_LIMIT < n)%nat ->
      truncate_output (text n)
      = text OUTPUT_LIMIT +:+ Js.LF +:+ "...[truncated]").
Proof.
  intros text.
  assert (Hb : forall k, String.length (text k) = (2 * k)%nat).
  { induction k as [|k IH]; [done|].
    change (text (S k)) with ("é" +:+ text k).
    cbn [String.append String.length]. rewrite IH. lia. }
  assert (Hl : forall k, Js.length (text k) = k).
  { induction k as [|k IH]; [done|].
    change (text (S k)) with ("é" +:+ text k).
    cbn [String.append Js.length]. by rewrite IH. }
  assert (Hs : forall m k, Js.slice_to k (text m) = text (Nat.min k m)).
  { induction m as [|m IH]; intros k; [by destruct k|].
    change (text (S m)) with ("é" +:+ text m).
    destruct k as [|k]; [done|].
    cbn [Nat.min]. change (text (S (Nat.min k m)))
      with ("é" +:+ text (Nat.min k m)).
    cbn [String.append]. rewrite <- IH. done. }
  split; [apply Hb|]. split; [apply Hl|].
  destruct (truncate_output_spec (text n)) as [H1 H2]. rewrite Hl in H1, H2.
  split; [done|]. intros Hn. destruct (H2 Hn) as [-> _].
  rewrite Hs. by rewrite Nat.min_l by lia.
Qed.

(** The white space around a call id may be any white space of
    JavaScript: here a no-break space (U+00A0) before the id and an
    ideographic space (U+3000) after it. *)
Example getCallId_trims_unicode_space :
  let nbsp :=
    String (Ascii.ascii_of_N 194) (String (Ascii.ascii_of_N 160) EmptyString)
  in
  let ideographic :=
    String (Ascii.ascii_of_N 227)
      (String (Ascii.ascii_of_N 128)
         (String (Ascii.ascii_of_N 128) EmptyString)) in
  getCallId [("call_id", JStr (nbsp +:+ "X" +:+ ideographic))] = Some "X".
Proof. by vm_compute. Qed.

Section OrphanRepairFacts.

Variable JSON_stringify : json -> string.

Lemma repair_item_orphaned (input : list InputItem) (item : InputItem) :
  orphaned input item ->
  repair_item JSON_stringify (collectCallIds input) item
  = convertOrphanedOutputToMessage JSON_stringify item (getCallId item).
Proof.
  unfold repair_item.
  intros [[Ht Hn] | [[Ht Hn] | [Ht Hn]]].
  - rewrite Ht. destruct (getCallId item) as [cid|] eqn:Hc; [|done].
    destruct (Hn cid eq_refl) as [Hf Hl].
    destruct (collectCallIds_spec input cid) as (S1 & S2 & _).
    rewrite !bool_decide_eq_false_2 by tauto. done.
  - rewrite (item_type_excl item _ "function_call_output" Ht) by done.
    rewrite Ht. destruct (getCallId item) as [cid|] eqn:Hc; [|done].
    destruct (collectCallIds_spec input cid) as (_ & _ & S3).
    specialize (Hn cid eq_refl). cbn.
    rewrite bool_decide_eq_false_2 by tauto. done.
  - rewrite (item_type_excl item _ "function_call_output" Ht) by done.
    rewrite (item_type_excl item _ "custom_tool_call_output" Ht) by done.
    rewrite Ht. destruct (getCallId item) as [cid|] eqn:Hc; [|done].
    destruct (collectCallIds_spec input cid) as (_ & S2 & _).
    specialize (Hn cid eq_refl). cbn.
    rewrite bool_decide_eq_false_2 by tauto. done.
Qed.

Lemma repair_item_paired (input : list InputItem) (item : InputItem) :
  ~ orphaned input item ->
  repair_item JSON_stringify (collectCallIds input) item = Some item.
Proof.
  unfold repair_item, orphaned. intros Hn.
  destruct (item_type item "function_call_output") eqn:H1.
  { destruct (getCallId item) as [cid|] eqn:Hc.
    - destruct (collectCallIds_spec input cid) as (S1 & S2 & _).
      cbn. destruct (bool_decide (cid ∈ functionCallIds _)) eqn:B1;
        destruct (bool_decide (cid ∈ localShellCallIds _)) eqn:B2; cbn;
        rewrite ?(item_type_excl item _ "custom_tool_call_output" H1),
                ?(item_type_excl item _ "local_shell_call_output" H1) by done;
        try done.
      apply bool_decide_eq_false in B1, B2.
      exfalso. apply Hn. left. split; [done|].
      intros ? [= <-]. tauto.
    - exfalso. apply Hn. left. split; [done|]. done. }
  destruct (item_type item "custom_tool_call_output") eqn:H2.
  { destruct (getCallId item) as [cid|] eqn:Hc.
    - destruct (collectCallIds_spec input cid) as (_ & _ & S3).
      cbn. destruct (bool_decide (cid ∈ customToolCallIds _)) eqn:B1; cbn;
        rewrite ?(item_type_excl item _ "local_shell_call_output" H2) by done;
        try done.
      apply bool_decide_eq_false in B1.
      exfalso. apply Hn. right; left. split; [done|].
      intros ? [= <-]. tauto.
    - exfalso. apply Hn. right; left. split; [done|]. done. }
  destruct (item_type item "local_shell_call_output") eqn:H3; [|done].
  destruct (getCallId item) as [cid|] eqn:Hc.
  - destruct (collectCallIds_spec input cid) as (_ & S2 & _).
    cbn. destruct (bool_decide (cid ∈ localShellCallIds _)) eqn:B1; cbn;
      try done.
    apply bool_decide_eq_false in B1.
    exfalso. apply Hn. right; right. split; [done|].
    intros ? [= <-]. tauto.
  - exfalso. apply Hn. right; right. split; [done|]. done.
Qed.

(** Whether an item is orphaned is decided by the three sets. *)
Lemma orphaned_dec (input : list InputItem) (item : InputItem) :
  orphaned input item \/ ~ orphaned input item.
Proof.
  assert (forall ty cid, has_call input ty cid \/ ~ has_call input ty cid)
    as Hdec.
  { intros ty cid. induction input as [|x xs IH].
    - right. apply has_call_nil.
    - rewrite has_call_cons.
      destruct IH as [IH|IH]; [tauto|].
      destruct (item_type x ty); [|right; intros [[? ?]|?]; done].
      destruct (decide (getCallId x = Some cid)); [tauto|].
      right; intros [[? ?]|?]; done. }
  assert ((forall cid, getCallId item = Some cid ->
             ~ has_call input "function_call" cid
             /\ ~ has_call input "local_shell_call" cid)
          \/ ~ (forall cid, getCallId item = Some cid ->
                  ~ has_call input "function_call" cid
                  /\ ~ has_call input "local_shell_call" cid)) as DA.
  { destruct (getCallId item) as [cid|]; [|by left].
    destruct (Hdec "function_call" cid) as [?|?];
      [right; intros Hx; by destruct (Hx cid eq_refl)|].
    destruct (Hdec "local_shell_call" cid) as [?|?];
      [right; intros Hx; by destruct (Hx cid eq_refl)|].
    left. by intros ? [= <-]. }
  assert (forall ty,
            (forall cid, getCallId item = Some cid -> ~ has_call input ty cid)
            \/ ~ (forall cid, getCallId item = Some cid ->
                    ~ has_call input ty cid)) as DB.
  { intros ty. destruct (getCallId item) as [cid|]; [|by left].
    destruct (Hdec ty cid) as [?|?];
      [right; intros Hx; by apply (Hx cid eq_refl)|].
    left. by intros ? [= <-]. }
  pose proof (DB "custom_tool_call") as DC.
  pose proof (DB "local_shell_call") as DL.
  unfold orphaned.
  destruct (decide (item_type item "function_call_output" = true));
    destruct (decide (item_type item "custom_tool_call_output" = true));
    destruct (decide (item_type item "local_shell_call_output" = true));
    tauto.
Qed.

(** C3 (as the code has it). On every input sequence whose orphaned output
    items carry an [output] property, orphan repair returns a sequence of the
    same length in which an item is replaced by the assistant message
    ["[Previous <toolName> result; call_id=<id|unknown>]: <output>"] exactly
    when it is an output item whose call id is missing (not a string, or
    blank) or is carried by no call item it pairs with: [function_call] or
    [local_shell_call] for [function_call_output], [custom_tool_call] for
    [custom_tool_call_output], [local_shell_call] for
    [local_shell_call_output].  Every other item is returned as it is.  The
    output in the message is the text of the [output] property (the property
    itself when it is a string, what [JSON.stringify] makes of it otherwise),
    whole when it has at most 16000 code units, and its first 16000 code
    units followed by a line feed and [...[truncated]] when it has more.  The
    call id of an item is its [call_id] property without the white space
    around it, when that is a string and not blank. *)
Theorem normalizeOrphanedToolOutputs_spec (input : list InputItem) :
  (forall item, item ∈ input -> orphaned input item ->
     is_Some (jget "output" item)) ->
  exists out,
    normalizeOrphanedToolOutputs JSON_stringify input = Some out
    /\ length out = length input
    /\ forall (i : nat) item, input !! i = Some item ->
         (orphaned input item ->
          exists text,
            output_text JSON_stringify item = Some text
            /\ out !! i
               = Some [ ("type", JStr "message");
                        ("role", JStr "assistant");
                        ("content",
                         JStr ("[Previous " +:+ tool_name item
                               +:+ " result; call_id="
                               +:+ default "unknown" (getCallId item)
                               +:+ "]: " +:+ truncate_output text)) ]
            /\ (forall s, jget "output" item = Some (JStr s) -> text = s)
            /\ (forall o, jget "output" item = Some o ->
                  (forall s, o <> JStr s) -> text = JSON_stringify o)
            /\ ((Js.length text <= OUTPUT_LIMIT)%nat ->
                truncate_output text = text)
            /\ ((OUTPUT_LIMIT < Js.length text)%nat ->
                truncate_output text
                = Js.slice_to OUTPUT_LIMIT text +:+ Js.LF
                  +:+ "...[truncated]"
                /\ (Js.length (Js.slice_to OUTPUT_LIMIT text)
                    <= OUTPUT_LIMIT)%nat))
         /\ (~ orphaned input item -> out !! i = Some item)
         /\ match getCallId item with
            | Some cid =>
                exists rawId,
                  jget "call_id" item = Some (JStr rawId)
                  /\ cid = Js.trim rawId /\ cid <> EmptyString
            | None =>
                forall rawId,
                  jget "call_id" item = Some (JStr rawId) ->
                  Js.trim rawId = EmptyString
            end.
Proof.
  intros Hout. unfold normalizeOrphanedToolOutputs.
  assert (Forall (fun x =>
                    is_Some (repair_item JSON_stringify
                               (collectCallIds input) x))
            input) as Hall.
  { apply Forall_forall. intros x Hx.
    destruct (orphaned_dec input x) as [Ho|Hn].
    - rewrite (repair_item_orphaned _ _ Ho).
      destruct (Hout x Hx Ho) as [o Hget].
      unfold convertOrphanedOutputToMessage, output_text. rewrite Hget.
      by destruct o.
    - by rewrite (repair_item_paired _ _ Hn). }
  apply mapM_is_Some in Hall as [out Hmap].
  exists out. split; [done|].
  apply mapM_Some in Hmap.
  split; [symmetry; by eapply Forall2_length|].
  intros i item Hi.
  destruct (Forall2_lookup_l _ _ _ _ _ Hmap Hi) as (y & Hy & Hrep).
  split; [|split].
  - intros Ho. rewrite (repair_item_orphaned _ _ Ho) in Hrep.
    unfold convertOrphanedOutputToMessage in Hrep.
    destruct (output_text JSON_stringify item) as [text|] eqn:Htext; [|done].
    exists text. split; [done|]. split; [by simplify_eq|].
    unfold output_text in Htext.
    split; [intros s Hs; rewrite Hs in Htext; by simplify_eq|].
    split.
    { intros o Ho' Hns. rewrite Ho' in Htext.
      destruct o; try by simplify_eq. by destruct (Hns s). }
    apply truncate_output_spec.
  - intros Hn. rewrite (repair_item_paired _ _ Hn) in Hrep. by simplify_eq.
  - apply getCallId_spec.
Qed.

End OrphanRepairFacts.

Example orphan_repair_scenario :
  normalizeOrphanedToolOutputs write_json
    [ex_call "function_call" "X"; ex_output "function_call_output" "Y" "hi"]
  = Some [ ex_call "function_call" "X";
           [ ("type", JStr "message"); ("role", JStr "assistant");
             ("content", JStr "[Previous tool result; call_id=Y]: hi") ] ].
Proof. by vm_compute. Qed.

Example orphan_repair_without_output_throws :
  normalizeOrphanedToolOutputs write_json
    [[("type", JStr "function_call_output"); ("call_id", JStr "Y")]] = None.
Proof. by vm_compute. Qed.

Lemma normalizeOrphanedToolOutputs_spec_witness :
  let input :=
    [ex_call "function_call" "X"; ex_output "function_call_output" "Y" "hi"] in
  exists out,
    normalizeOrphanedToolOutputs write_json input = Some out
    /\ length out = length input.
Proof.
  intros input.
  destruct (normalizeOrphanedToolOutputs_spec write_json input)
    as (out & H1 & H2 & _).
  - intros item [->|Hin%list_elem_of_singleton]%elem_of_cons Ho.
    + exfalso. destruct Ho as [[H _]|[[H _]|[H _]]]; by vm_compute in H.
    + subst item. by eexists.
  - by exists out.
Defined.

(** C3 (as the spec words it) fails: a [function_call_output] whose call id
    is carried by a [local_shell_call] item only, and by no [function_call]
    item, is not rewritten. *)
Lemma function_call_output_paired_with_local_shell_call :
  let input :=
    [ex_call "local_shell_call" "X"; ex_output "function_call_output" "X" "hi"]
  in
  ~ has_call input "function_call" "X"
  /\ normalizeOrphanedToolOutputs write_json input = Some input.
Proof.
  split; [|by vm_compute].
  intros (c & [->|Hin%list_elem_of_singleton]%elem_of_cons & Ht & _);
    [|subst c]; by vm_compute in Ht.
Qed.

(** ** Request transformation *)

Lemma assign_lookup (l : ref) (f : RequestBody -> RequestBody) (h : heap)
    (b : RequestBody) :
  h !! l = Some b ->
  assign l f h !! l = Some (f b)
  /\ forall l', l' <> l -> assign l f h !! l' = h !! l'.
Proof.
  intros Hl. unfold assign. rewrite Hl. split.
  - apply lookup_insert_eq.
  - intros l' Hne. by apply lookup_insert_ne.
Qed.

Lemma assign_present (l : ref) (f : RequestBody -> RequestBody) (h : heap)
    (b : RequestBody) :
  h !! l = Some b -> assign l f h = <[l := f b]> h.
Proof. intros Hl. unfold assign. by rewrite Hl. Qed.

Lemma assign_insert (l : ref) (f : RequestBody -> RequestBody) (h : heap)
    (b : RequestBody) :
  assign l f (<[l := b]> h) = <[l := f b]> h.
Proof. unfold assign. rewrite lookup_insert_eq. apply insert_insert_eq. Qed.

Ltac body_fields :=
  cbn [model store stream instructions input tools reasoning text include
       providerOptions_openai prompt_cache_key max_output_tokens
       max_completion_tokens extras set_model set_store set_stream
       set_instructions set_input set_reasoning set_text set_include
       set_max_output_tokens set_max_completion_tokens mjoin option_join].




Section TransformerFacts.

Variables bridge remap : string.
Variable JSON_stringify : json -> string.

(** What [transformRequestBody] leaves in the heap and returns, case by
    case *)
Lemma transformRequestBody_result (h : heap) (body : ref)
    (b0 : RequestBody) (originalModel : option string)
    (codexInstructions : string) (userConfig : UserConfig)
    (codexMode : bool) (cachedPrompt : option string) :
  h !! body = Some b0 ->
  model b0 = model_name <$> originalModel ->
  let normalizedModel := normalizeModel originalModel in
  let lookupModel :=
    match originalModel with
    | Some m => if Js.truthy m then m else "gpt-5.1"
    | None => "gpt-5.1"
    end in
  let modelConfig := getModelConfig lookupModel userConfig in
  let cleaned inp :=
    clean_input bridge remap cachedPrompt codexMode
      (if tools b0 is Some t then jtruthy t else false) inp in
  let b4 :=
    set_instructions (Some codexInstructions)
      (set_stream (Some true)
         (set_store (Some false) (set_model (Some normalizedModel) b0))) in
  let finish b6 :=
    match normalizedModel with
    | inherited_property _ => (<[body := b6]> h, None)
    | model_name name =>
        (<[body :=
             set_max_completion_tokens None
               (set_max_output_tokens None
                  (set_include (Some (resolveInclude modelConfig b6))
                     (set_text
                        (Some (Some (resolveTextVerbosity modelConfig b6)))
                        (set_reasoning
                           (Some (mkPartialReasoning
                                    (Some (effort (resolveReasoningConfig
                                                     name modelConfig b6)))
                                    (Some (summary (resolveReasoningConfig
                                                      name modelConfig
                                                      b6)))))
                           b6))))]> h,
         Some body)
    end in
  transformRequestBody bridge remap JSON_stringify h body codexInstructions
    userConfig codexMode cachedPrompt
  = match input b0 with
    | None => finish b4
    | Some inp =>
        match normalizeOrphanedToolOutputs JSON_stringify (cleaned inp) with
        | Some rep =>
            finish (set_input (Some rep) (set_input (Some (cleaned inp)) b4))
        | None => (<[body := set_input (Some (cleaned inp)) b4]> h, None)
        end
    end.
Proof.
  intros Hb Hm normalizedModel lookupModel modelConfig cleaned b4 finish.
  subst b4 finish cleaned.
  unfold transformRequestBody. rewrite Hb, Hm.
  assert (Hcfg : forall m,
    originalModel = Some m ->
    match (if Js.truthy m then model_name m else normalizeModel (Some m)) with
    | model_name m0 => getModelConfig m0 userConfig
    | inherited_property _ => getModelConfig EmptyString userConfig
    end = modelConfig).
  { intros m ->. subst modelConfig lookupModel. by destruct m. }
  destruct originalModel as [m|]; cbn [fmap option_fmap option_map].
  - rewrite (Hcfg m eq_refl). fold normalizedModel.
    rewrite (assign_present _ _ _ _ Hb), !assign_insert.
    destruct (input b0) as [inp|].
    + rewrite ?assign_insert.
      destruct (normalizeOrphanedToolOutputs _ _) as [rep|]; [|done].
      rewrite ?assign_insert. cbn [negb]. rewrite lookup_insert_eq.
      destruct normalizedModel; by rewrite ?assign_insert.
    + cbn [negb]. rewrite lookup_insert_eq.
      destruct normalizedModel; by rewrite ?assign_insert.
  - change (normalizeModel None) with (model_name "gpt-5.1").
    cbv iota. fold modelConfig.
    rewrite (assign_present _ _ _ _ Hb), !assign_insert.
    destruct (input b0) as [inp|].
    + rewrite ?assign_insert.
      destruct (normalizeOrphanedToolOutputs _ _) as [rep|]; [|done].
      rewrite ?assign_insert. cbn [negb]. rewrite lookup_insert_eq.
      by rewrite ?assign_insert.
    + cbn [negb]. by rewrite lookup_insert_eq, ?assign_insert.
Qed.


End TransformerFacts.



(** A model named after a property every object inherits is looked up in
    the table as that property: the body is left with the inherited value as
    its model and the call throws, its token limits still in place. *)
Example transformRequestBody_inherited_model :
  let b0 :=
    mkRequestBody (Some (model_name "constructor")) None None None None None
      None None None None None (Some 4096) None [] in
  let h : heap := {[ 1%positive := b0 ]} in
  let res :=
    transformRequestBody "bridge" "remap" write_json h 1%positive
      "instructions" (mkUserConfig None []) true None in
  res.2 = None
  /\ model <$> res.1 !! 1%positive
     = Some (Some (inherited_property "constructor"))
  /\ max_output_tokens <$> res.1 !! 1%positive = Some (Some 4096).
Proof. by vm_compute. Qed.

(** ** Hybrid selection *)

Lemma Qle_bool_false (x y : Q) : Qle_bool x y = false -> (y < x)%Q.
Proof.
  intros H. apply Qnot_le_lt. intros Hle.
  apply Qle_bool_iff in Hle. congruence.
Qed.

Lemma Qltb_true (x y : Q) : Qltb x y = true -> (x < y)%Q.
Proof.
  unfold Qltb. intros H. apply Qle_bool_false.
  by destruct (Qle_bool y x).
Qed.

Lemma Qltb_false (x y : Q) : Qltb x y = false -> (y <= x)%Q.
Proof.
  unfold Qltb. intros H. apply Qle_bool_iff.
  by destruct (Qle_bool y x).
Qed.

Lemma insert_desc_In (x y : Scored) (l : list Scored) :
  In y (insert_desc x l) <-> y = x \/ In y l.
Proof.
  induction l as [|z l IH]; cbn.
  - intuition.
  - destruct (Qle_bool (score z) (score x)); cbn; [intuition|].
    rewrite IH. intuition.
Qed.

Lemma sort_desc_In (y : Scored) (l : list Scored) :
  In y (sort_desc l) <-> In y l.
Proof.
  induction l as [|x l IH]; cbn; [done|].
  rewrite insert_desc_In, IH. intuition.
Qed.

(** The first element carries a highest score. *)
Definition head_is_max (l : list Scored) : Prop :=
  match l with
  | [] => True
  | h :: t => forall y, In y t -> (score y <= score h)%Q
  end.

Lemma insert_desc_head_is_max (x : Scored) (l : list Scored) :
  head_is_max l -> head_is_max (insert_desc x l).
Proof.
  destruct l as [|z l]; cbn; [by intros _ y []|].
  intros Hz. destruct (Qle_bool (score z) (score x)) eqn:Hc.
  - apply Qle_bool_iff in Hc. cbn. intros y [<-|Hy]; [done|].
    specialize (Hz y Hy). lra.
  - apply Qle_bool_false in Hc. cbn. intros y Hy.
    apply insert_desc_In in Hy as [->|Hy]; [lra | by apply Hz].
Qed.

Lemma sort_desc_head_is_max (l : list Scored) : head_is_max (sort_desc l).
Proof.
  induction l as [|x l IH]; cbn; [done|].
  by apply insert_desc_head_is_max.
Qed.

Lemma sort_desc_head (l : list Scored) (best : Scored) (rest : list Scored) :
  sort_desc l = best :: rest ->
  In best l /\ forall y, In y l -> (score y <= score best)%Q.
Proof.
  intros Hs. split.
  - apply sort_desc_In. rewrite Hs. by left.
  - intros y Hy. apply sort_desc_In in Hy. rewrite Hs in Hy.
    pose proof (sort_desc_head_is_max l) as Hm. rewrite Hs in Hm.
    destruct Hy as [->|Hy]; [lra | by apply Hm].
Qed.

Lemma is_index_Some (i c : nat) : is_index i (Some c) = true <-> i = c.
Proof. cbn. apply Nat.eqb_eq. Qed.

(** What [selectHybridAccount] answers, in terms of the scored candidates:
    the head of the sorted list, unless that head is not the current account
    and its base score is less than the threshold ahead of the current one. *)
Lemma selectHybridAccount_cases (accounts : list AccountMetrics)
    (tr : TokenBucketTracker) (now : Z) (cur : nat) (minH : Q)
    (a : AccountMetrics) :
  In a accounts -> is_candidate tr now minH a = true -> m_index a = cur ->
  exists (best : AccountMetrics) (r : nat),
    selectHybridAccount accounts tr now (Some cur) minH = Some r
    /\ In best accounts /\ is_candidate tr now minH best = true
    /\ (forall c, In c accounts -> is_candidate tr now minH c = true ->
          (score (score_account tr now (Some cur) c)
           <= score (score_account tr now (Some cur) best))%Q)
    /\ (r = cur \/ (r = m_index best /\ m_index best <> cur)).
Proof.
  intros Ha Hca Hia. unfold selectHybridAccount.
  set (cands := List.filter (is_candidate tr now minH) accounts).
  assert (In a cands) as Hac by (apply filter_In; done).
  destruct cands as [|c0 cs] eqn:Hcands; [done|]. rewrite <- Hcands in *.
  set (sc := score_account tr now (Some cur)).
  destruct (sort_desc (List.map sc cands)) as [|best rest] eqn:Hs.
  { exfalso. assert (In (sc a) (sort_desc (List.map sc cands))) as Hin
      by (apply sort_desc_In, in_map, Hac).
    by rewrite Hs in Hin. }
  destruct (sort_desc_head _ _ _ Hs) as [Hbest Hmax].
  apply in_map_iff in Hbest as (cb & <- & Hcb).
  apply filter_In in Hcb as [Hcb1 Hcb2].
  assert (forall c, In c accounts -> is_candidate tr now minH c = true ->
            (score (sc c) <= score (sc cb))%Q) as Hmax'.
  { intros c Hc1 Hc2. apply Hmax, in_map, filter_In. done. }
  destruct (List.find isCurrent (sc cb :: rest)) as [cc|] eqn:Hfind.
  - apply find_some in Hfind as [Hcc1 Hcc2].
    rewrite <- Hs in Hcc1. apply sort_desc_In, in_map_iff in Hcc1
      as (c' & <- & Hc').
    cbn in Hcc2. apply is_index_Some in Hcc2.
    destruct (isCurrent (sc cb)) eqn:Hb; cbn [negb andb].
    + exists cb, (m_index cb). cbn in Hb. apply is_index_Some in Hb.
      repeat split; try done. by left.
    + destruct (Qltb _ _).
      * exists cb, (m_index c'). repeat split; try done. by left.
      * exists cb, (m_index cb). repeat split; try done. right.
        split; [done|]. cbn in Hb. by apply Nat.eqb_neq in Hb.
  - exfalso.
    assert (isCurrent (sc a) = false) as Hna.
    { apply (find_none _ _ Hfind (sc a)).
      rewrite <- Hs. apply sort_desc_In, in_map, Hac. }
    cbn in Hna. rewrite Hia, Nat.eqb_refl in Hna. done.
Qed.

(** The sort already ranks the active account first unless some other
    candidate is ahead by the stickiness bonus: a switch takes an advantage
    of at least [STICKINESS_BONUS], and the threshold test that follows
    never turns a switch down. *)
Lemma selectHybridAccount_switch_needs_bonus (accounts : list AccountMetrics)
    (tr : TokenBucketTracker) (now : Z) (cur : nat) (minH : Q)
    (a b : AccountMetrics) (r : nat) :
  In a accounts -> is_candidate tr now minH a = true -> m_index a = cur ->
  (forall c, In c accounts -> is_candidate tr now minH c = true ->
     m_index c <> cur -> (base_score tr now c <= base_score tr now b)%Q) ->
  selectHybridAccount accounts tr now (Some cur) minH = Some r ->
  r <> cur ->
  (STICKINESS_BONUS <= base_score tr now b - base_score tr now a)%Q.
Proof.
  intros Ha Hca Hia Hbest Hsel Hne.
  destruct (selectHybridAccount_cases accounts tr now cur minH a Ha Hca Hia)
    as (best & r' & Hsel' & Hbin & Hbc & Hmax & Hr).
  rewrite Hsel in Hsel'. injection Hsel' as <-.
  destruct Hr as [->|[-> Hnb]]; [done|].
  pose proof (Hmax a Ha Hca) as Hsa.
  pose proof (Hbest best Hbin Hbc Hnb) as Hbb.
  unfold score_account in Hsa. cbn [score] in Hsa.
  assert (is_index (m_index a) (Some cur) = true) as Ea
    by (by apply is_index_Some).
  assert (is_index (m_index best) (Some cur) = false) as Eb
    by (by apply Nat.eqb_neq).
  rewrite Ea, Eb in Hsa. unfold STICKINESS_BONUS in *. lra.
Qed.

(** C1. When the active account and some other account both pass the
    candidate filter, let [b] be a non-active candidate of highest base
    score.  The selector answers an index; it answers another index than the
    active one only if [base b - base a] strictly exceeds
    [SWITCH_THRESHOLD]; and when that advantage is exactly the threshold it
    answers the active index. *)
Theorem selectHybridAccount_anti_flap (accounts : list AccountMetrics)
    (tr : TokenBucketTracker) (now : Z) (cur : nat) (minH : Q)
    (a b : AccountMetrics) :
  In a accounts -> is_candidate tr now minH a = true -> m_index a = cur ->
  In b accounts -> is_candidate tr now minH b = true -> m_index b <> cur ->
  (forall c, In c accounts -> is_candidate tr now minH c = true ->
     m_index c <> cur -> (base_score tr now c <= base_score tr now b)%Q) ->
  exists r,
    selectHybridAccount accounts tr now (Some cur) minH = Some r
    /\ (r <> cur ->
        (SWITCH_THRESHOLD < base_score tr now b - base_score tr now a)%Q)
    /\ ((base_score tr now b - base_score tr now a == SWITCH_THRESHOLD)%Q ->
        r = cur).
Proof.
  intros Ha Hca Hia Hb Hcb Hib Hbest.
  destruct (selectHybridAccount_cases accounts tr now cur minH a Ha Hca Hia)
    as (best & r & Hsel & Hbin & Hbc & Hmax & Hr).
  exists r. split; [done|].
  destruct Hr as [->|[-> Hne]]; [split; done|].
  (* the head of the sorted list is not the active account *)
  pose proof (Hmax a Ha Hca) as Hsa.
  pose proof (Hbest best Hbin Hbc Hne) as Hbb.
  unfold score_account in Hsa. cbn [score] in Hsa.
  assert (is_index (m_index a) (Some cur) = true) as Ea
    by (by apply is_index_Some).
  assert (is_index (m_index best) (Some cur) = false) as Eb
    by (by apply Nat.eqb_neq).
  rewrite Ea, Eb in Hsa.
  unfold STICKINESS_BONUS, SWITCH_THRESHOLD in *.
  split; [intros _|intros Heq]; lra.
Qed.

(** Two healthy accounts with full buckets, the active one used just now,
    the other an hour ago: the freshness component of the idle account is
    [3600 * 0.1 = 360], more than the stickiness bonus, and the selector
    switches. *)
Example hour_of_freshness_outweighs_stickiness :
  selectHybridAccount
    [ mkAccountMetrics 0 3600000 70 false true;
      mkAccountMetrics 1 0 70 false true ]
    new_TokenBucketTracker 3600000 (Some O) 50 = Some 1%nat.
Proof. by vm_compute. Qed.

(** An advantage of 102, and of anything below the stickiness bonus, keeps
    the active account: the sort already ranks it first. *)
Example advantage_102_keeps_active :
  selectHybridAccount [ex_metrics 0 50; ex_metrics 1 101]
    new_TokenBucketTracker 0 (Some O) 50 = Some O.
Proof. by vm_compute. Qed.

Example advantage_152_switches :
  selectHybridAccount [ex_metrics 0 50; ex_metrics 1 126]
    new_TokenBucketTracker 0 (Some O) 50 = Some 1%nat.
Proof. by vm_compute. Qed.

Lemma selectHybridAccount_anti_flap_witness :
  exists r,
    selectHybridAccount [ex_metrics 0 50; ex_metrics 1 100]
      new_TokenBucketTracker 0 (Some O) 50 = Some r
    /\ r = O.
Proof.
  destruct (selectHybridAccount_anti_flap
              [ex_metrics 0 50; ex_metrics 1 100] new_TokenBucketTracker 0 O
              50 (ex_metrics 0 50) (ex_metrics 1 100))
    as (r & Hr & _ & Heq).
  - by left.
  - by vm_compute.
  - reflexivity.
  - right; by left.
  - by vm_compute.
  - cbn; lia.
  - intros c [<-|[<-|[]]] _ Hne; [done|]. apply Qle_refl.
  - exists r. split; [done|]. apply Heq. by vm_compute.
Defined.

Lemma selectHybridAccount_Some (accounts : list AccountMetrics)
    (tr : TokenBucketTracker) (now : Z) (cur : option nat) (minH : Q)
    (r : nat) :
  selectHybridAccount accounts tr now cur minH = Some r ->
  exists c, In c accounts /\ is_candidate tr now minH c = true
            /\ m_index c = r.
Proof.
  unfold selectHybridAccount.
  set (cands := List.filter (is_candidate tr now minH) accounts).
  destruct cands as [|c0 cs] eqn:Hcands; [done|]. rewrite <- Hcands.
  set (sc := score_account tr now cur).
  destruct (sort_desc (List.map sc cands)) as [|best rest] eqn:Hs; [done|].
  assert (forall s, In s (best :: rest) ->
            exists c, In c accounts /\ is_candidate tr now minH c = true
                      /\ m_index c = s_index s) as Hfrom.
  { intros s Hin. rewrite <- Hs in Hin.
    apply sort_desc_In, in_map_iff in Hin as (c & <- & Hc).
    apply filter_In in Hc as [Hc1 Hc2]. by exists c. }
  destruct (List.find isCurrent (best :: rest)) as [cc|] eqn:Hfind.
  - apply find_some in Hfind as [Hcc _].
    destruct (negb (isCurrent best) && Qltb _ _); intros [= <-].
    + by apply Hfrom.
    + apply Hfrom. by left.
  - intros [= <-]. apply Hfrom. by left.
Qed.

(** ** The fallback of [selectAccount] *)

Lemma reset_lt_true (c p : option Z) :
  reset_lt c p = true -> inf_le c p /\ c <> p.
Proof.
  destruct c as [c|], p as [p|]; cbn; try done.
  intros H%Z.ltb_lt. split; [lia | intros [=]; lia].
Qed.

Lemma reset_lt_false (c p : option Z) : reset_lt c p = false -> inf_le p c.
Proof.
  destruct c as [c|], p as [p|]; cbn; try done.
  intros H%Z.ltb_ge. lia.
Qed.

Lemma inf_le_trans (x y z : option Z) : inf_le x y -> inf_le y z -> inf_le x z.
Proof. destruct x, y, z; cbn; try done; lia. Qed.

Lemma inf_le_antisym (x y : option Z) : inf_le x y -> inf_le y x -> x = y.
Proof. destruct x, y; cbn; try done. intros. f_equal. lia. Qed.

Lemma inf_le_refl (x : option Z) : inf_le x x.
Proof. destruct x; cbn; [lia | done]. Qed.

Definition index_lt (a b : ManagedAccount) : Prop := (index a < index b)%nat.

(** What it means to be the account the fallback picks among [l]. *)
Definition soonest_in (l : list ManagedAccount) (s : ManagedAccount) : Prop :=
  s ∈ l
  /\ forall b, b ∈ l ->
       inf_le (rateLimitResetTime s) (rateLimitResetTime b)
       /\ (rateLimitResetTime b = rateLimitResetTime s ->
           (index s <= index b)%nat).

(** The loop of [reduce]: [prev] is a soonest account among those seen,
    the one of smallest index among the soonest. *)
Lemma soonest_fold (rest seen : list ManagedAccount) (prev : ManagedAccount) :
  StronglySorted index_lt (seen ++ rest) ->
  soonest_in seen prev ->
  soonest_in (seen ++ rest) (soonest_of prev rest).
Proof.
  revert seen prev. induction rest as [|curr rest IH]; intros seen prev.
  - cbn. by rewrite app_nil_r.
  - intros Hsorted [Hin Hmin]. unfold soonest_of. cbn [List.fold_left].
    replace (seen ++ curr :: rest) with ((seen ++ [curr]) ++ rest) in *
      by (by rewrite <- app_assoc).
    apply IH; [done|].
    assert (index_lt prev curr) as Hpc.
    { apply StronglySorted_app_1_l in Hsorted.
      eapply StronglySorted_app_1_elem_of; [done | done | by left]. }
    destruct (reset_lt (rateLimitResetTime curr) (rateLimitResetTime prev))
      eqn:Hc.
    + apply reset_lt_true in Hc as [Hle Hne].
      split; [apply elem_of_app; right; by left|].
      intros b [Hb|Hb%list_elem_of_singleton]%elem_of_app.
      * destruct (Hmin b Hb) as [Hb1 _]. split.
        -- by eapply inf_le_trans.
        -- intros Heq. exfalso. apply Hne.
           apply inf_le_antisym; [done|]. by rewrite <- Heq.
      * subst b. split; [apply inf_le_refl | done].
    + apply reset_lt_false in Hc.
      split; [apply elem_of_app; by left|].
      intros b [Hb|Hb%list_elem_of_singleton]%elem_of_app.
      * by apply Hmin.
      * subst b. split; [done|]. intros _. unfold index_lt in Hpc. lia.
Qed.

Lemma soonest_of_spec (first : ManagedAccount) (rest : list ManagedAccount) :
  StronglySorted index_lt (first :: rest) ->
  soonest_in (first :: rest) (soonest_of first rest).
Proof.
  intros Hsorted. apply (soonest_fold rest [first] first Hsorted).
  split; [by left|].
  intros b ->%list_elem_of_singleton. split; [apply inf_le_refl | done].
Qed.

Lemma well_indexed_from (k : nat) (l : list ManagedAccount) :
  (forall (i : nat) a, l !! i = Some a -> index a = (k + i)%nat) ->
  StronglySorted index_lt l.
Proof.
  revert k. induction l as [|x l IH]; intros k Hidx; [constructor|].
  constructor.
  - apply (IH (S k)). intros i a Hi.
    rewrite (Hidx (S i) a Hi). lia.
  - apply Forall_forall. intros b [i Hi]%list_elem_of_lookup_1.
    unfold index_lt. rewrite (Hidx O x eq_refl), (Hidx (S i) b Hi). lia.
Qed.

Lemma well_indexed_sorted (l : list ManagedAccount) :
  well_indexed l -> StronglySorted index_lt l.
Proof. intros H. apply (well_indexed_from O). exact H. Qed.

Lemma filter_sorted (p : ManagedAccount -> bool) (l : list ManagedAccount) :
  StronglySorted index_lt l -> StronglySorted index_lt (List.filter p l).
Proof.
  induction 1 as [|x l Hs IH Hall]; cbn; [constructor|].
  destruct (p x); [|done]. constructor; [done|].
  rewrite Forall_forall in *. intros b Hb%list_elem_of_In%filter_In.
  apply Hall, list_elem_of_In. tauto.
Qed.

(** Taking the snapshot changes no [index] and no [enabled] flag. *)
Lemma isRateLimited_frame (now : Z) (a : ManagedAccount) :
  index (Manager_isRateLimited now a).2 = index a
  /\ enabled (Manager_isRateLimited now a).2 = enabled a.
Proof.
  unfold Manager_isRateLimited.
  destruct (rateLimitResetTime a) as [t|]; [|done].
  destruct (t =? 0); [done|]. by destruct (t <=? now).
Qed.

Lemma snapshot_accounts (m : AccountManager) (now : Z) :
  (snapshot m now).2
  = List.map (fun a => (Manager_isRateLimited now a).2) (accounts m).
Proof. unfold snapshot. cbn. by rewrite List.map_map. Qed.

Lemma snapshot_well_indexed (m : AccountManager) (now : Z) :
  well_indexed (accounts m) -> well_indexed (snapshot m now).2.
Proof.
  intros Hw i a. rewrite snapshot_accounts.
  intros Hi. apply list_lookup_fmap_Some in Hi as (a0 & -> & Hi).
  destruct (isRateLimited_frame now a0) as [-> _]. by apply Hw.
Qed.

Lemma NoDup_fmap_eq {A B : Type} (f : A -> B) (l : list A) (a b : A) :
  NoDup (f <$> l) -> In a l -> In b l -> f a = f b -> a = b.
Proof.
  induction l as [|x l IH]; [done|]. cbn.
  intros [Hx Hnd]%NoDup_cons [<-|Ha] [<-|Hb] Hab; try done.
  - exfalso. apply Hx. rewrite Hab. apply list_elem_of_fmap.
    exists b. split; [done | by apply list_elem_of_In].
  - exfalso. apply Hx. rewrite <- Hab. apply list_elem_of_fmap.
    exists a. split; [done | by apply list_elem_of_In].
  - by apply IH.
Qed.

(** The snapshot of a well-indexed manager names every index once. *)
Lemma snapshot_metrics_NoDup (m : AccountManager) (now : Z) :
  well_indexed (accounts m) -> NoDup (m_index <$> (snapshot m now).1).
Proof.
  intros Hw. unfold snapshot. cbn [fst].
  change (List.map) with (@fmap list _). rewrite <- !list_fmap_compose.
  apply NoDup_alt. intros i j x Hi Hj.
  apply list_lookup_fmap_Some in Hi as (a & -> & Hi).
  apply list_lookup_fmap_Some in Hj as (b & Hab & Hj).
  cbn in Hab.
  destruct (isRateLimited_frame now a) as [Ea _].
  destruct (isRateLimited_frame now b) as [Eb _].
  rewrite Ea, Eb in Hab. rewrite <- (Hw i a Hi), <- (Hw j b Hj). done.
Qed.

(** C6. Hybrid selection only answers the index of a metrics entry that is
    not rate-limited, is enabled and has at least one token (and where the
    snapshot names every index once, as the manager's does, no entry of that
    index is rate-limited or disabled).  When the
    selector in force answers [null], [selectAccount] answers [null] only if
    no account is enabled, and otherwise the enabled account whose reset time
    is smallest (absent counting as infinity), the one of smallest index among
    equals; reset times are those left by the snapshot, which clears the
    expired ones. *)
Theorem hybrid_never_unusable_and_fallback_soonest
    (metrics : list AccountMetrics) (tr : TokenBucketTracker)
    (cur : option nat) (minH : Q) (m : AccountManager) (now : Z) :
  well_indexed (accounts m) ->
  (forall r, selectHybridAccount metrics tr now cur minH = Some r ->
     (exists c, In c metrics /\ m_index c = r
                /\ isRateLimited c = false /\ m_enabled c = true)
     /\ (1 <= Bucket.getTokens tr now r)%Q
     /\ (NoDup (m_index <$> metrics) ->
         forall c, In c metrics -> m_index c = r ->
           isRateLimited c = false /\ m_enabled c = true))
  /\ (run_selector m now (snapshot m now).1 = None ->
      match (selectAccount m now).2 with
      | None => forall a, a ∈ (snapshot m now).2 -> enabled a = false
      | Some s =>
          (snapshot m now).2 !! index s = Some s
          /\ enabled s = true
          /\ forall b, b ∈ (snapshot m now).2 -> enabled b = true ->
               inf_le (rateLimitResetTime s) (rateLimitResetTime b)
               /\ (rateLimitResetTime b = rateLimitResetTime s ->
                   (index s <= index b)%nat)
      end).
Proof.
  intros Hw. split.
  - intros r Hr.
    destruct (selectHybridAccount_Some _ _ _ _ _ _ Hr) as (c & Hc & Hcand & <-).
    unfold is_candidate, Bucket.hasTokens in Hcand.
    apply andb_prop in Hcand as [Hcand Htok].
    apply andb_prop in Hcand as [Hcand _].
    apply andb_prop in Hcand as [Hrl Hen].
    apply Qle_bool_iff in Htok. apply negb_true_iff in Hrl.
    split; [by exists c|]. split; [done|].
    intros Hnd c' Hc' Hidx.
    by rewrite (NoDup_fmap_eq m_index metrics c' c Hnd Hc' Hc Hidx).
  - intros Hsel. unfold selectAccount.
    destruct (accounts m) as [|a0 as0] eqn:Hacc.
    { cbn [snd]. rewrite snapshot_accounts, Hacc. cbn [List.map].
      by intros a ?%elem_of_nil. }
    rewrite <- Hacc in Hw.
    pose proof (snapshot_well_indexed m now Hw) as Hw'.
    destruct (snapshot m now) as [ms accs] eqn:Hsnap. cbn [fst snd] in *.
    rewrite Hsel.
    destruct (List.filter enabled accs) as [|first rest] eqn:Hf; cbn [snd].
    + intros a Ha%list_elem_of_In.
      destruct (enabled a) eqn:He; [|done].
      assert (In a (List.filter enabled accs)) as Hin
        by (by apply filter_In).
      by rewrite Hf in Hin.
    + pose proof (soonest_of_spec first rest) as [Hs1 Hs2].
      { rewrite <- Hf. by apply filter_sorted, well_indexed_sorted. }
      set (s := soonest_of first rest) in *.
      assert (In s accs /\ enabled s = true) as [Hsin Hsen].
      { apply filter_In. rewrite Hf. by apply list_elem_of_In. }
      apply list_elem_of_In, list_elem_of_lookup_1 in Hsin as [i Hi].
      pose proof (Hw' i s Hi) as Hidx.
      rewrite Hidx, Hi. cbv beta iota. rewrite ?Hidx.
      split; [done|]. split; [done|].
      intros b Hb Hben. rewrite <- Hidx. apply Hs2. rewrite <- Hf.
      apply list_elem_of_In, filter_In. split; [by apply list_elem_of_In|done].
Qed.

Example fallback_picks_soonest_reset :
  let m := ex_manager [ ex_account 0 "r0" (Some 5000);
                        ex_account 1 "r1" (Some 3000) ] in
  run_selector m 1000 (snapshot m 1000).1 = None
  /\ (selectAccount m 1000).2 = Some (ex_account 1 "r1" (Some 3000))
  /\ activeIndex (selectAccount m 1000).1 = Some (of_index 1).
Proof. by vm_compute. Qed.

Lemma hybrid_never_unusable_and_fallback_soonest_witness :
  let m := ex_manager [ ex_account 0 "r0" (Some 5000);
                        ex_account 1 "r1" (Some 3000) ] in
  exists s, (selectAccount m 1000).2 = Some s /\ enabled s = true.
Proof.
  intros m.
  pose proof (hybrid_never_unusable_and_fallback_soonest
                [] new_TokenBucketTracker None 50 m 1000) as [_ H].
  - intros [|[|i]] a; cbn; intros [= <-]; reflexivity.
  - specialize (H ltac:(by vm_compute)).
    destruct ((selectAccount m 1000).2) as [s|] eqn:E.
    + exists s. split; [reflexivity | apply H].
    + exfalso. specialize (H (ex_account 0 "r0" (Some 5000))).
      discriminate H. rewrite snapshot_accounts. by left.
Defined.

(** ** Adding an account *)

Lemma findIndex_Some {A : Type} (p : A -> bool) (l : list A) (i : nat) :
  findIndex p l = Some i
  <-> exists x, l !! i = Some x /\ p x = true
                /\ forall (j : nat) y, (j < i)%nat -> l !! j = Some y ->
                     p y = false.
Proof.
  revert i. induction l as [|x l IH]; intros i; cbn.
  - split; [done | by intros (? & ? & _)].
  - destruct (p x) eqn:Hp.
    + split.
      * intros [= <-]. exists x. repeat split; try done. intros j y Hj. lia.
      * intros (y & Hi & Hy & Hfirst). destruct i as [|i]; [done|].
        specialize (Hfirst O x ltac:(lia) eq_refl). congruence.
    + destruct (findIndex p l) as [k|]; cbn.
      * split.
        -- intros [= <-]. destruct (proj1 (IH k) eq_refl) as (y & Hy1 & Hy2 & Hy3).
           exists y. repeat split; try done.
           intros [|j] z Hj Hz; cbn in Hz; [congruence|].
           apply (Hy3 j); [lia | done].
        -- intros (y & Hi & Hy & Hfirst). destruct i as [|i]; cbn in Hi.
           { congruence. }
           assert (Some k = Some i) as [= ->]; [|done].
           apply IH. exists y. repeat split; try done.
           intros j z Hj Hz. apply (Hfirst (S j)); [lia | done].
      * split; [done|].
        intros (y & Hi & Hy & Hfirst). destruct i as [|i]; cbn in Hi.
        { congruence. }
        exfalso. assert (None = Some i) as Habs; [|done].
        apply IH. exists y. repeat split; try done.
        intros j z Hj Hz. apply (Hfirst (S j)); [lia | done].
Qed.

Section AccountFacts.

Variable base64_decode : string -> string.
Variable JSON_parse : string -> option json.

Lemma same_account_spec (tokens : TokenSuccess) (a : ManagedAccount) :
  same_account tokens (token_accountId base64_decode JSON_parse tokens) a = true
  <-> duplicate_of base64_decode JSON_parse tokens a.
Proof.
  unfold same_account, duplicate_of. rewrite orb_true_iff, String.eqb_eq.
  destruct (token_accountId base64_decode JSON_parse tokens) as [id|].
  - rewrite andb_true_iff, bool_decide_eq_true. split.
    + intros [?|[Ht ?]]; [by left|]. right. exists id.
      repeat split; try done. by destruct id.
    + intros [?|(id' & [= <-] & Hne & ?)]; [by left|]. right.
      split; [by destruct id | done].
  - split; [intros [?|?]; [by left | done]|].
    intros [?|(id' & ? & _)]; [by left | done].
Qed.

(** C10. When the accounts in memory (after the load that [addAccount]
    starts with) hold a duplicate of the new tokens, the first such account
    is updated where it stands: same [addedAt], [lastUsed] and position, new
    credentials, penalties cleared; the other accounts, their number and the
    active index are as before, and the index returned is that account's. *)
Theorem addAccount_updates_duplicate_in_place (w : world) (now : Z)
    (tokens : TokenSuccess) (i : nat) (old : ManagedAccount) :
  let accs := accounts (load w).1 in
  accs !! i = Some old ->
  duplicate_of base64_decode JSON_parse tokens old ->
  (forall (j : nat) a, (j < i)%nat -> accs !! j = Some a ->
     ~ duplicate_of base64_decode JSON_parse tokens a) ->
  let res := addAccount base64_decode JSON_parse w now tokens in
  exists new,
    res.2 = i
    /\ accounts res.1.1 = <[i := new]> accs
    /\ accounts res.1.1 !! i = Some new
    /\ length (accounts res.1.1) = length accs
    /\ (forall (j : nat), j <> i -> accounts res.1.1 !! j = accs !! j)
    /\ activeIndex res.1.1 = activeIndex (load w).1
    /\ addedAt new = addedAt old
    /\ lastUsed new = lastUsed old
    /\ index new = index old
    /\ refreshToken new = refresh tokens
    /\ accessToken new = Some (access tokens)
    /\ accessTokenExpires new = Some (expires tokens)
    /\ enabled new = true
    /\ consecutiveFailures new = O
    /\ rateLimitResetTime new = None
    /\ rateLimitReason new = None.
Proof.
  intros accs Hi Hdup Hfirst res. subst accs res. unfold addAccount.
  destruct (load w) as [m d]. cbn [fst snd] in *.
  assert (findIndex
            (same_account tokens
               (token_accountId base64_decode JSON_parse tokens))
            (accounts m) = Some i) as ->.
  { apply findIndex_Some. exists old. split; [done|].
    split; [by apply same_account_spec|].
    intros j y Hj Hy.
    destruct (same_account _ _ y) eqn:Hs; [|done].
    apply same_account_spec in Hs. by destruct (Hfirst j y Hj Hy). }
  rewrite Hi. cbn [fst snd saveToDisk accounts with_accounts with_healthTracker
                     activeIndex].
  eexists. split; [done|]. split; [done|].
  split; [apply list_lookup_insert_eq; by eapply lookup_lt_Some|].
  split; [apply length_insert|].
  split; [intros j Hj; by apply list_lookup_insert_ne|].
  done.
Qed.

End AccountFacts.

Lemma addAccount_updates_duplicate_in_place_witness :
  let w : world :=
    (ex_manager [ex_account 0 "r0" None; ex_account 1 "r1" (Some 3000)], None)
  in
  (addAccount (fun s => s) read_json w 1000
     (mkTokenSuccess "a1" "r1" 9000)).2 = 1%nat.
Proof.
  intros w.
  destruct (addAccount_updates_duplicate_in_place (fun s => s) read_json w 1000
              (mkTokenSuccess "a1" "r1" 9000) 1 (ex_account 1 "r1" (Some 3000)))
    as (new & Hres & _).
  - reflexivity.
  - by left.
  - intros [|j] a Hj; [|lia]. cbn. intros [= <-] [Hr|(id & Hid & _)].
    + discriminate Hr.
    + discriminate Hid.
  - exact Hres.
Defined.

Example addAccount_existing_account :
  let w : world :=
    (ex_manager [ex_account 0 "r0" None; ex_account 1 "r1" (Some 3000)], None)
  in
  let res :=
    addAccount (fun s => s) read_json w 1000 (mkTokenSuccess "a1" "r1" 9000)
  in
  accounts res.1.1
  = [ ex_account 0 "r0" None;
      mkManagedAccount None "r1" (Some "a1") (Some 9000) None 0 0 true None
        None O 1 ].
Proof. by vm_compute. Qed.

(** ** Persistence round trip *)

Lemma tokenMap_get_None (k : string) (tm : list (string * StoredAccount)) :
  k ∉ tm.*1 -> tokenMap_get k tm = None.
Proof.
  induction tm as [|[k' v] tm IH]; cbn; [done|].
  intros Hk. apply not_elem_of_cons in Hk as [Hne Hk].
  destruct (String.eqb k' k) eqn:He; [|by apply IH].
  apply String.eqb_eq in He. congruence.
Qed.

Lemma tokenMap_set_fresh (k : string) (v : StoredAccount)
    (tm : list (string * StoredAccount)) :
  k ∉ tm.*1 -> tokenMap_set k v tm = tm ++ [(k, v)].
Proof.
  induction tm as [|[k' v'] tm IH]; cbn; [done|].
  intros Hk. apply not_elem_of_cons in Hk as [Hne Hk].
  destruct (String.eqb k' k) eqn:He.
  - apply String.eqb_eq in He. congruence.
  - by rewrite IH.
Qed.

(** Without two equal refresh tokens the map is filled in order. *)
Lemma dedup_fold (accs : list StoredAccount)
    (tm : list (string * StoredAccount)) :
  NoDup (tm.*1 ++ (sa_refreshToken <$> accs)) ->
  List.fold_left
    (fun tokenMap acc =>
       match tokenMap_get (sa_refreshToken acc) tokenMap with
       | Some existing =>
           if sa_lastUsed existing <? sa_lastUsed acc
           then tokenMap_set (sa_refreshToken acc) acc tokenMap
           else tokenMap
       | None => tokenMap_set (sa_refreshToken acc) acc tokenMap
       end) accs tm
  = tm ++ ((fun a => (sa_refreshToken a, a)) <$> accs).
Proof.
  revert tm. induction accs as [|a accs IH]; intros tm Hnd; cbn.
  - by rewrite app_nil_r.
  - assert (sa_refreshToken a ∉ tm.*1) as Hfresh.
    { apply NoDup_app in Hnd as (_ & Hdisj & _).
      intros Hin. apply (Hdisj _ Hin). cbn. by left. }
    rewrite (tokenMap_get_None _ _ Hfresh), (tokenMap_set_fresh _ _ _ Hfresh).
    rewrite IH.
    + by rewrite <- app_assoc.
    + rewrite fmap_app. cbn. by rewrite <- app_assoc.
Qed.

Lemma deduplicateAccounts_NoDup (accs : list StoredAccount) :
  NoDup (sa_refreshToken <$> accs) -> deduplicateAccounts accs = accs.
Proof.
  intros Hnd. unfold deduplicateAccounts.
  rewrite (dedup_fold accs []) by done. cbn.
  change (List.map snd) with (fmap (M := list) (@snd string StoredAccount)).
  rewrite <- list_fmap_compose. apply list_fmap_id.
Qed.

Lemma valid_entries (accs : list StoredAccount) :
  Forall (fun a => sa_refreshToken a <> EmptyString) accs ->
  omap (fun e : option StoredAccount =>
          match e with
          | Some a =>
              if (0 <? String.length (sa_refreshToken a))%nat
              then Some a else None
          | None => None
          end) (List.map Some accs) = accs.
Proof.
  induction 1 as [|a accs Ha _ IH]; csimpl; [done|].
  destruct (sa_refreshToken a) eqn:Ht; [done|]. csimpl. by rewrite IH.
Qed.

(** *** The active index as a number *)

Lemma Qmax'_0 (a : Q) :
  Qmax' a 0 = 0%Q \/ ((0 < Qmax' a 0)%Q /\ Qmax' a 0 = a).
Proof.
  unfold Qmax'. destruct (Qle_bool a 0) eqn:E; [by left|].
  right. split; [by apply Qle_bool_false|done].
Qed.

(** [Math.min(Math.max(a, 0), n - 1)] for a count [n] of at least one *)
Lemma clamp_range (a : Q) (n : nat) :
  (0 < n)%nat ->
  let q := Qmin' (Qmax' a 0) (inject_Z (Z.of_nat n - 1)) in
  (q = 0%Q \/ (0 < q)%Q) /\ (q <= inject_Z (Z.of_nat n - 1))%Q.
Proof.
  intros Hn q. subst q. unfold Qmin'.
  destruct (Qle_bool (Qmax' a 0) _) eqn:E.
  - split; [|by apply Qle_bool_iff].
    destruct (Qmax'_0 a) as [->|[? _]]; [by left|by right].
  - split; [|apply Qle_refl].
    destruct (decide (n = 1%nat)) as [->|Hne]; [by left|].
    right. change 0%Q with (inject_Z 0). rewrite <- Zlt_Qlt. lia.
Qed.

Lemma clamp_fixed (q : Q) (hi : Q) :
  (q = 0%Q \/ (0 < q)%Q) -> (q <= hi)%Q -> Qmin' (Qmax' q 0) hi = q.
Proof.
  intros Hq Hhi.
  assert (Qmax' q 0 = q) as ->.
  { unfold Qmax'. destruct Hq as [->|Hq]; [done|].
    destruct (Qle_bool q 0) eqn:E; [|done].
    apply Qle_bool_iff in E. lra. }
  unfold Qmin'. destruct (Qle_bool q hi) eqn:E; [done|].
  apply Qle_bool_false in E. lra.
Qed.

Lemma clamp_between (q : Q) (hi : Q) :
  (0 <= q <= hi)%Q -> (Qmin' (Qmax' q 0) hi == q)%Q.
Proof.
  intros [Hq0 Hq1]. unfold Qmax'. destruct (Qle_bool q 0) eqn:E0.
  - apply Qle_bool_iff in E0. unfold Qmin'.
    destruct (Qle_bool 0 hi) eqn:E1; [lra|].
    apply Qle_bool_false in E1. lra.
  - unfold Qmin'. destruct (Qle_bool q hi) eqn:E1; [lra|].
    apply Qle_bool_false in E1. lra.
Qed.

Lemma as_index_spec (q : Q) (i : nat) :
  as_index q = Some i <-> (q == of_index i)%Q.
Proof.
  unfold as_index, of_index, Qeq. destruct q as [n d]. cbn [Qnum Qden inject_Z].
  split.
  - destruct (_ && _) eqn:E; [|done]. intros [= <-].
    apply andb_prop in E as [Hm Hp].
    apply Z.eqb_eq in Hm. apply Z.leb_le in Hp.
    rewrite Z2Nat.id by (apply Z.div_pos; lia).
    pose proof (Z.div_mod n (Z.pos d) ltac:(lia)). lia.
  - intros He. rewrite Z.mul_1_r in He. subst n.
    rewrite Z.mod_mul by lia. rewrite Z.div_mul by lia.
    cbn [andb Z.eqb]. 
    assert ((0 <=? Z.of_nat i * Z.pos d) = true) as ->
      by (apply Z.leb_le; lia).
    by rewrite Nat2Z.id.
Qed.

Lemma as_index_of_index (i : nat) : as_index (of_index i) = Some i.
Proof. by apply as_index_spec. Qed.

Lemma as_index_integral (q : Q) (z : Z) :
  (q == inject_Z z)%Q -> (0 <= q)%Q -> as_index q = Some (Z.to_nat z).
Proof.
  intros He Hq. apply as_index_spec. unfold of_index.
  rewrite Z2Nat.id; [done|]. rewrite He in Hq. by rewrite Zle_Qle.
Qed.

Lemma clamp_integral (a : Q) (n : nat) (z : Z) :
  (a == inject_Z z)%Q ->
  exists z', (Qmin' (Qmax' a 0) (inject_Z (Z.of_nat n - 1)) == inject_Z z')%Q.
Proof.
  intros Ha. unfold Qmin', Qmax'.
  destruct (Qle_bool a 0); destruct (Qle_bool _ _).
  - by exists 0.
  - by eexists.
  - by exists z.
  - by eexists.
Qed.

(** What is read back from what [saveToDisk] wrote *)
Lemma load_after_save (m : AccountManager) (d : disk) :
  Forall (fun a => refreshToken a <> EmptyString) (accounts m) ->
  NoDup (refreshToken <$> accounts m) ->
  active_in_range m ->
  loadAccounts (saveToDisk (m, d)).2
  = mkAccountStorage (List.map to_stored (accounts m))
      (default 0%Q (activeIndex m)).
Proof.
  intros Hne Hnd Hact. unfold saveToDisk. cbn [snd].
  unfold saveAccounts, loadAccounts.
  cbn [fd_accounts fd_activeIndex st_accounts st_activeIndex].
  rewrite valid_entries.
  2:{ apply Forall_forall. intros a [b [-> Hb]]%list_elem_of_fmap.
      rewrite Forall_forall in Hne. by apply Hne. }
  rewrite deduplicateAccounts_NoDup.
  2:{ change (List.map to_stored) with (fmap (M := list) to_stored).
      rewrite <- list_fmap_compose. exact Hnd. }
  f_equal. rewrite length_map. unfold active_in_range in Hact.
  destruct (activeIndex m) as [q|]; cbn [default].
  - destruct Hact as [Hq Hhi].
    destruct (accounts m) as [|a accs] eqn:Ea.
    + exfalso. assert (Hhi' : (q <= -1)%Q) by exact Hhi.
      destruct Hq as [->|Hq]; lra.
    + cbn [length Nat.ltb Nat.leb]. by apply clamp_fixed.
  - by rewrite Hact.
Qed.

Lemma loadAccounts_in_range (d : disk) :
  let s := loadAccounts d in
  (st_accounts s = [] /\ st_activeIndex s = 0%Q)
  \/ ((st_activeIndex s = 0%Q \/ (0 < st_activeIndex s)%Q)
      /\ (st_activeIndex s
          <= inject_Z (Z.of_nat (length (st_accounts s)) - 1))%Q).
Proof.
  unfold loadAccounts. destruct d as [data|]; [|by left].
  destruct (fd_accounts data) as [entries|]; [|by left]. cbn.
  destruct (deduplicateAccounts _) as [|a l] eqn:E; [by left|]. right.
  apply clamp_range. cbn. lia.
Qed.

Lemma manager_ok_load (w : world) :
  manager_ok w.1 -> manager_ok (load w).1 /\ loaded (load w).1 = true.
Proof.
  destruct w as [m d]. unfold load. cbn [fst].
  destruct (loaded m) eqn:Hl; [done|]. intros _. cbn.
  split; [|done]. split; [|done]. unfold active_in_range. cbn.
  rewrite length_imap.
  destruct (loadAccounts_in_range d) as [[Hnil _]|Hr].
  - by rewrite Hnil.
  - destruct (st_accounts (loadAccounts d)) as [|a l] eqn:E; [|done].
    exfalso. destruct Hr as [Hr Hhi].
    assert (Hhi' : (st_activeIndex (loadAccounts d) <= -1)%Q) by exact Hhi.
    destruct Hr as [Hr|Hr]; [rewrite Hr in Hhi'|]; lra.
Qed.

Lemma active_in_range_mono (m m' : AccountManager) :
  (length (accounts m) <= length (accounts m'))%nat ->
  activeIndex m' = activeIndex m ->
  activeIndex m <> None ->
  active_in_range m -> active_in_range m'.
Proof.
  unfold active_in_range. intros Hlen -> Hne.
  destruct (activeIndex m) as [q|]; [|done]. intros [Hq Hhi]. split; [done|].
  eapply Qle_trans; [exact Hhi|]. rewrite <- Zle_Qle. lia.
Qed.

Lemma manager_ok_frame (m m' : AccountManager) :
  length (accounts m') = length (accounts m) ->
  activeIndex m' = activeIndex m ->
  loaded m' = true ->
  manager_ok m -> manager_ok m'.
Proof.
  intros Hlen Hai Hl [Hact _]. split; [|congruence].
  unfold active_in_range in *. rewrite Hai, Hlen.
  destruct (activeIndex m); [done|].
  rewrite Hact in Hlen. by destruct (accounts m').
Qed.
Lemma manager_ok_unloaded_lookup (m : AccountManager) (idx : nat)
    (a : ManagedAccount) :
  manager_ok m -> accounts m !! idx = Some a -> loaded m = true.
Proof.
  intros [_ Hun] Hi. destruct (loaded m); [done|].
  rewrite (Hun eq_refl) in Hi. done.
Qed.


Lemma loadAccounts_integral (d : disk) :
  integral_index d -> is_Some (as_index (st_activeIndex (loadAccounts d))).
Proof.
  intros Hd. unfold loadAccounts. destruct d as [data|]; [|by eexists].
  destruct (fd_accounts data) as [entries|]; [|by eexists].
  cbn [st_activeIndex].
  destruct (0 <? length _)%nat eqn:Hlen; [|by eexists].
  apply Nat.ltb_lt in Hlen.
  assert (exists z, (default 0%Q (fd_activeIndex data) == inject_Z z)%Q)
    as [z Hz].
  { destruct (fd_activeIndex data) as [q|] eqn:Eq; [|by exists 0].
    by apply (Hd data q). }
  destruct (clamp_integral _ (length (deduplicateAccounts
              (omap (fun e : option StoredAccount =>
                       match e with
                       | Some a =>
                           if (0 <? String.length (sa_refreshToken a))%nat
                           then Some a else None
                       | None => None
                       end) entries))) z Hz) as [z' Hz'].
  pose proof (clamp_range (default 0%Q (fd_activeIndex data)) _ Hlen)
    as [Hpos _]. cbv zeta in Hpos.
  eexists. apply (as_index_integral _ z' Hz').
  destruct Hpos as [->|Hpos]; lra.
Qed.

Lemma active_integral_at_account (m : AccountManager) :
  active_in_range m -> active_integral m -> accounts m <> [] ->
  active_at_account m.
Proof.
  unfold active_in_range, active_integral, active_at_account, currentIndex.
  destruct (activeIndex m) as [q|]; [|done].
  intros [Hq Hhi] Hi _. destruct (Hi q eq_refl) as [i Hi'].
  exists i. split; [done|]. apply as_index_spec in Hi'.
  rewrite Hi' in Hhi. unfold of_index in Hhi. rewrite <- Zle_Qle in Hhi. lia.
Qed.

Lemma integral_index_saved (m : AccountManager) (d : disk) :
  active_integral m -> integral_index (saveToDisk (m, d)).2.
Proof.
  intros Hi data q [= <-]. cbn. intros [= <-].
  destruct (activeIndex m) as [q|] eqn:E; cbn; [|by exists 0].
  destruct (Hi q E) as [i Hq]. apply as_index_spec in Hq.
  by exists (Z.of_nat i).
Qed.

Lemma integral_load (w : world) :
  active_integral w.1 -> integral_index w.2 ->
  active_integral (load w).1 /\ integral_index (load w).2.
Proof.
  destruct w as [m d]. unfold load. cbn [fst snd].
  destruct (loaded m); [done|]. intros _ Hd. split; [|done].
  intros q. cbn [activeIndex fst].
  destruct (0 <? _)%nat; [|done]. intros [= <-].
  by apply loadAccounts_integral.
Qed.

Section RoundTrip.

Variable base64_decode : string -> string.
Variable JSON_parse : string -> option json.

Lemma manager_ok_addAccount (w : world) (now : Z) (tokens : TokenSuccess) :
  manager_ok w.1 ->
  manager_ok (addAccount base64_decode JSON_parse w now tokens).1.1.
Proof.
  intros Hok. destruct (manager_ok_load w Hok) as [[Hact Hun] Hl].
  unfold addAccount. destruct (load w) as [m d]. cbn [fst] in *.
  destruct (findIndex _ (accounts m)) as [i|].
  - destruct (accounts m !! i) as [existing|] eqn:Hi; cbn; [|done].
    split; [|cbn; congruence]. unfold active_in_range in *. cbn.
    rewrite length_insert. destruct (activeIndex m); [done|].
    by rewrite Hact in Hi.
  - cbn. rewrite length_app. cbn.
    destruct (Nat.eqb (length (accounts m) + 1) 1) eqn:He; cbn.
    + split; [|cbn; congruence]. unfold active_in_range. cbn.
      rewrite length_app. cbn. split; [by left|].
      change 0%Q with (inject_Z 0). rewrite <- Zle_Qle. lia.
    + split; [|cbn; congruence]. unfold active_in_range in *. cbn.
      rewrite length_app. cbn. destruct (activeIndex m).
      * destruct Hact as [Hq Hhi]. split; [done|].
        eapply Qle_trans; [exact Hhi|]. rewrite <- Zle_Qle. lia.
      * rewrite Hact in He. done.
Qed.

Lemma manager_ok_apply (w : world) (o : operation) :
  manager_ok w.1 ->
  manager_ok (apply_operation base64_decode JSON_parse w o).1.
Proof.
  intros Hok. destruct o as [now tokens|now idx|now idx reason|now idx|]; cbn.
  - by apply manager_ok_addAccount.
  - unfold recordSuccess. destruct (accounts w.1 !! idx) eqn:Hi; [|done].
    apply (manager_ok_frame w.1); [apply length_insert|done| |done].
    cbn [loaded scheduleSave]. by eapply manager_ok_unloaded_lookup.
  - unfold markRateLimited. destruct (accounts w.1 !! idx) eqn:Hi; [|done].
    apply (manager_ok_frame w.1); [apply length_insert|done| |done].
    cbn [loaded scheduleSave]. by eapply manager_ok_unloaded_lookup.
  - unfold recordFailure. destruct (accounts w.1 !! idx) eqn:Hi; [|done].
    apply (manager_ok_frame w.1); [apply length_insert|done| |done].
    cbn [loaded scheduleSave]. by eapply manager_ok_unloaded_lookup.
  - destruct w as [m d]. cbn in *. destruct (savePending m); [|done].
    cbn. destruct Hok as [Hact Hun]. done.
Qed.

Lemma manager_ok_run (ops : list operation) (w : world) :
  manager_ok w.1 ->
  manager_ok (run_operations base64_decode JSON_parse w ops).1.
Proof.
  revert w. induction ops as [|o ops IH]; intros w Hok; [done|].
  cbn. apply IH. by apply manager_ok_apply.
Qed.

Lemma integral_addAccount (w : world) (now : Z) (tokens : TokenSuccess) :
  active_integral w.1 -> integral_index w.2 ->
  let w' := (addAccount base64_decode JSON_parse w now tokens).1 in
  active_integral w'.1 /\ integral_index w'.2.
Proof.
  intros Ha Hd. destruct (integral_load w Ha Hd) as [Ha' Hd'].
  unfold addAccount. destruct (load w) as [m d]. cbn [fst snd] in *.
  destruct (findIndex _ (accounts m)) as [i|].
  - destruct (accounts m !! i) as [existing|] eqn:Hi; [|done].
    cbv zeta. cbn [fst]. split; [exact Ha'|].
    by apply integral_index_saved.
  - cbv zeta. cbn [fst].
    assert (forall m', active_integral m' ->
              active_integral
                (if Nat.eqb (length (accounts m')) 1
                 then with_activeIndex (Some 0%Q) m' else m')) as Hif.
    { intros m' Hm'. destruct (Nat.eqb _ 1); [|done].
      intros q [= <-]. by eexists. }
    split; [by apply Hif | apply integral_index_saved; by apply Hif].
Qed.

Lemma integral_apply (w : world) (o : operation) :
  active_integral w.1 -> integral_index w.2 ->
  let w' := apply_operation base64_decode JSON_parse w o in
  active_integral w'.1 /\ integral_index w'.2.
Proof.
  intros Ha Hd. destruct o as [now tokens|now idx|now idx reason|now idx|];
    cbn [apply_operation].
  - by apply integral_addAccount.
  - cbv zeta. cbn [fst snd]. split; [|done].
    unfold recordSuccess. by destruct (accounts w.1 !! idx).
  - cbv zeta. cbn [fst snd]. split; [|done].
    unfold markRateLimited. by destruct (accounts w.1 !! idx).
  - cbv zeta. cbn [fst snd]. split; [|done].
    unfold recordFailure. by destruct (accounts w.1 !! idx).
  - destruct w as [m d]. cbv zeta. unfold flush. cbn [fst snd] in *.
    destruct (savePending m); [|done].
    split; [exact Ha|]. by apply integral_index_saved.
Qed.

Lemma integral_run (ops : list operation) (w : world) :
  active_integral w.1 -> integral_index w.2 ->
  let w' := run_operations base64_decode JSON_parse w ops in
  active_integral w'.1 /\ integral_index w'.2.
Proof.
  revert w. induction ops as [|o ops IH]; intros w Ha Hd; [done|].
  cbn. destruct (integral_apply w o Ha Hd) as [Ha' Hd']. by apply IH.
Qed.

(** C5 (as the code has it). After any sequence of operations on a fresh
    manager, whatever the storage file held, if the accounts in memory have
    non-empty and pairwise different refresh tokens then saving and loading
    gives back exactly the stored form of these accounts, in order, and the
    active index ([0] for the [null] of an empty manager, which then has no
    account); with an account in memory the active index is set and lies
    between [0] and the last position, and it is the index of an account
    when the storage file held no fraction as its active index. *)
Theorem save_load_round_trip (strategy0 : AccountSelectionStrategy)
    (d0 : disk) (ops : list operation) :
  let w :=
    run_operations base64_decode JSON_parse (new_AccountManager strategy0, d0)
      ops in
  Forall (fun a => refreshToken a <> EmptyString) (accounts w.1) ->
  NoDup (refreshToken <$> accounts w.1) ->
  st_accounts (loadAccounts (saveToDisk w).2) = List.map to_stored (accounts w.1)
  /\ st_activeIndex (loadAccounts (saveToDisk w).2)
     = default 0%Q (activeIndex w.1)
  /\ (accounts w.1 <> [] ->
      exists q,
        activeIndex w.1 = Some q
        /\ (0 <= q <= inject_Z (Z.of_nat (length (accounts w.1)) - 1))%Q
        /\ (integral_index d0 -> active_at_account w.1)).
Proof.
  intros w Hne Hnd.
  assert (manager_ok w.1) as [Hact Hun].
  { apply manager_ok_run. split; [done|]. done. }
  assert (integral_index d0 -> active_integral w.1) as Hint.
  { intros Hd. by apply integral_run. }
  destruct w as [m d]. cbn [fst] in *.
  rewrite (load_after_save m d Hne Hnd Hact). cbn.
  split; [done|]. split; [done|].
  intros Hnonempty. pose proof Hact as Hact'. unfold active_in_range in Hact.
  destruct (activeIndex m) as [q|]; [|done]. destruct Hact as [Hq Hhi].
  exists q. split; [done|]. split; [destruct Hq as [->|Hq]; lra|].
  intros Hd. by apply active_integral_at_account; [| apply Hint|].
Qed.

End RoundTrip.

(** ** [accounts[i].index = i] is an invariant of the manager *)

Lemma well_indexed_imap (l : list StoredAccount) :
  well_indexed (imap to_managed l).
Proof.
  intros i a. rewrite list_lookup_imap.
  destruct (l !! i); cbn; [by intros [= <-] | done].
Qed.

Lemma well_indexed_insert (accs : list ManagedAccount) (i : nat)
    (a a' : ManagedAccount) :
  well_indexed accs -> accs !! i = Some a -> index a' = index a ->
  well_indexed (<[i := a']> accs).
Proof.
  intros Hw Hi Hidx j b Hj.
  destruct (decide (j = i)) as [->|Hne].
  - rewrite list_lookup_insert_eq in Hj by (by eapply lookup_lt_Some).
    injection Hj as <-. rewrite Hidx. by apply Hw.
  - rewrite list_lookup_insert_ne in Hj by done. by apply Hw.
Qed.

Lemma well_indexed_snoc (accs : list ManagedAccount) (a : ManagedAccount) :
  well_indexed accs -> index a = length accs -> well_indexed (accs ++ [a]).
Proof.
  intros Hw Hidx j b Hj.
  apply lookup_app_Some in Hj as [Hj|[Hlen Hj]]; [by apply Hw|].
  apply list_lookup_singleton_Some in Hj as [Hj <-]. lia.
Qed.

Lemma well_indexed_load (w : world) :
  manager_ok w.1 -> well_indexed (accounts w.1) ->
  well_indexed (accounts (load w).1).
Proof.
  destruct w as [m d]. unfold load. cbn [fst].
  destruct (loaded m); [done|]. intros _ _. cbn. apply well_indexed_imap.
Qed.

Section IndexInvariant.

Variable base64_decode : string -> string.
Variable JSON_parse : string -> option json.

Lemma well_indexed_apply (w : world) (o : operation) :
  manager_ok w.1 -> well_indexed (accounts w.1) ->
  well_indexed (accounts (apply_operation base64_decode JSON_parse w o).1).
Proof.
  intros Hok Hw.
  destruct o as [now tokens|now idx|now idx reason|now idx|]; cbn.
  - pose proof (well_indexed_load w Hok Hw) as Hl.
    unfold addAccount. destruct (load w) as [m d]. cbn [fst] in *.
    destruct (findIndex _ (accounts m)) as [i|].
    + destruct (accounts m !! i) as [existing|] eqn:Hi; cbn; [|done].
      by eapply well_indexed_insert.
    + cbn. destruct (Nat.eqb _ 1); cbn; by apply well_indexed_snoc.
  - unfold recordSuccess. destruct (accounts w.1 !! idx) eqn:Hi; [|done].
    cbn. by eapply well_indexed_insert.
  - unfold markRateLimited. destruct (accounts w.1 !! idx) eqn:Hi; [|done].
    cbn. by eapply well_indexed_insert.
  - unfold recordFailure. destruct (accounts w.1 !! idx) eqn:Hi; [|done].
    cbn. by eapply well_indexed_insert.
  - destruct w as [m d]. cbn in *. by destruct (savePending m).
Qed.

(** Every state the operations reach from a fresh manager is well indexed. *)
Lemma well_indexed_run (strategy0 : AccountSelectionStrategy) (d0 : disk)
    (ops : list operation) :
  well_indexed
    (accounts
       (run_operations base64_decode JSON_parse
          (new_AccountManager strategy0, d0) ops).1).
Proof.
  assert (forall w, manager_ok w.1 -> well_indexed (accounts w.1) ->
            well_indexed
              (accounts (run_operations base64_decode JSON_parse w ops).1))
    as Hrun.
  { induction ops as [|o ops IH]; intros w Hok Hw; [done|].
    cbn. apply IH; [by apply manager_ok_apply | by apply well_indexed_apply]. }
  apply Hrun; [by split | by intros i a].
Qed.

End IndexInvariant.

(** [selectAccount] keeps the accounts well indexed. *)
Lemma well_indexed_selectAccount (m : AccountManager) (now : Z) :
  well_indexed (accounts m) -> well_indexed (accounts (selectAccount m now).1).
Proof.
  intros Hw. pose proof (snapshot_well_indexed m now Hw) as Hs.
  unfold selectAccount. destruct (accounts m) eqn:Hacc.
  { cbn [fst]. by rewrite Hacc. }
  destruct (snapshot m now) as [ms accs]. cbn [snd] in Hs.
  destruct (run_selector m now ms); [done|].
  by destruct (List.filter enabled accs).
Qed.

Lemma save_load_round_trip_witness :
  let w :=
    run_operations (fun s => s) read_json (new_AccountManager hybrid, None)
      [ AddAccount 1000 (mkTokenSuccess "a0" "r0" 9000);
        AddAccount 2000 (mkTokenSuccess "a1" "r1" 9000);
        RecordSuccess 3000 1;
        MarkRateLimited 4000 0 USAGE_LIMIT_REACHED;
        RecordFailure 5000 1 ] in
  st_accounts (loadAccounts (saveToDisk w).2) = List.map to_stored (accounts w.1).
Proof.
  intros w.
  refine (proj1 (save_load_round_trip (fun s => s) read_json hybrid None
                   _ _ _)).
  - repeat constructor; by vm_compute.
  - vm_compute. repeat constructor; cbn; intros H; repeat
      (apply elem_of_cons in H as [H|H]; [discriminate H|]);
      by apply elem_of_nil in H.
Defined.

(** C5 (as the spec words it) fails.  An account added with an empty refresh
    token is in memory but is discarded by the load; and the [null] active
    index of an empty manager comes back as [0]. *)
Lemma save_load_loses_empty_refresh_token :
  let w :=
    run_operations (fun s => s) read_json (new_AccountManager hybrid, None)
      [ AddAccount 1000 (mkTokenSuccess "a0" EmptyString 9000) ] in
  let w0 : world := (new_AccountManager hybrid, None) in
  List.map to_stored (accounts w.1)
  = [ mkStoredAccount None EmptyString (Some "a0") (Some 9000) None 1000 0 true
        None None O ]
  /\ st_accounts (loadAccounts (saveToDisk w).2) = []
  /\ activeIndex w0.1 = None
  /\ st_activeIndex (loadAccounts (saveToDisk w0).2) = 0%Q.
Proof. by vm_compute. Qed.

(** An active index that the storage file holds as a fraction is kept as it
    is, in memory and in the file; it is the index of no account. *)
Example fraction_as_active_index :
  let stored token :=
    mkStoredAccount None token None None None 0 0 true None None O in
  let d1 : disk :=
    Some (mkFileDocument
            (Some [Some (stored "r0"); Some (stored "r1"); Some (stored "r2")])
            (Some (3 # 2)%Q)) in
  let w1 :=
    run_operations (fun s => s) read_json (new_AccountManager hybrid, d1)
      [ AddAccount 1000 (mkTokenSuccess "a0" "r0" 9000) ] in
  length (accounts w1.1) = 3%nat
  /\ activeIndex w1.1 = Some (3 # 2)%Q
  /\ getActiveAccount w1.1 = None
  /\ st_activeIndex (loadAccounts (saveToDisk w1).2) = (3 # 2)%Q.
Proof. by vm_compute. Qed.

(** ** Error responses *)

(** *** Lower case *)

Lemma lower_ascii_idem (c : ascii) :
  Js.lower_ascii (Js.lower_ascii c) = Js.lower_ascii c.
Proof. by destruct c as [[] [] [] [] [] [] [] []]. Qed.

(** Lower-casing a byte leaves the bytes beyond ASCII alone and makes
    none. *)
Lemma lower_ascii_code (c : ascii) (n : N) :
  (128 <= n)%N ->
  (Ascii.N_of_ascii (Js.lower_ascii c) =? n)%N = (Ascii.N_of_ascii c =? n)%N.
Proof.
  intros Hn. unfold Js.lower_ascii.
  destruct ((65 <=? Ascii.N_of_ascii c) && (Ascii.N_of_ascii c <=? 90))%N
    eqn:E; [|done].
  apply andb_prop in E as [E1%N.leb_le E2%N.leb_le].
  rewrite Ascii.N_ascii_embedding by lia.
  destruct (N.eqb_spec (Ascii.N_of_ascii c + 32) n);
    destruct (N.eqb_spec (Ascii.N_of_ascii c) n); try done; lia.
Qed.

Lemma dotted_I_lower (c c1 : ascii) :
  Js.dotted_I (Js.lower_ascii c) c1 = Js.dotted_I c c1.
Proof. unfold Js.dotted_I. by rewrite lower_ascii_code. Qed.

Lemma kelvin_lower (c c1 c2 : ascii) :
  Js.kelvin (Js.lower_ascii c) c1 c2 = Js.kelvin c c1 c2.
Proof. unfold Js.kelvin. by rewrite lower_ascii_code. Qed.

(** A byte that starts neither of the two special characters is lower-cased
    on its own. *)
Lemma toLowerCase_plain (c : ascii) (s : string) :
  (Ascii.N_of_ascii c =? 196)%N = false ->
  (Ascii.N_of_ascii c =? 226)%N = false ->
  Js.toLowerCase (String c s) = String (Js.lower_ascii c) (Js.toLowerCase s).
Proof.
  intros H1 H2. rewrite Js.toLowerCase_equation.
  destruct s as [|c1 [|c2 s3]]; [done| |];
    unfold Js.dotted_I, Js.kelvin; by rewrite ?H1, ?H2.
Qed.

(** The first byte of a lower-cased text: an ASCII letter, or the
    lower-cased first byte of the text, with the rest lower-cased behind
    it. *)
Lemma toLowerCase_head (c : ascii) (s : string) :
  exists d t,
    Js.toLowerCase (String c s) = String d t
    /\ ((Ascii.N_of_ascii d <? 128)%N = true
        \/ (d = Js.lower_ascii c /\ t = Js.toLowerCase s)).
Proof.
  rewrite Js.toLowerCase_equation.
  destruct s as [|c1 [|c2 s3]].
  - eexists _, _. split; [done|]. by right.
  - destruct (Js.dotted_I c c1); eexists _, _; (split; [done|]);
      [by left|by right].
  - destruct (Js.dotted_I c c1); [eexists _, _; split; [done|by left]|].
    destruct (Js.kelvin c c1 c2); eexists _, _; (split; [done|]);
      [by left|by right].
Qed.

Lemma toLowerCase_idem (s : string) :
  Js.toLowerCase (Js.toLowerCase s) = Js.toLowerCase s.
Proof.
  assert (Hstep : forall c s1,
            Js.toLowerCase (Js.toLowerCase s1) = Js.toLowerCase s1 ->
            match s1 with
            | String c1 s2 =>
                Js.dotted_I c c1 = false
                /\ match s2 with
                   | String c2 _ => Js.kelvin c c1 c2 = false
                   | EmptyString => True
                   end
            | EmptyString => True
            end ->
            Js.toLowerCase (String (Js.lower_ascii c) (Js.toLowerCase s1))
            = String (Js.lower_ascii c) (Js.toLowerCase s1)).
  { intros c s1 IH Hs.
    rewrite Js.toLowerCase_equation.
    destruct s1 as [|c1 s2]; [by rewrite lower_ascii_idem|].
    destruct Hs as [Hi Hk].
    destruct (toLowerCase_head c1 s2) as (d & t & Ht & Hd).
    rewrite Ht in IH |- *.
    assert (Js.dotted_I (Js.lower_ascii c) d = false) as ->.
    { rewrite dotted_I_lower. destruct Hd as [Hd|[-> _]].
      - unfold Js.dotted_I. apply N.ltb_lt in Hd.
        destruct (N.eqb_spec (Ascii.N_of_ascii d) 176); [lia|].
        apply andb_false_r.
      - unfold Js.dotted_I in *. by rewrite lower_ascii_code. }
    assert (match t with
            | String d2 _ => Js.kelvin (Js.lower_ascii c) d d2 = false
            | EmptyString => True
            end) as Hk'.
    { destruct t as [|d2 t']; [done|]. rewrite kelvin_lower.
      destruct Hd as [Hd|[-> Hts]].
      - unfold Js.kelvin. apply N.ltb_lt in Hd.
        destruct (N.eqb_spec (Ascii.N_of_ascii d) 132); [lia|].
        by rewrite andb_false_r.
      - destruct s2 as [|c2 s3]; [done|].
        destruct (toLowerCase_head c2 s3) as (e & u & Hu & He).
        rewrite Hu in Hts. injection Hts as -> ->.
        unfold Js.kelvin in *. rewrite lower_ascii_code by done.
        destruct He as [He|[-> _]].
        + apply N.ltb_lt in He.
          destruct (N.eqb_spec (Ascii.N_of_ascii e) 170); [lia|].
          apply andb_false_r.
        + by rewrite lower_ascii_code. }
    destruct t as [|d2 t']; rewrite lower_ascii_idem.
    - by rewrite IH.
    - rewrite Hk'. by rewrite IH. }
  functional induction (Js.toLowerCase s).
  - done.
  - by rewrite Js.toLowerCase_equation, lower_ascii_idem.
  - rewrite !toLowerCase_plain by done. by rewrite IHs0.
  - rewrite toLowerCase_plain by done. by rewrite IHs0.
  - apply Hstep; [done|]. by split.
  - apply Hstep; [done|]. by split.
Qed.

(** Lower-casing goes through an ASCII character: none of the special
    characters lies across it. *)
Lemma toLowerCase_app_sep (a b : string) (c : ascii) :
  (Ascii.N_of_ascii c <? 128)%N = true ->
  Js.toLowerCase (a +:+ String c b)
  = Js.toLowerCase a +:+ String (Js.lower_ascii c) (Js.toLowerCase b).
Proof.
  intros Hc%N.ltb_lt.
  assert (Hplain : Js.toLowerCase (String c b)
                   = String (Js.lower_ascii c) (Js.toLowerCase b)).
  { apply toLowerCase_plain;
      [destruct (N.eqb_spec (Ascii.N_of_ascii c) 196)
      |destruct (N.eqb_spec (Ascii.N_of_ascii c) 226)]; try done; lia. }
  assert (Hi : forall x, Js.dotted_I x c = false).
  { intros x. unfold Js.dotted_I.
    destruct (N.eqb_spec (Ascii.N_of_ascii c) 176); [lia|].
    apply andb_false_r. }
  assert (Hk1 : forall x y, Js.kelvin x c y = false).
  { intros x y. unfold Js.kelvin.
    destruct (N.eqb_spec (Ascii.N_of_ascii c) 132); [lia|].
    by rewrite andb_false_r. }
  assert (Hk2 : forall x y, Js.kelvin x y c = false).
  { intros x y. unfold Js.kelvin.
    destruct (N.eqb_spec (Ascii.N_of_ascii c) 170); [lia|].
    apply andb_false_r. }
  functional induction (Js.toLowerCase a); cbn [String.append].
  - done.
  - rewrite Js.toLowerCase_equation, Hi.
    destruct b as [|b0 b']; [by rewrite Hplain|]. by rewrite Hk1, Hplain.
  - rewrite Js.toLowerCase_equation, e0. by rewrite IHs.
  - rewrite Js.toLowerCase_equation, e0. cbn [String.append].
    rewrite e2. by rewrite IHs.
  - rewrite Js.toLowerCase_equation, e0. cbn [String.append].
    rewrite e2. cbn [String.append] in IHs. by rewrite IHs.
  - rewrite Js.toLowerCase_equation, e0. cbn [String.append].
    rewrite Hk2. cbn [String.append] in IHs. by rewrite IHs.
Qed.

Lemma truthy_lower (s : string) : Js.truthy (Js.toLowerCase s) = Js.truthy s.
Proof. by functional induction (Js.toLowerCase s). Qed.

Lemma includes_app_l (t s p : string) :
  Js.includes s p = true -> Js.includes (t +:+ s) p = true.
Proof.
  intros H. induction t as [|c t IH]; cbn; [done|].
  rewrite IH. apply orb_true_r.
Qed.

Lemma regex_alternatives_test_lower (alts : list string) (s : string) :
  Forall (fun a => Js.toLowerCase a = a) alts ->
  regex_alternatives_test alts (Js.toLowerCase s)
  = List.existsb (Js.includes (Js.toLowerCase s)) alts.
Proof.
  unfold regex_alternatives_test. rewrite toLowerCase_idem.
  induction 1 as [|a alts Ha _ IH]; cbn; [done|]. by rewrite Ha, IH.
Qed.

Lemma patterns_lower :
  Forall (fun a => Js.toLowerCase a = a) USAGE_LIMIT_404_PATTERNS.
Proof. repeat constructor. Qed.

Section ErrorResponses.

Variable JSON_parse : string -> option json.
Variable body_text : list string -> string.

(** C2 (as the code has it). A 404 response is surfaced with status 429
    exactly when its body is not empty and the lower-cased text
    [code + " " + body] ([code] being [error.code], else [error.type], of the
    body read as JSON, else empty) contains one of [usage_limit_reached],
    [usage_not_included], [rate_limit_exceeded], ["usage limit"]; a body that
    itself contains one of the four is therefore remapped.  The remapped
    response keeps headers and body; any other 404 is surfaced as it is. *)
Theorem handleErrorResponse_404 (r : Response) :
  status r = 404 ->
  let text := response_text body_text r in
  let haystack :=
    Js.toLowerCase (error_code JSON_parse text +:+ " " +:+ text) in
  (status (handleErrorResponse JSON_parse body_text r) = 429
   <-> text <> EmptyString
       /\ exists p, In p USAGE_LIMIT_404_PATTERNS
                    /\ Js.includes haystack p = true)
  /\ (status (handleErrorResponse JSON_parse body_text r) = 429 ->
      handleErrorResponse JSON_parse body_text r
      = mkResponse 429 "Too Many Requests" (headers r) (body r))
  /\ (status (handleErrorResponse JSON_parse body_text r) <> 429 ->
      handleErrorResponse JSON_parse body_text r = r)
  /\ (text <> EmptyString ->
      (exists p, In p USAGE_LIMIT_404_PATTERNS
                 /\ Js.includes (Js.toLowerCase text) p = true) ->
      status (handleErrorResponse JSON_parse body_text r) = 429).
Proof.
  intros Hs text haystack.
  assert (handleErrorResponse JSON_parse body_text r
          = if Js.truthy text
               && List.existsb (Js.includes haystack) USAGE_LIMIT_404_PATTERNS
            then mkResponse 429 "Too Many Requests" (headers r) (body r)
            else r) as Hres.
  { unfold handleErrorResponse, mapUsageLimit404. rewrite Hs.
    change (404 =? HTTP_STATUS_NOT_FOUND) with true. cbn [negb].
    fold text. destruct (Js.truthy text); [|done]. cbn [negb andb].
    fold haystack. unfold haystack at 1.
    rewrite (regex_alternatives_test_lower _ _ patterns_lower). fold haystack.
    by destruct (List.existsb _ _). }
  assert (Js.truthy text = true <-> text <> EmptyString) as Htruthy
    by (by destruct text).
  assert (List.existsb (Js.includes haystack) USAGE_LIMIT_404_PATTERNS = true
          <-> exists p, In p USAGE_LIMIT_404_PATTERNS
                        /\ Js.includes haystack p = true) as Hex
    by apply existsb_exists.
  rewrite Hres.
  destruct (Js.truthy text && List.existsb _ _) eqn:Hc.
  - apply andb_prop in Hc as [Ht He]. cbn [status].
    split; [split; [intros _; split; [by apply Htruthy | by apply Hex]|done]|].
    split; [done|]. split; [done|]. done.
  - cbn [status]. rewrite Hs.
    split.
    { split; [done|]. intros [Ht He]. exfalso.
      apply Htruthy in Ht. apply Hex in He. rewrite Ht, He in Hc. done. }
    split; [done|]. split; [done|].
    intros Ht (p & Hp & Hinc). exfalso.
    apply Htruthy in Ht. rewrite Ht in Hc. cbn [andb] in Hc.
    assert (List.existsb (Js.includes haystack) USAGE_LIMIT_404_PATTERNS = true)
      as He; [|by rewrite He in Hc].
    apply Hex. exists p. split; [done|]. unfold haystack.
    change (" " +:+ text) with (String " "%char text).
    rewrite (toLowerCase_app_sep _ _ " ") by done.
    apply includes_app_l. by apply (includes_app_l " ").
Qed.

End ErrorResponses.

Example remap_404_scenario :
  handleErrorResponse read_json concat_chunks
    (mkResponse 404 "Not Found" []
       (Some [dq "{'error':{'code':'usage_limit_reached'}}"]))
  = mkResponse 429 "Too Many Requests" []
      (Some [dq "{'error':{'code':'usage_limit_reached'}}"]).
Proof. by vm_compute. Qed.

Lemma handleErrorResponse_404_witness :
  let r := mkResponse 404 "Not Found" [] (Some ["usage limit hit"]) in
  status (handleErrorResponse read_json concat_chunks r) = 429.
Proof.
  intros r.
  refine (proj2 (proj2 (proj2 (handleErrorResponse_404 read_json
                                 concat_chunks r eq_refl))) _ _).
  - discriminate.
  - exists "usage limit". split; [right; right; right; by left | by vm_compute].
Defined.

(** C2 (as the spec words it) fails in both directions: a 404 whose body
    matches the classifier's [USAGE_LIMIT_REACHED] patterns through [quota]
    or [exhausted] keeps status 404, and a 404 whose body only says
    [rate_limit_exceeded], which the classifier does not count as a usage
    limit, is remapped to 429. *)
Lemma remap_404_is_not_the_classifier_test :
  let quota := mkResponse 404 "Not Found" [] (Some ["Quota exhausted"]) in
  let rate :=
    mkResponse 404 "Not Found" []
      (Some [dq "{'error':{'code':'rate_limit_exceeded'}}"]) in
  usage_limit_body (response_text concat_chunks quota) = true
  /\ classifyRateLimitReason 404 (response_text concat_chunks quota)
     = USAGE_LIMIT_REACHED
  /\ status (handleErrorResponse read_json concat_chunks quota) = 404
  /\ usage_limit_body (response_text concat_chunks rate) = false
  /\ status (handleErrorResponse read_json concat_chunks rate) = 429.
Proof. by vm_compute. Qed.

(** ** SSE to JSON *)

Section SseFacts.

Variable JSON_parse : string -> option json.
Variable JSON_stringify : json -> string.
Variable decode_stream : list string -> string.

Lemma first_completion_skip (pre rest : list string) :
  (forall l, l ∈ pre -> ~ completion_line JSON_parse l) ->
  first_completion JSON_parse (pre ++ rest) = first_completion JSON_parse rest.
Proof.
  induction pre as [|l pre IH]; intros Hpre; [done|]. cbn.
  assert (first_completion JSON_parse (pre ++ rest)
          = first_completion JSON_parse rest) as ->.
  { apply IH. intros l' Hl'. apply Hpre. by right. }
  destruct (sse_data JSON_parse l) as [data|] eqn:Hd; [|done].
  destruct (is_completion data) eqn:Hc; [|done].
  exfalso. apply (Hpre l); [by left|]. by exists data.
Qed.

Lemma first_completion_none (lines : list string) :
  (forall l, l ∈ lines -> ~ completion_line JSON_parse l) ->
  first_completion JSON_parse lines = None.
Proof.
  intros H. rewrite <- (app_nil_r lines). by rewrite first_completion_skip.
Qed.

Lemma headers_has_set (n v : string) (h : Headers) :
  headers_has n (headers_set n v h) = true.
Proof.
  induction h as [|[n' v'] h IH]; cbn; [by rewrite String.eqb_refl|].
  destruct (String.eqb n' n) eqn:E; cbn; [by rewrite String.eqb_refl|].
  by rewrite E.
Qed.

(** C8 (as the code has it). For a response with a body, whose text is what
    the decoder makes of its chunks: if the first line of the text that
    carries a completion event ([response.done] or [response.completed]) has
    a truthy [response] value [R], the converter answers one response whose
    body is [JSON.stringify(R)], with the JSON content type and the original
    status; and if no line carries a completion event, it answers the text
    with the original status and the headers it was given, to which the
    [Response] constructor adds the content type of a text when they name
    none. *)
Theorem convertSseToJson_first_completion (r : Response) (hs : Headers)
    (chunks : list string) :
  body r = Some chunks ->
  let fullText := decode_stream chunks in
  let lines := Js.split fullText Js.LF in
  (forall pre line post data R,
     lines = pre ++ line :: post ->
     (forall l, l ∈ pre -> ~ completion_line JSON_parse l) ->
     sse_data JSON_parse line = Some data -> is_completion data = true ->
     jprop data "response" = Some R -> jtruthy R = true ->
     convertSseToJson JSON_parse JSON_stringify decode_stream r hs
     = Some (mkResponse (status r) (statusText r)
               (headers_set "content-type" "application/json; charset=utf-8"
                  hs)
               (Some [JSON_stringify R])))
  /\ ((forall l, l ∈ lines -> ~ completion_line JSON_parse l) ->
      convertSseToJson JSON_parse JSON_stringify decode_stream r hs
      = Some (mkResponse (status r) (statusText r)
                (if headers_has "content-type" hs then hs
                 else hs ++ [("content-type", "text/plain;charset=UTF-8")])
                (Some [fullText]))).
Proof.
  intros Hb fullText lines. unfold convertSseToJson, parseSseStream.
  rewrite Hb. fold fullText. fold lines. split.
  - intros pre line post data R Hlines Hpre Hd Hc HR Ht.
    rewrite Hlines, (first_completion_skip _ _ Hpre). cbn [first_completion].
    rewrite Hd, Hc, HR, Ht. unfold Response_of_text.
    by rewrite headers_has_set.
  - intros Hnone. by rewrite (first_completion_none _ Hnone).
Qed.

End SseFacts.

Example sse_to_json_scenario :
  convertSseToJson read_json write_json concat_chunks
    (ex_sse [ "event: response.created";
              "data: {'type':'response.created','response':{'id':'r1'}}";
              "";
              "data: {'type':'response.completed','response':{'id':'r1','n':2}}";
              "" ])
    [("content-type", "text/event-stream")]
  = Some (mkResponse 200 "OK"
            [("content-type", "application/json; charset=utf-8")]
            (Some [dq "{'id':'r1','n':2}"])).
Proof. by vm_compute. Qed.

Lemma convertSseToJson_first_completion_witness :
  let r := ex_sse [ "data: {'type':'response.completed','response':{'id':'r1'}}" ]
  in
  convertSseToJson read_json write_json concat_chunks r []
  = Some (mkResponse 200 "OK"
            [("content-type", "application/json; charset=utf-8")]
            (Some [write_json (JObj [("id", JStr "r1")])])).
Proof.
  intros r.
  refine (proj1 (convertSseToJson_first_completion read_json write_json
                   concat_chunks r [] _ eq_refl)
            [] _ [] (JObj [("type", JStr "response.completed");
                           ("response", JObj [("id", JStr "r1")])])
            (JObj [("id", JStr "r1")]) _ _ _ _ _ _).
  - by vm_compute.
  - intros l Hl. by apply elem_of_nil in Hl.
  - by vm_compute.
  - reflexivity.
  - reflexivity.
  - reflexivity.
Defined.

(** C8 (as the spec words it) fails: when an earlier line carries a
    completion event, its response is the one emitted, not the response of
    the last event line; and a last event whose response is falsy or absent
    gives the raw text. *)
Lemma convertSseToJson_emits_first_not_last :
  let r :=
    ex_sse [ "data: {'type':'response.done','response':{'id':'first'}}";
             "data: {'type':'response.completed','response':{'id':'last'}}" ] in
  let r0 := ex_sse [ "data: {'type':'response.completed','response':0}" ] in
  let convert := convertSseToJson read_json write_json concat_chunks in
  (body <$> convert r []) = Some (Some [dq "{'id':'first'}"])
  /\ (body <$> convert r []) <> Some (Some [dq "{'id':'last'}"])
  /\ (body <$> convert r0 [])
     = Some (Some [dq "data: {'type':'response.completed','response':0}"]).
Proof. by vm_compute. Qed.

(** * Further properties *)

(** ** Token bucket *)

Lemma Qmin'_le_l (a b : Q) : (Qmin' a b <= a)%Q.
Proof.
  unfold Qmin'. destruct (Qle_bool a b) eqn:E.
  - lra.
  - apply Qle_bool_false in E. lra.
Qed.

Lemma Qmin'_le_r (a b : Q) : (Qmin' a b <= b)%Q.
Proof.
  unfold Qmin'. destruct (Qle_bool a b) eqn:E.
  - by apply Qle_bool_iff in E.
  - lra.
Qed.

Lemma Qmin'_r (a b : Q) : (b <= a)%Q -> (Qmin' a b == b)%Q.
Proof.
  intros H. unfold Qmin'. destruct (Qle_bool a b) eqn:E.
  - apply Qle_bool_iff in E. lra.
  - lra.
Qed.

Lemma Qmin'_glb (a b c : Q) : (c <= a)%Q -> (c <= b)%Q -> (c <= Qmin' a b)%Q.
Proof. intros. unfold Qmin'. by destruct (Qle_bool a b). Qed.

Lemma getTokens_le_max (t : TokenBucketTracker) (now : Z) (i : nat) :
  (initialTokens (tb_config t) <= maxTokens (tb_config t))%Q ->
  (Bucket.getTokens t now i <= maxTokens (tb_config t))%Q.
Proof.
  intros H. unfold Bucket.getTokens. destruct (buckets t !! i); [|done].
  apply Qmin'_le_l.
Qed.

(** The count read back at the instant of a write is the count written, as
    long as it does not exceed the capacity. *)
Lemma getTokens_written (t : TokenBucketTracker) (now : Z) (i : nat) (v : Q) :
  (v <= maxTokens (tb_config t))%Q ->
  (Bucket.getTokens
     (mkTokenBucketTracker (<[i := mkTokenBucketState v now]> (buckets t))
        (tb_config t)) now i == v)%Q.
Proof.
  intros H. unfold Bucket.getTokens.
  cbn [buckets tb_config]. rewrite lookup_insert_eq.
  cbn [tb_tokens tb_lastUpdated]. rewrite Z.sub_diag.
  rewrite Qmin'_r.
  - unfold inject_Z. field.
  - assert (E : (inject_Z 0 / 60000
                  * regenerationRatePerMinute (tb_config t) == 0)%Q)
      by (unfold inject_Z; field).
    rewrite E. lra.
Qed.

(** X1. [consume] succeeds exactly when the bucket holds at least [cost]
    tokens; a refused call changes nothing, a successful one lowers the count
    of that account by exactly [cost] and leaves every other account's bucket
    alone. *)
Theorem Bucket_consume_spec (t : TokenBucketTracker) (now : Z) (i : nat)
    (cost : Q) :
  (initialTokens (tb_config t) <= maxTokens (tb_config t))%Q ->
  (0 <= cost)%Q ->
  let r := Bucket.consume t now i cost in
  (r.2 = true <-> (cost <= Bucket.getTokens t now i)%Q)
  /\ (r.2 = false -> r.1 = t)
  /\ (r.2 = true ->
      (Bucket.getTokens r.1 now i == Bucket.getTokens t now i - cost)%Q)
  /\ (forall (j : nat) now', j <> i ->
        Bucket.getTokens r.1 now' j = Bucket.getTokens t now' j).
Proof.
  intros Hcfg Hcost r. subst r. unfold Bucket.consume.
  pose proof (getTokens_le_max t now i Hcfg) as Hmax.
  destruct (Qltb (Bucket.getTokens t now i) cost) eqn:E; cbn [fst snd].
  - apply Qltb_true in E. repeat split; try done.
    intros H. lra.
  - apply Qltb_false in E. repeat split; try done.
    + intros _. apply getTokens_written. lra.
    + intros j now' Hj. unfold Bucket.getTokens. cbn [buckets tb_config].
      by rewrite lookup_insert_ne.
Qed.

Lemma Bucket_consume_spec_witness :
  (Bucket.consume new_TokenBucketTracker 0 O 1).2 = true
  <-> (1 <= Bucket.getTokens new_TokenBucketTracker 0 O)%Q.
Proof.
  apply (Bucket_consume_spec new_TokenBucketTracker 0 O 1); by vm_compute.
Defined.

(** ** Health scores and token counts stay in range *)

Lemma health_inv_mono (t : HealthScoreTracker) (T T' : Z) :
  T <= T' -> health_inv t T -> health_inv t T'.
Proof.
  intros HT [Hc Hs]. split; [done|]. intros i s Hi.
  destruct (Hs i s Hi). lia.
Qed.

Lemma bucket_inv_mono (t : TokenBucketTracker) (T T' : Z) :
  T <= T' -> bucket_inv t T -> bucket_inv t T'.
Proof.
  intros HT [Hc Hs]. split; [done|]. intros i s Hi.
  destruct (Hs i s Hi). split; [done|lia].
Qed.

Lemma getScore_in_range (t : HealthScoreTracker) (T now : Z) (i : nat) :
  health_inv t T -> T <= now -> 0 <= Health.getScore t now i <= 100.
Proof.
  intros [Hc Hs] HT. unfold Health.getScore. rewrite Hc.
  cbn [initial recoveryRatePerHour maxScore DEFAULT_HEALTH_CONFIG].
  destruct (scores t !! i) as [s|] eqn:E; [|lia].
  destruct (Hs i s E) as [Hr Hu].
  assert (0 <= (now - hs_lastUpdated s) * 2 / 3600000)
    by (apply Z.div_pos; lia).
  lia.
Qed.

Lemma health_inv_write (t : HealthScoreTracker) (T now : Z) (i : nat)
    (v : Z) (n : nat) :
  health_inv t T -> T <= now -> 0 <= v <= 100 ->
  health_inv
    (mkHealthScoreTracker (<[i := mkHealthState v now n]> (scores t))
       (hs_config t)) now.
Proof.
  intros [Hc Hs] HT Hv. split; [done|]. cbn [scores]. intros j s.
  destruct (decide (j = i)) as [->|Hne].
  - rewrite lookup_insert_eq. intros [= <-]. cbn. lia.
  - rewrite lookup_insert_ne by done. intros Hj.
    destruct (Hs j s Hj). lia.
Qed.

Lemma health_inv_recordSuccess (t : HealthScoreTracker) (T now : Z) (i : nat) :
  health_inv t T -> T <= now -> health_inv (Health.recordSuccess t now i) now.
Proof.
  intros Hi HT. pose proof (getScore_in_range t T now i Hi HT).
  unfold Health.recordSuccess. apply (health_inv_write t T); [done..|].
  destruct Hi as [-> _]. cbn. lia.
Qed.

Lemma health_inv_recordRateLimit (t : HealthScoreTracker) (T now : Z)
    (i : nat) :
  health_inv t T -> T <= now -> health_inv (Health.recordRateLimit t now i) now.
Proof.
  intros Hi HT. pose proof (getScore_in_range t T now i Hi HT).
  unfold Health.recordRateLimit. apply (health_inv_write t T); [done..|].
  destruct Hi as [-> _]. cbn. lia.
Qed.

Lemma health_inv_recordFailure (t : HealthScoreTracker) (T now : Z) (i : nat) :
  health_inv t T -> T <= now -> health_inv (Health.recordFailure t now i) now.
Proof.
  intros Hi HT. pose proof (getScore_in_range t T now i Hi HT).
  unfold Health.recordFailure. apply (health_inv_write t T); [done..|].
  destruct Hi as [-> _]. cbn. lia.
Qed.

Lemma health_inv_reset (t : HealthScoreTracker) (T : Z) (i : nat) :
  health_inv t T -> health_inv (Health.reset t i) T.
Proof.
  intros [Hc Hs]. split; [done|]. cbn [Health.reset scores]. intros j s Hj.
  apply (Hs j). destruct (decide (j = i)) as [->|Hne].
  - by rewrite lookup_delete_eq in Hj.
  - by rewrite lookup_delete_ne in Hj.
Qed.

Lemma getTokens_in_range (t : TokenBucketTracker) (T now : Z) (i : nat) :
  bucket_inv t T -> T <= now -> (0 <= Bucket.getTokens t now i <= 50)%Q.
Proof.
  intros [Hc Hs] HT. unfold Bucket.getTokens. rewrite Hc.
  cbn [initialTokens regenerationRatePerMinute maxTokens
       DEFAULT_TOKEN_BUCKET_CONFIG].
  destruct (buckets t !! i) as [s|] eqn:E; [|lra].
  destruct (Hs i s E) as [Hr Hu]. split; [|apply Qmin'_le_l].
  apply Qmin'_glb; [lra|].
  assert (0 <= inject_Z (now - tb_lastUpdated s))%Q.
  { change 0%Q with (inject_Z 0). rewrite <- Zle_Qle. lia. }
  assert (0 <= inject_Z (now - tb_lastUpdated s) / 60000 * 6)%Q; [|lra].
  apply Qmult_le_0_compat; [|lra].
  apply Qle_shift_div_l; lra.
Qed.

Lemma bucket_inv_consume (t : TokenBucketTracker) (T now : Z) (i : nat) :
  bucket_inv t T -> T <= now -> bucket_inv (Bucket.consume t now i 1).1 now.
Proof.
  intros Hi HT. pose proof (getTokens_in_range t T now i Hi HT) as Hr.
  unfold Bucket.consume.
  destruct (Qltb (Bucket.getTokens t now i) 1) eqn:E; cbn [fst].
  - by apply (bucket_inv_mono t T).
  - apply Qltb_false in E. destruct Hi as [Hc Hs]. split; [done|].
    cbn [buckets]. intros j s. destruct (decide (j = i)) as [->|Hne].
    + rewrite lookup_insert_eq. intros [= <-].
      cbn [tb_tokens tb_lastUpdated]. split; [lra|lia].
    + rewrite lookup_insert_ne by done. intros Hj.
      destruct (Hs j s Hj). split; [done|lia].
Qed.

Section Ranges.

Variable base64_decode : string -> string.
Variable JSON_parse : string -> option json.

Lemma addAccount_trackers (w : world) (now : Z) (tokens : TokenSuccess)
    (T : Z) :
  health_inv (healthTracker w.1) T -> bucket_inv (tokenTracker w.1) T ->
  let w' := (addAccount base64_decode JSON_parse w now tokens).1 in
  health_inv (healthTracker w'.1) T /\ bucket_inv (tokenTracker w'.1) T.
Proof.
  destruct w as [m d]. cbn [fst]. intros Hh Hb. unfold addAccount.
  assert (Hl : healthTracker (load (m, d)).1 = healthTracker m
               /\ tokenTracker (load (m, d)).1 = tokenTracker m).
  { unfold load. by destruct (loaded m). }
  destruct (load (m, d)) as [m' d'] eqn:El. cbn [fst] in Hl.
  destruct Hl as [Hl1 Hl2].
  destruct (findIndex _ (accounts m')) as [k|].
  - destruct (accounts m' !! k); cbn; rewrite ?Hl1, ?Hl2;
      [split; [by apply health_inv_reset|done] | done].
  - cbn [saveToDisk fst]. destruct (Nat.eqb _ 1); cbn; by rewrite Hl1, Hl2.
Qed.

Lemma trackers_apply (w : world) (o : operation) (T : Z) :
  health_inv (healthTracker w.1) T -> bucket_inv (tokenTracker w.1) T ->
  T <= default T (operation_time o) ->
  let w' := apply_operation base64_decode JSON_parse w o in
  health_inv (healthTracker w'.1) (default T (operation_time o))
  /\ bucket_inv (tokenTracker w'.1) (default T (operation_time o)).
Proof.
  intros Hh Hb HT. destruct w as [m d]. cbn [fst] in Hh, Hb.
  destruct o as [now tokens|now idx|now idx reason|now idx|];
    cbn [operation_time default apply_operation from_option] in *.
  - destruct (addAccount_trackers (m, d) now tokens T Hh Hb) as [H1 H2].
    split; [by apply (health_inv_mono _ T)|by apply (bucket_inv_mono _ T)].
  - cbn [fst snd]. unfold recordSuccess. destruct (accounts m !! idx); cbn.
    + split; [by apply (health_inv_recordSuccess _ T)
             |by apply (bucket_inv_consume _ T)].
    + split; [by apply (health_inv_mono _ T)|by apply (bucket_inv_mono _ T)].
  - cbn [fst snd]. unfold markRateLimited. destruct (accounts m !! idx); cbn.
    + split; [by apply (health_inv_recordRateLimit _ T)
             |by apply (bucket_inv_mono _ T)].
    + split; [by apply (health_inv_mono _ T)|by apply (bucket_inv_mono _ T)].
  - cbn [fst snd]. unfold recordFailure. destruct (accounts m !! idx); cbn.
    + split; [by apply (health_inv_recordFailure _ T)
             |by apply (bucket_inv_mono _ T)].
    + split; [by apply (health_inv_mono _ T)|by apply (bucket_inv_mono _ T)].
  - unfold flush. destruct (savePending m); cbn; done.
Qed.

Lemma trackers_run (ops : list operation) (w : world) (T : Z) :
  health_inv (healthTracker w.1) T -> bucket_inv (tokenTracker w.1) T ->
  chronological T ops = true ->
  let w' := run_operations base64_decode JSON_parse w ops in
  health_inv (healthTracker w'.1) (last_time T ops)
  /\ bucket_inv (tokenTracker w'.1) (last_time T ops).
Proof.
  revert w T. induction ops as [|o ops IH]; intros w T Hh Hb Hc; [done|].
  cbn [run_operations List.fold_left last_time].
  assert (HT : T <= default T (operation_time o)
               /\ chronological (default T (operation_time o)) ops = true).
  { cbn [chronological] in Hc. destruct (operation_time o); cbn.
    - apply andb_prop in Hc as [H1 H2]. split; [lia|done].
    - split; [lia|done]. }
  destruct HT as [HT Hc'].
  destruct (trackers_apply w o T Hh Hb HT) as [H1 H2].
  by apply IH.
Qed.

(** X2. Along any run of manager operations issued with a clock that never
    runs backwards, every health score read at or after the last operation
    lies between 0 and 100, and every token count between 0 and the capacity
    of 50. *)
Theorem health_and_tokens_stay_in_range (strategy0 : AccountSelectionStrategy)
    (d0 : disk) (t0 : Z) (ops : list operation) (now : Z) (i : nat) :
  chronological t0 ops = true ->
  last_time t0 ops <= now ->
  let m :=
    (run_operations base64_decode JSON_parse
       (new_AccountManager strategy0, d0) ops).1 in
  0 <= Health.getScore (healthTracker m) now i <= 100
  /\ (0 <= Bucket.getTokens (tokenTracker m) now i <= 50)%Q.
Proof.
  intros Hc Hn m.
  destruct (trackers_run ops (new_AccountManager strategy0, d0) t0)
    as [Hh Hb]; [done|done|done|].
  split.
  - by apply (getScore_in_range _ (last_time t0 ops)).
  - by apply (getTokens_in_range _ (last_time t0 ops)).
Qed.

End Ranges.

Lemma health_and_tokens_stay_in_range_witness :
  let m := (run_operations (fun s => s) read_json
              (new_AccountManager hybrid, None)
              [ AddAccount 1000 (mkTokenSuccess "a0" "r0" 9000);
                RecordSuccess 2000 0;
                RecordFailure 3000 0 ]).1 in
  0 <= Health.getScore (healthTracker m) 4000 O <= 100
  /\ (0 <= Bucket.getTokens (tokenTracker m) 4000 O <= 50)%Q.
Proof.
  apply (health_and_tokens_stay_in_range (fun s => s) read_json hybrid None 0
           [ AddAccount 1000 (mkTokenSuccess "a0" "r0" 9000);
             RecordSuccess 2000 0; RecordFailure 3000 0 ] 4000 O).
  - reflexivity.
  - by vm_compute.
Defined.

(** ** Sticky and round-robin selection *)

Lemma filter_available_nil (accs : list AccountMetrics) :
  List.filter available accs = [] ->
  forall a, In a accs -> available a = false.
Proof.
  intros Hf a Ha. destruct (available a) eqn:E; [|done].
  assert (In a (List.filter available accs)) by (apply filter_In; done).
  rewrite Hf in H. destruct H.
Qed.

Lemma selectSticky_available (accs : list AccountMetrics) (cur : option nat)
    (r : nat) :
  selectSticky accs cur = Some r ->
  exists a, In a accs /\ available a = true /\ m_index a = r.
Proof.
  unfold selectSticky. destruct (List.filter available accs) as [|first rest] eqn:Ef;
    [done|].
  destruct (List.find _ (first :: rest)) as [c|] eqn:Eq; intros [= <-].
  - apply find_some in Eq as [Hin _]. rewrite <- Ef in Hin.
    apply filter_In in Hin as [? ?]. by exists c.
  - assert (Hin : In first (List.filter available accs))
      by (rewrite Ef; by left).
    apply filter_In in Hin as [? ?]. by exists first.
Qed.

Lemma selectRoundRobin_available (accs : list AccountMetrics)
    (cur : option nat) (r : nat) :
  selectRoundRobin accs cur = Some r ->
  exists a, In a accs /\ available a = true /\ m_index a = r.
Proof.
  unfold selectRoundRobin.
  destruct (List.filter available accs) as [|first rest] eqn:Ef; [done|].
  assert (Hsub : forall x, x ∈ first :: rest ->
                   In x accs /\ available x = true).
  { intros x Hx. apply list_elem_of_In in Hx. rewrite <- Ef in Hx.
    by apply filter_In in Hx. }
  destruct cur as [c|].
  - intros H. apply fmap_Some in H as (x & Hx & ->).
    apply list_elem_of_lookup_2 in Hx. destruct (Hsub x Hx). by exists x.
  - intros [= <-]. destruct (Hsub first) as [? ?]; [left|]. by exists first.
Qed.

Lemma selector_None (accs : list AccountMetrics) (cur : option nat) :
  (selectSticky accs cur = None -> List.filter available accs = [])
  /\ (selectRoundRobin accs cur = None -> List.filter available accs = []).
Proof.
  unfold selectSticky, selectRoundRobin.
  destruct (List.filter available accs) as [|first rest]; [done|]. split.
  - by destruct (List.find _ _).
  - destruct cur as [c|]; [|done]. intros H. exfalso.
    apply fmap_None in H. apply lookup_ge_None in H.
    destruct (findIndex _ _); cbn [length] in *; [|lia].
    pose proof (Nat.mod_upper_bound (n + 1) (S (length rest))). lia.
Qed.

(** X3. [selectSticky] answers [null] only when no account is available
    (enabled and not rate-limited); otherwise it keeps the current account
    whenever that one is available, and falls back to the first available
    account when it is not. *)
Theorem selectSticky_spec (accs : list AccountMetrics) (cur : option nat) :
  match selectSticky accs cur with
  | None => forall a, In a accs -> available a = false
  | Some r =>
      (exists a, In a accs /\ available a = true /\ m_index a = r)
      /\ ((exists a, In a accs /\ available a = true
                     /\ cur = Some (m_index a)) -> cur = Some r)
      /\ ((forall a, In a accs -> available a = true ->
             cur <> Some (m_index a)) ->
          exists first rest,
            List.filter available accs = first :: rest /\ r = m_index first)
  end.
Proof.
  destruct (selectSticky accs cur) as [r|] eqn:E.
  - split; [by apply (selectSticky_available accs cur)|].
    unfold selectSticky in E.
    destruct (List.filter available accs) as [|first rest] eqn:Ef; [done|].
    destruct (List.find _ (first :: rest)) as [c|] eqn:Eq;
      injection E as <-.
    + apply find_some in Eq as [Hin Hc].
      assert (Hcur : cur = Some (m_index c)).
      { destruct cur as [k|]; [|done]. apply is_index_Some in Hc. by subst. }
      split; [done|]. intros Hno. exfalso.
      rewrite <- Ef in Hin. apply filter_In in Hin as [? ?].
      by apply (Hno c).
    + split; [|by eauto]. intros (a & Ha & Hav & ->). exfalso.
      assert (Hin : In a (first :: rest))
        by (rewrite <- Ef; by apply filter_In).
      pose proof (find_none _ _ Eq a Hin) as Hf. cbn beta in Hf.
      assert (is_index (m_index a) (Some (m_index a)) = true)
        by by apply is_index_Some.
      congruence.
  - apply filter_available_nil. by apply (proj1 (selector_None accs cur)).
Qed.

Lemma selectRoundRobin_fallback (accs : list AccountMetrics) (cur : option nat) :
  match selectRoundRobin accs cur with
  | None => forall a, In a accs -> available a = false
  | Some r =>
      (exists a, In a accs /\ available a = true /\ m_index a = r)
      /\ ((forall a, In a accs -> available a = true ->
             cur <> Some (m_index a)) ->
          exists first rest,
            List.filter available accs = first :: rest /\ r = m_index first)
  end.
Proof.
  destruct (selectRoundRobin accs cur) as [r|] eqn:E.
  - split; [by apply (selectRoundRobin_available accs cur)|].
    intros Hno. unfold selectRoundRobin in E.
    destruct (List.filter available accs) as [|first rest] eqn:Ef; [done|].
    exists first, rest. split; [done|].
    destruct cur as [c|]; [|by injection E].
    destruct (findIndex _ (first :: rest)) as [pos|] eqn:Ep.
    + exfalso. apply findIndex_Some in Ep as (x & Hx & Hxc & _).
      apply Nat.eqb_eq in Hxc. apply list_elem_of_lookup_2 in Hx.
      apply list_elem_of_In in Hx. rewrite <- Ef in Hx.
      apply filter_In in Hx as [? ?]. apply (Hno x); congruence.
    + cbn in E. by injection E.
  - apply filter_available_nil. by apply (proj2 (selector_None accs cur)).
Qed.

Lemma findIndex_NoDup (l : list AccountMetrics) (p : nat) (a : AccountMetrics) :
  NoDup (m_index <$> l) -> l !! p = Some a ->
  findIndex (fun x => Nat.eqb (m_index x) (m_index a)) l = Some p.
Proof.
  intros Hnd Hp. apply findIndex_Some. exists a. split; [done|].
  split; [apply Nat.eqb_refl|]. intros j y Hj Hy.
  apply Nat.eqb_neq. intros Heq.
  assert (j = p); [|lia].
  apply (NoDup_lookup (m_index <$> l) j p (m_index a)); [done|..].
  - by rewrite list_lookup_fmap, Hy, <- Heq.
  - by rewrite list_lookup_fmap, Hp.
Qed.

Lemma selectRoundRobin_advances (accs : list AccountMetrics) (p : nat)
    (a : AccountMetrics) :
  let avail := List.filter available accs in
  NoDup (m_index <$> avail) ->
  avail !! p = Some a ->
  exists b,
    avail !! ((p + 1) mod length avail)%nat = Some b
    /\ selectRoundRobin accs (Some (m_index a)) = Some (m_index b)
    /\ ((2 <= length avail)%nat -> m_index b <> m_index a).
Proof.
  intros avail Hnd Hp. unfold selectRoundRobin. fold avail.
  pose proof (findIndex_NoDup avail p a Hnd Hp) as Hf.
  pose proof (lookup_lt_Some _ _ _ Hp) as Hlt.
  destruct avail as [|first rest] eqn:Ea; [done|].
  rewrite Hf.
  pose proof (Nat.mod_upper_bound (p + 1) (length (first :: rest))) as Hm.
  destruct (lookup_lt_is_Some_2 (first :: rest)
              ((p + 1) mod length (first :: rest))%nat) as [b Hb]; [lia|].
  exists b. rewrite Hb. split; [done|]. split; [done|].
  intros H2 Heq.
  assert (((p + 1) mod length (first :: rest))%nat = p).
  { apply (NoDup_lookup (m_index <$> first :: rest) _ _ (m_index a));
      [done|..].
    - by rewrite list_lookup_fmap, Hb, <- Heq.
    - by rewrite list_lookup_fmap, Hp. }
  destruct (decide (p + 1 = length (first :: rest))%nat) as [Hl|Hl].
  - rewrite Hl, Nat.Div0.mod_same in H. lia.
  - rewrite Nat.mod_small in H by lia. lia.
Qed.

(** X4. [selectRoundRobin] answers [null] only when no account is available;
    otherwise it answers an available account, the first one when there is
    no current account or the current one is not available.  When account
    indices are distinct and the current account sits at position [p] of the
    available accounts, the answer is the available account at position
    [p + 1], wrapping around at the end; with two or more available accounts
    that is never the current one. *)
Theorem selectRoundRobin_spec (accs : list AccountMetrics) (cur : option nat) :
  let avail := List.filter available accs in
  match selectRoundRobin accs cur with
  | None => forall a, In a accs -> available a = false
  | Some r =>
      (exists a, In a accs /\ available a = true /\ m_index a = r)
      /\ ((forall a, In a accs -> available a = true ->
             cur <> Some (m_index a)) ->
          exists first rest, avail = first :: rest /\ r = m_index first)
  end
  /\ (NoDup (m_index <$> avail) ->
      forall (p : nat) a,
        avail !! p = Some a -> cur = Some (m_index a) ->
        exists b,
          avail !! ((p + 1) mod length avail)%nat = Some b
          /\ selectRoundRobin accs cur = Some (m_index b)
          /\ ((2 <= length avail)%nat -> m_index b <> m_index a)).
Proof.
  intros avail. split; [apply selectRoundRobin_fallback|].
  intros Hnd p a Hp ->. by apply selectRoundRobin_advances.
Qed.

(** ** What [selectAccount] returns *)

Lemma run_selector_sound (m : AccountManager) (now : Z)
    (metrics : list AccountMetrics) (r : nat) :
  run_selector m now metrics = Some r ->
  exists c, In c metrics /\ m_index c = r /\ available c = true.
Proof.
  unfold run_selector.
  destruct (if Nat.eqb (length (accounts m)) 1 then sticky else strategy m).
  - intros (c & ? & ? & ?)%selectSticky_available. by exists c.
  - intros (c & ? & ? & ?)%selectRoundRobin_available. by exists c.
  - intros (c & Hc & Hcand & <-)%selectHybridAccount_Some.
    unfold is_candidate in Hcand.
    apply andb_prop in Hcand as [Hcand _].
    apply andb_prop in Hcand as [Hcand _].
    by exists c.
Qed.

(** The entries of the snapshot are the accounts, position by position. *)
Lemma snapshot_metric_In (m : AccountManager) (now : Z) (c : AccountMetrics) :
  In c (snapshot m now).1 <->
  exists a0, In a0 (accounts m)
    /\ c = mkAccountMetrics (index a0) (lastUsed (Manager_isRateLimited now a0).2)
             (inject_Z (Health.getScore (healthTracker m) now (index a0)))
             (Manager_isRateLimited now a0).1 (enabled a0).
Proof.
  unfold snapshot. cbn [fst]. rewrite List.map_map, in_map_iff. cbn [fst snd].
  split.
  - intros (a0 & <- & Ha). exists a0. split; [done|].
    by destruct (isRateLimited_frame now a0) as [-> ->].
  - intros (a0 & Ha & ->). exists a0. split; [|done].
    by destruct (isRateLimited_frame now a0) as [-> ->].
Qed.

Lemma isRateLimited_again (now : Z) (a : ManagedAccount) :
  (Manager_isRateLimited now a).1 = false ->
  (Manager_isRateLimited now (Manager_isRateLimited now a).2).1 = false.
Proof.
  unfold Manager_isRateLimited.
  destruct (rateLimitResetTime a) as [t|] eqn:E; cbn [fst snd]; [|by rewrite E].
  destruct (t =? 0) eqn:E0; cbn [fst snd]; [by rewrite E, E0|].
  by destruct (t <=? now) eqn:E1.
Qed.

(** The account [selectAccount] hands out, when the selector in force or the
    fallback names position [i]. *)
Lemma selectAccount_unfold (m : AccountManager) (now : Z) :
  accounts m <> [] ->
  selectAccount m now
  = let accs := (snapshot m now).2 in
    match
      match run_selector m now (snapshot m now).1 with
      | Some i => Some i
      | None =>
          match List.filter enabled accs with
          | [] => None
          | first :: rest => Some (index (soonest_of first rest))
          end
      end
    with
    | None => (with_accounts accs m, None)
    | Some i =>
        (with_activeIndex (Some (of_index i)) (with_accounts accs m),
         accs !! i)
    end.
Proof.
  intros Hne. unfold selectAccount.
  destruct (accounts m) eqn:Ea; [done|].
  by destruct (snapshot m now).
Qed.

Lemma selected_position (m : AccountManager) (now : Z) (i : nat) :
  well_indexed (accounts m) ->
  match run_selector m now (snapshot m now).1 with
  | Some i => Some i
  | None =>
      match List.filter enabled (snapshot m now).2 with
      | [] => None
      | first :: rest => Some (index (soonest_of first rest))
      end
  end = Some i ->
  exists a0, accounts m !! i = Some a0 /\ enabled a0 = true
    /\ (snapshot m now).2 !! i = Some (Manager_isRateLimited now a0).2
    /\ (run_selector m now (snapshot m now).1 = Some i ->
        (Manager_isRateLimited now a0).1 = false).
Proof.
  intros Hw.
  assert (Hpos : forall a0, In a0 (accounts m) ->
            accounts m !! index a0 = Some a0
            /\ (snapshot m now).2 !! index a0
               = Some (Manager_isRateLimited now a0).2).
  { intros a0 Ha. apply list_elem_of_In, list_elem_of_lookup_1 in Ha as [k Hk].
    rewrite (Hw k a0 Hk). split; [done|].
    rewrite snapshot_accounts. change List.map with (@fmap list _).
    by rewrite list_lookup_fmap, Hk. }
  destruct (run_selector m now (snapshot m now).1) as [r|] eqn:Er.
  - intros [= <-].
    apply run_selector_sound in Er as (c & Hc & <- & Hav).
    apply snapshot_metric_In in Hc as (a0 & Ha & ->).
    unfold available in Hav. cbn in Hav.
    apply andb_prop in Hav as [Hrl Hen]. apply negb_true_iff in Hrl.
    cbn [m_index]. destruct (Hpos a0 Ha). by exists a0.
  - destruct (List.filter enabled (snapshot m now).2) as [|first rest] eqn:Ef;
      [done|]. intros [= <-].
    pose proof (soonest_of_spec first rest) as [Hs1 _].
    { rewrite <- Ef.
      by apply filter_sorted, well_indexed_sorted, snapshot_well_indexed. }
    set (s := soonest_of first rest) in *.
    assert (In s (snapshot m now).2 /\ enabled s = true) as [Hsin Hsen].
    { apply filter_In. rewrite Ef. by apply list_elem_of_In. }
    rewrite snapshot_accounts in Hsin.
    apply in_map_iff in Hsin as (a0 & Hs & Ha).
    destruct (isRateLimited_frame now a0) as [Hi He].
    rewrite Hs in Hi, He. rewrite Hi. destruct (Hpos a0 Ha).
    exists a0. repeat split; try done. congruence.
Qed.

(** X5. For a manager whose accounts sit at the positions their [index]
    names, whatever the strategy: [selectAccount] answers [null] exactly when
    no account is enabled; the account it answers is enabled, is the one
    stored at its own index (after the snapshot cleared an expired rate
    limit), and becomes the active account. *)
Theorem selectAccount_spec (m : AccountManager) (now : Z) :
  well_indexed (accounts m) ->
  let r := selectAccount m now in
  (r.2 = None <-> forall a, In a (accounts m) -> enabled a = false)
  /\ (forall a, r.2 = Some a ->
        enabled a = true
        /\ accounts r.1 !! index a = Some a
        /\ activeIndex r.1 = Some (of_index (index a))
        /\ getActiveAccount r.1 = Some a
        /\ exists a0, accounts m !! index a = Some a0
                      /\ a = (Manager_isRateLimited now a0).2).
Proof.
  intros Hw r. subst r.
  destruct (decide (accounts m = [])) as [Hnil|Hne].
  { unfold selectAccount. rewrite Hnil. cbn [snd]. split; [|done].
    split; [by intros _ a []|done]. }
  rewrite (selectAccount_unfold m now Hne). cbv zeta.
  pose proof (selected_position m now) as Hsel.
  destruct (match run_selector m now (snapshot m now).1 with
            | Some i => Some i
            | None => _
            end) as [i|] eqn:Ei.
  - destruct (Hsel i Hw eq_refl) as (a0 & Ha0 & Hen & Hsn & _).
    cbn [fst snd]. rewrite Hsn.
    destruct (isRateLimited_frame now a0) as [Hi He].
    pose proof (Hw i a0 Ha0) as Hidx.
    split.
    + split; [done|]. intros Hall. exfalso.
      apply list_elem_of_lookup_2, list_elem_of_In in Ha0.
      specialize (Hall a0 Ha0). congruence.
    + intros a [= <-]. rewrite Hi, He, Hidx.
      split; [done|]. cbn [accounts with_activeIndex with_accounts activeIndex].
      split; [done|]. split; [done|]. split; [|by exists a0].
      unfold getActiveAccount.
      cbn [accounts with_activeIndex with_accounts activeIndex].
      rewrite as_index_of_index. cbn [mbind option_bind].
      destruct (snapshot m now).2; [done|exact Hsn].
  - cbn [snd]. split; [|done]. split; [|done]. intros _ a Ha.
    destruct (run_selector m now (snapshot m now).1); [done|].
    destruct (List.filter enabled (snapshot m now).2) eqn:Ef; [|done].
    destruct (enabled a) eqn:He; [|done]. exfalso.
    assert (In (Manager_isRateLimited now a).2
              (List.filter enabled (snapshot m now).2)).
    { apply filter_In. split.
      - rewrite snapshot_accounts. apply in_map_iff. by exists a.
      - by destruct (isRateLimited_frame now a) as [_ ->]. }
    rewrite Ef in H. destruct H.
Qed.

Lemma selectAccount_spec_witness :
  let m := ex_manager [ ex_account 0 "r0" (Some 5000);
                        ex_account 1 "r1" (Some 3000) ] in
  (selectAccount m 1000).2 = None
  <-> forall a, In a (accounts m) -> enabled a = false.
Proof.
  apply (selectAccount_spec
           (ex_manager [ ex_account 0 "r0" (Some 5000);
                         ex_account 1 "r1" (Some 3000) ]) 1000).
  intros i a. destruct i as [|[|i]]; cbn; intros [= <-]; reflexivity.
Defined.

Lemma selectHybridAccount_is_Some (accs : list AccountMetrics)
    (tr : TokenBucketTracker) (now : Z) (cur : option nat) (minH : Q)
    (c : AccountMetrics) :
  In c accs -> is_candidate tr now minH c = true ->
  is_Some (selectHybridAccount accs tr now cur minH).
Proof.
  intros Hc Hcand. unfold selectHybridAccount.
  destruct (List.filter (is_candidate tr now minH) accs) as [|c0 cs] eqn:Ef.
  { assert (In c (List.filter (is_candidate tr now minH) accs))
      by (by apply filter_In).
    by rewrite Ef in H. }
  destruct (sort_desc _) as [|best rest] eqn:Es.
  { assert (In (score_account tr now cur c0) (sort_desc
              (List.map (score_account tr now cur) (c0 :: cs))))
      by (apply sort_desc_In; by left).
    by rewrite Es in H. }
  destruct (List.find isCurrent (best :: rest)); [|done].
  by destruct (negb (isCurrent best) && _).
Qed.

Lemma run_selector_is_Some (m : AccountManager) (now : Z)
    (a0 : ManagedAccount) :
  In a0 (accounts m) -> selectable m now a0 ->
  is_Some (run_selector m now (snapshot m now).1).
Proof.
  intros Ha0 (Hen & Hrl & Hhyb).
  set (c := mkAccountMetrics (index a0)
      (lastUsed (Manager_isRateLimited now a0).2)
      (inject_Z (Health.getScore (healthTracker m) now (index a0)))
      (Manager_isRateLimited now a0).1 (enabled a0)).
  assert (Hin : In c (snapshot m now).1)
    by (apply snapshot_metric_In; by exists a0).
  assert (Hav : available c = true).
  { unfold available, c. cbn [isRateLimited m_enabled]. by rewrite Hen, Hrl. }
  assert (Hnn : List.filter available (snapshot m now).1 <> []).
  { intros Hf. pose proof (filter_available_nil _ Hf c Hin). congruence. }
  unfold run_selector.
  destruct (if Nat.eqb (length (accounts m)) 1 then sticky else strategy m)
    eqn:Es.
  - destruct (selectSticky _ _) eqn:Er; [done|].
    by apply (proj1 (selector_None _ _)) in Er.
  - destruct (selectRoundRobin _ _) eqn:Er; [done|].
    by apply (proj2 (selector_None _ _)) in Er.
  - assert (strategy m = hybrid) as Hs
      by (by destruct (Nat.eqb (length (accounts m)) 1)).
    destruct (Hhyb Hs) as [Hh Ht].
    apply (selectHybridAccount_is_Some _ _ _ _ _ c Hin).
    unfold is_candidate, Bucket.hasTokens, c.
    cbn [isRateLimited m_enabled healthScore m_index].
    rewrite Hen, Hrl. cbn [negb andb].
    apply andb_true_intro. split; apply Qle_bool_iff; [|done].
    change DEFAULT_MIN_HEALTH_SCORE with (inject_Z 50). by rewrite <- Zle_Qle.
Qed.

Lemma selectAccount_selected (m : AccountManager) (now : Z) :
  well_indexed (accounts m) ->
  accounts m <> [] ->
  is_Some (run_selector m now (snapshot m now).1) ->
  exists a0 a,
    (selectAccount m now).2 = Some a
    /\ accounts m !! index a = Some a0
    /\ a = (Manager_isRateLimited now a0).2
    /\ enabled a = true
    /\ (Manager_isRateLimited now a0).1 = false
    /\ (Manager_isRateLimited now a).1 = false.
Proof.
  intros Hw Hne [i Hi].
  rewrite (selectAccount_unfold m now Hne). cbv zeta.
  destruct (selected_position m now i Hw) as (a1 & Ha1 & Hen1 & Hsn & Hrl1);
    [by rewrite Hi|].
  rewrite Hi. cbn [snd]. rewrite Hsn.
  exists a1, (Manager_isRateLimited now a1).2.
  destruct (isRateLimited_frame now a1) as [-> ->].
  rewrite (Hw i a1 Ha1). repeat split; try done; [by apply Hrl1|].
  by apply isRateLimited_again, Hrl1.
Qed.

(** X6. As long as some account can be selected (it is enabled and not
    rate-limited and, under the hybrid strategy, healthy and with a token
    left), the account [selectAccount] answers is enabled and not
    rate-limited. *)
Theorem selectAccount_skips_rate_limited (m : AccountManager) (now : Z)
    (a0 : ManagedAccount) :
  well_indexed (accounts m) ->
  In a0 (accounts m) ->
  selectable m now a0 ->
  exists a,
    (selectAccount m now).2 = Some a
    /\ enabled a = true
    /\ (Manager_isRateLimited now a).1 = false.
Proof.
  intros Hw Ha0 Hsel.
  assert (Hne : accounts m <> []) by (by destruct (accounts m)).
  destruct (selectAccount_selected m now Hw Hne)
    as (a1 & a & Hr & _ & _ & Hen & _ & Hrl).
  { by apply (run_selector_is_Some m now a0). }
  by exists a.
Qed.

Lemma selectAccount_skips_rate_limited_witness :
  let m :=
    mkAccountManager [ ex_account 0 "r0" (Some 5000); ex_account 1 "r1" None ]
      (Some 0%Q) sticky new_HealthScoreTracker new_TokenBucketTracker false true
  in
  exists a,
    (selectAccount m 1000).2 = Some a
    /\ enabled a = true
    /\ (Manager_isRateLimited 1000 a).1 = false.
Proof.
  apply (selectAccount_skips_rate_limited
           (mkAccountManager
              [ ex_account 0 "r0" (Some 5000); ex_account 1 "r1" None ]
              (Some 0%Q) sticky new_HealthScoreTracker new_TokenBucketTracker
              false true) 1000 (ex_account 1 "r1" None)).
  - intros i a. destruct i as [|[|i]]; cbn; intros [= <-]; reflexivity.
  - cbn. right. left. reflexivity.
  - split; [reflexivity|]. split; [reflexivity|]. discriminate.
Defined.

(** ** Rate limits, failures and the debounced save *)

Lemma calculateBackoff_range (reason : RateLimitReason) (failures : nat) :
  20000 <= calculateBackoff reason failures <= 1800000.
Proof.
  destruct reason;
    [unfold calculateBackoff, BACKOFF_RATE_LIMIT_MS; lia
    | |unfold calculateBackoff, BACKOFF_SERVER_ERROR_MS; lia
    |unfold calculateBackoff, BACKOFF_UNKNOWN_MS; lia].
  destruct failures as [|[|[|f]]]; vm_compute; split; discriminate.
Qed.

(** X7. After [markRateLimited] the account counts as rate-limited at
    every instant before [now + backoff] and at none from then on, where the
    backoff is the one [calculateBackoff] gives for the reason and the
    failures counted so far, between 20 seconds and 30 minutes; the reason is
    recorded and the failure count grows by one. *)
Theorem markRateLimited_window (m : AccountManager) (now : Z) (idx : nat)
    (reason : RateLimitReason) (a : ManagedAccount) :
  accounts m !! idx = Some a ->
  0 <= now ->
  let backoff := calculateBackoff reason (consecutiveFailures a) in
  exists a',
    accounts (markRateLimited m now idx reason) !! idx = Some a'
    /\ rateLimitReason a' = Some reason
    /\ consecutiveFailures a' = S (consecutiveFailures a)
    /\ 20000 <= backoff <= 1800000
    /\ forall t, (Manager_isRateLimited t a').1 = true <-> t < now + backoff.
Proof.
  intros Ha Hnow backoff. unfold markRateLimited. rewrite Ha.
  cbn [scheduleSave accounts].
  pose proof (calculateBackoff_range reason (consecutiveFailures a)) as Hb.
  fold backoff in Hb |- *.
  eexists. split.
  { apply list_lookup_insert_eq. by apply lookup_lt_Some in Ha. }
  cbn [rateLimitReason consecutiveFailures].
  split; [done|]. split; [lia|]. split; [done|].
  intros t. unfold Manager_isRateLimited. cbn [rateLimitResetTime].
  destruct (now + backoff =? 0) eqn:E0; [lia|].
  destruct (now + backoff <=? t) eqn:E1; cbn [fst]; split; (done || lia).
Qed.

Lemma markRateLimited_window_witness :
  exists a',
    accounts
      (markRateLimited (ex_manager [ex_account 0 "r0" None]) 1000 0
         RATE_LIMIT_EXCEEDED) !! O = Some a'
    /\ rateLimitReason a' = Some RATE_LIMIT_EXCEEDED.
Proof.
  destruct (markRateLimited_window (ex_manager [ex_account 0 "r0" None]) 1000
              0 RATE_LIMIT_EXCEEDED (ex_account 0 "r0" None))
    as (a' & H1 & H2 & _).
  - reflexivity.
  - lia.
  - exists a'. split; [exact H1|exact H2].
Defined.

(** X8. The backoff of a usage limit escalates with the failures counted
    on the account: one minute on the first, five minutes on the second,
    thirty minutes from the third on.  Failures reported by [recordFailure]
    count as well, and [recordSuccess] restarts the escalation. *)
Theorem quota_backoff_escalation (m : AccountManager) (now : Z) (idx : nat)
    (a : ManagedAccount) :
  accounts m !! idx = Some a ->
  let reset_after (m' : AccountManager) (t : Z) :=
    (accounts (markRateLimited m' t idx USAGE_LIMIT_REACHED) !! idx)
      ≫= rateLimitResetTime in
  (forall t,
     reset_after m t
     = Some (t + match consecutiveFailures a with
                 | O => 60000
                 | S O => 300000
                 | _ => 1800000
                 end))
  /\ (forall t,
        reset_after (recordFailure m now idx) t
        = Some (t + match consecutiveFailures a with
                    | O => 300000
                    | _ => 1800000
                    end))
  /\ (forall t, reset_after (recordSuccess m now idx) t = Some (t + 60000)).
Proof.
  intros Ha reset_after. subst reset_after. cbv beta.
  pose proof (lookup_lt_Some _ _ _ Ha) as Hlt.
  split; [|split]; intros t.
  - unfold markRateLimited. rewrite Ha. cbn [scheduleSave accounts].
    rewrite list_lookup_insert_eq by done. cbn.
    by destruct (consecutiveFailures a) as [|[|[|f]]].
  - unfold recordFailure. rewrite Ha. unfold markRateLimited.
    cbn [scheduleSave accounts].
    rewrite list_lookup_insert_eq by done.
    cbn [scheduleSave accounts].
    rewrite list_lookup_insert_eq by (by rewrite length_insert).
    cbn [mbind option_bind rateLimitResetTime consecutiveFailures].
    rewrite Nat.add_1_r.
    by destruct (consecutiveFailures a) as [|[|f]].
  - unfold recordSuccess. rewrite Ha. unfold markRateLimited.
    cbn [scheduleSave accounts].
    rewrite list_lookup_insert_eq by done.
    cbn [scheduleSave accounts].
    rewrite list_lookup_insert_eq by (by rewrite length_insert). done.
Qed.

Lemma quota_backoff_escalation_witness :
  (accounts
     (markRateLimited (ex_manager [ex_account 0 "r0" None]) 5000 0
        USAGE_LIMIT_REACHED) !! O) ≫= rateLimitResetTime
  = Some 65000.
Proof.
  exact (proj1 (quota_backoff_escalation (ex_manager [ex_account 0 "r0" None])
                  0 0 (ex_account 0 "r0" None) eq_refl) 5000).
Defined.

Section Failures.

Variable base64_decode : string -> string.
Variable JSON_parse : string -> option json.

Lemma failure_reports_count (idx : nat) (ops : list operation) (w : world)
    (a : ManagedAccount) :
  accounts w.1 !! idx = Some a ->
  forallb (reports_failure idx) ops = true ->
  exists a',
    accounts (run_operations base64_decode JSON_parse w ops).1 !! idx = Some a'
    /\ consecutiveFailures a' = (consecutiveFailures a + length ops)%nat
    /\ (enabled a = false -> enabled a' = false).
Proof.
  revert w a. induction ops as [|o ops IH]; intros w a Ha Hops.
  { exists a. cbn. split; [done|]. split; [lia|done]. }
  cbn [forallb] in Hops. apply andb_prop in Hops as [Ho Hops].
  cbn [run_operations List.fold_left].
  pose proof (lookup_lt_Some _ _ _ Ha) as Hlt.
  assert (exists a1,
            accounts (apply_operation base64_decode JSON_parse w o).1 !! idx
            = Some a1
            /\ consecutiveFailures a1 = S (consecutiveFailures a)
            /\ (enabled a = false -> enabled a1 = false))
    as (a1 & Ha1 & Hc1 & He1).
  { destruct o as [| |t i reason|t i|]; try done; cbn in Ho;
      apply Nat.eqb_eq in Ho as ->; cbn [apply_operation fst].
    - unfold markRateLimited. rewrite Ha. cbn [scheduleSave accounts].
      rewrite list_lookup_insert_eq by done. eexists. split; [done|].
      cbn. split; [lia|done].
    - unfold recordFailure. rewrite Ha. cbn [scheduleSave accounts].
      rewrite list_lookup_insert_eq by done. eexists. split; [done|].
      cbn. split; [lia|]. intros ->. by case_match. }
  destruct (IH _ a1 Ha1 Hops) as (a' & Ha' & Hc' & He').
  exists a'. split; [done|]. split; [cbn [length]; lia|tauto].
Qed.

(** X9. Failure reports add up: once rate limits and failures reported for
    an account, with no success in between, have brought its count to four,
    the next [recordFailure] disables the account. *)
Theorem fifth_failure_disables (idx : nat) (ops : list operation) (w : world)
    (a : ManagedAccount) (now : Z) :
  accounts w.1 !! idx = Some a ->
  forallb (reports_failure idx) ops = true ->
  (4 <= consecutiveFailures a + length ops)%nat ->
  exists a',
    accounts
      (run_operations base64_decode JSON_parse w
         (ops ++ [RecordFailure now idx])).1
      !! idx = Some a'
    /\ enabled a' = false
    /\ consecutiveFailures a'
       = (consecutiveFailures a + length ops + 1)%nat.
Proof.
  intros Ha Hops Hfour.
  destruct (failure_reports_count idx ops w a Ha Hops) as (a1 & Ha1 & Hc1 & _).
  unfold run_operations in *. rewrite fold_left_app. cbn [List.fold_left].
  set (w1 := List.fold_left _ ops w) in *.
  cbn [apply_operation fst]. unfold recordFailure. rewrite Ha1.
  cbn [scheduleSave accounts].
  rewrite list_lookup_insert_eq by (by apply lookup_lt_Some in Ha1).
  eexists. split; [done|]. cbn [enabled consecutiveFailures].
  split; [|lia].
  destruct (5 <=? consecutiveFailures a1 + 1)%nat eqn:E; [done|].
  apply Nat.leb_gt in E. lia.
Qed.



(** X11. Reports on an existing account leave the storage file alone and
    arm the pending save; when the save fires, the file holds the accounts
    and the active index as they are in memory, and nothing is pending any
    more, so that a second firing writes nothing. *)
Theorem reports_save_debounced (w : world) (o : operation) (idx : nat)
    (a : ManagedAccount) :
  accounts w.1 !! idx = Some a ->
  (exists now, o = RecordSuccess now idx)
  \/ (exists now reason, o = MarkRateLimited now idx reason)
  \/ (exists now, o = RecordFailure now idx) ->
  let w1 := apply_operation base64_decode JSON_parse w o in
  w1.2 = w.2
  /\ savePending w1.1 = true
  /\ (flush w1).2
     = saveAccounts
         (mkAccountStorage (List.map to_stored (accounts w1.1))
            (default 0%Q (activeIndex w1.1)))
  /\ accounts (flush w1).1 = accounts w1.1
  /\ savePending (flush w1).1 = false
  /\ flush (flush w1) = flush w1.
Proof.
  intros Ha Ho w1. subst w1. destruct w as [m d]. cbn [fst] in Ha.
  destruct Ho as [(now & ->)|[(now & reason & ->)|(now & ->)]];
    cbn [apply_operation fst snd].
  - unfold recordSuccess. rewrite Ha. done.
  - unfold markRateLimited. rewrite Ha. done.
  - unfold recordFailure. rewrite Ha. done.
Qed.

End Failures.

Lemma fifth_failure_disables_witness :
  exists a',
    accounts
      (run_operations (fun s => s) read_json
         (ex_manager [ex_account 0 "r0" None], None)
         ([ MarkRateLimited 1000 0 RATE_LIMIT_EXCEEDED;
            RecordFailure 2000 0;
            MarkRateLimited 3000 0 SERVER_ERROR;
            RecordFailure 4000 0 ] ++ [RecordFailure 5000 0])).1 !! O
    = Some a'
    /\ enabled a' = false.
Proof.
  destruct (fifth_failure_disables (fun s => s) read_json 0
              [ MarkRateLimited 1000 0 RATE_LIMIT_EXCEEDED;
                RecordFailure 2000 0;
                MarkRateLimited 3000 0 SERVER_ERROR;
                RecordFailure 4000 0 ]
              (ex_manager [ex_account 0 "r0" None], None)
              (ex_account 0 "r0" None) 5000) as (a' & H1 & H2 & _).
  - reflexivity.
  - reflexivity.
  - cbn. lia.
  - exists a'. split; [exact H1|exact H2].
Defined.


Lemma reports_save_debounced_witness :
  let w : world := (ex_manager [ex_account 0 "r0" None], None) in
  (apply_operation (fun s => s) read_json w (RecordSuccess 1000 0)).2 = w.2.
Proof.
  apply (reports_save_debounced (fun s => s) read_json
           (ex_manager [ex_account 0 "r0" None], None) (RecordSuccess 1000 0) 0
           (ex_account 0 "r0" None)).
  - reflexivity.
  - left. exists 1000. reflexivity.
Defined.

(** ** Loading the storage file *)

Lemma tokenMap_get_set_eq (k : string) (v : StoredAccount)
    (tm : list (string * StoredAccount)) :
  tokenMap_get k (tokenMap_set k v tm) = Some v.
Proof.
  induction tm as [|[k' v'] tm IH]; cbn.
  - by rewrite String.eqb_refl.
  - destruct (String.eqb k' k) eqn:E; cbn; by rewrite E.
Qed.

Lemma tokenMap_get_set_ne (k k' : string) (v : StoredAccount)
    (tm : list (string * StoredAccount)) :
  k' <> k -> tokenMap_get k' (tokenMap_set k v tm) = tokenMap_get k' tm.
Proof.
  intros Hne. induction tm as [|[k0 v0] tm IH]; cbn.
  - destruct (String.eqb k k') eqn:E; [|done].
    apply String.eqb_eq in E. congruence.
  - destruct (String.eqb k0 k) eqn:E; cbn; [|by rewrite IH].
    apply String.eqb_eq in E as ->.
    destruct (String.eqb k k') eqn:E'; [|done].
    apply String.eqb_eq in E'. congruence.
Qed.

Lemma tokenMap_set_elem (k : string) (v : StoredAccount)
    (tm : list (string * StoredAccount)) (e : string * StoredAccount) :
  e ∈ tokenMap_set k v tm -> e = (k, v) \/ e ∈ tm.
Proof.
  induction tm as [|[k0 v0] tm IH]; cbn.
  - intros ?%list_elem_of_singleton. by left.
  - destruct (String.eqb k0 k) eqn:E.
    + apply String.eqb_eq in E as ->.
      intros [->|?]%elem_of_cons; [by left|right; by right].
    + intros [->|H]%elem_of_cons; [right; by left|].
      destruct (IH H); [by left|right; by right].
Qed.

Lemma tokenMap_set_NoDup (k : string) (v : StoredAccount)
    (tm : list (string * StoredAccount)) :
  NoDup tm.*1 -> NoDup (tokenMap_set k v tm).*1.
Proof.
  induction tm as [|[k0 v0] tm IH]; cbn.
  - intros _. apply NoDup_singleton.
  - intros [Hk0 Hnd]%NoDup_cons.
    destruct (String.eqb k0 k) eqn:E; cbn.
    + apply String.eqb_eq in E as ->. by apply NoDup_cons.
    + apply NoDup_cons. split; [|by apply IH].
      intros [[k1 v1] [Hk1 Hin]]%list_elem_of_fmap. cbn in Hk1. subst k1.
      apply tokenMap_set_elem in Hin as [[= -> ->]|Hin].
      * by rewrite String.eqb_refl in E.
      * apply Hk0, list_elem_of_fmap. by exists (k0, v1).
Qed.

Lemma tokenMap_get_Some (k : string) (v : StoredAccount)
    (tm : list (string * StoredAccount)) :
  tokenMap_get k tm = Some v -> (k, v) ∈ tm.
Proof.
  induction tm as [|[k0 v0] tm IH]; cbn; [done|].
  destruct (String.eqb k0 k) eqn:E.
  - apply String.eqb_eq in E as ->. intros [= ->]. by left.
  - intros H. right. by apply IH.
Qed.

(** What the loop of [deduplicateAccounts] keeps true of its map *)
Lemma dedup_fold_inv (accs : list StoredAccount)
    (tm : list (string * StoredAccount)) :
  NoDup tm.*1 ->
  (forall k v, (k, v) ∈ tm -> sa_refreshToken v = k) ->
  let tm' :=
    List.fold_left
      (fun tokenMap acc =>
         match tokenMap_get (sa_refreshToken acc) tokenMap with
         | Some existing =>
             if sa_lastUsed existing <? sa_lastUsed acc
             then tokenMap_set (sa_refreshToken acc) acc tokenMap
             else tokenMap
         | None => tokenMap_set (sa_refreshToken acc) acc tokenMap
         end) accs tm in
  NoDup tm'.*1
  /\ (forall k v, (k, v) ∈ tm' ->
        sa_refreshToken v = k /\ ((k, v) ∈ tm \/ v ∈ accs))
  /\ (forall k v, tokenMap_get k tm = Some v ->
        exists v', tokenMap_get k tm' = Some v'
                   /\ sa_lastUsed v <= sa_lastUsed v')
  /\ (forall a, a ∈ accs ->
        exists v', tokenMap_get (sa_refreshToken a) tm' = Some v'
                   /\ sa_lastUsed a <= sa_lastUsed v').
Proof.
  revert tm. induction accs as [|a accs IH]; intros tm Hnd Hkey; cbn.
  { split; [done|]. split; [by auto|]. split.
    - intros k v Hg. exists v. split; [done|lia].
    - by intros a ?%elem_of_nil. }
  set (tm1 := match tokenMap_get (sa_refreshToken a) tm with
              | Some existing =>
                  if sa_lastUsed existing <? sa_lastUsed a
                  then tokenMap_set (sa_refreshToken a) a tm
                  else tm
              | None => tokenMap_set (sa_refreshToken a) a tm
              end).
  assert (Hnd1 : NoDup tm1.*1).
  { unfold tm1. destruct (tokenMap_get _ tm) as [ex|];
      [destruct (_ <? _)|]; try done; by apply tokenMap_set_NoDup. }
  assert (Hel1 : forall k v, (k, v) ∈ tm1 ->
                   (k, v) = (sa_refreshToken a, a) \/ (k, v) ∈ tm).
  { intros k v. unfold tm1. destruct (tokenMap_get _ tm) as [ex|];
      [destruct (_ <? _)|]; try (by right); apply tokenMap_set_elem. }
  assert (Hkey1 : forall k v, (k, v) ∈ tm1 -> sa_refreshToken v = k).
  { intros k v [[= -> ->]|H]%Hel1; [done|by apply Hkey]. }
  assert (Hup1 : forall k v, tokenMap_get k tm = Some v ->
                   exists v', tokenMap_get k tm1 = Some v'
                              /\ sa_lastUsed v <= sa_lastUsed v').
  { intros k v Hg. unfold tm1.
    destruct (decide (k = sa_refreshToken a)) as [->|Hne].
    - rewrite Hg. destruct (sa_lastUsed v <? sa_lastUsed a) eqn:E.
      + exists a. rewrite tokenMap_get_set_eq. split; [done|lia].
      + exists v. split; [done|lia].
    - exists v. split; [|lia].
      destruct (tokenMap_get _ tm) as [ex|]; [destruct (_ <? _)|];
        try done; by rewrite tokenMap_get_set_ne. }
  assert (Ha1 : exists v', tokenMap_get (sa_refreshToken a) tm1 = Some v'
                           /\ sa_lastUsed a <= sa_lastUsed v').
  { unfold tm1. destruct (tokenMap_get _ tm) as [ex|] eqn:Hg.
    - destruct (sa_lastUsed ex <? sa_lastUsed a) eqn:E.
      + exists a. rewrite tokenMap_get_set_eq. split; [done|lia].
      + exists ex. split; [done|lia].
    - exists a. rewrite tokenMap_get_set_eq. split; [done|lia]. }
  destruct (IH tm1 Hnd1 Hkey1) as (H1 & H2 & H3 & H4).
  split; [done|]. split; [|split].
  - intros k v Hin. destruct (H2 k v Hin) as [Hk [Hin1|Hin1]].
    + split; [done|]. destruct (Hel1 k v Hin1) as [[= -> ->]|?].
      * right. by left.
      * by left.
    + split; [done|]. right. by right.
  - intros k v Hg. destruct (Hup1 k v Hg) as (v1 & Hg1 & Hle1).
    destruct (H3 k v1 Hg1) as (v' & Hg' & Hle'). exists v'. split; [done|lia].
  - intros b [->|Hb]%elem_of_cons; [|by apply H4].
    destruct Ha1 as (v1 & Hg1 & Hle1).
    destruct (H3 _ v1 Hg1) as (v' & Hg' & Hle'). exists v'. split; [done|lia].
Qed.

Lemma keyed_fmap (tm : list (string * StoredAccount)) :
  (forall k v, (k, v) ∈ tm -> sa_refreshToken v = k) ->
  sa_refreshToken <$> List.map snd tm = tm.*1.
Proof.
  induction tm as [|[k v] tm IH]; intros Hkey; cbn; [done|].
  rewrite (Hkey k v) by by left. f_equal. apply IH.
  intros k' v' Hin. apply Hkey. by right.
Qed.

(** X12. [deduplicateAccounts] keeps one account per refresh token, taken
    from the given ones, and for every given account the one kept for its
    refresh token was used at least as recently. *)
Theorem deduplicateAccounts_spec (accs : list StoredAccount) :
  let out := deduplicateAccounts accs in
  NoDup (sa_refreshToken <$> out)
  /\ (forall b, b ∈ out -> b ∈ accs)
  /\ (forall a, a ∈ accs ->
        exists b, b ∈ out /\ sa_refreshToken b = sa_refreshToken a
                  /\ sa_lastUsed a <= sa_lastUsed b).
Proof.
  unfold deduplicateAccounts.
  destruct (dedup_fold_inv accs []) as (H1 & H2 & _ & H4);
    [apply NoDup_nil_2|by intros k v ?%elem_of_nil|].
  cbv zeta in *. set (tm' := List.fold_left _ accs []) in *.
  split; [|split].
  - rewrite keyed_fmap; [done|]. intros k v Hin. by apply H2.
  - intros b Hb. apply list_elem_of_In, in_map_iff in Hb as ([k v] & <- & Hin).
    apply list_elem_of_In in Hin.
    destruct (H2 k v Hin) as [_ [?%elem_of_nil|?]]; done.
  - intros a Ha. destruct (H4 a Ha) as (v' & Hg & Hle).
    apply tokenMap_get_Some in Hg. exists v'.
    split; [|split; [by apply (H2 _ _ Hg)|done]].
    apply list_elem_of_In, in_map_iff. exists (sa_refreshToken a, v').
    split; [done|by apply list_elem_of_In].
Qed.

Lemma valid_accounts_nonempty (entries : list (option StoredAccount))
    (a : StoredAccount) :
  a ∈ omap (fun e : option StoredAccount =>
              match e with
              | Some a =>
                  if (0 <? String.length (sa_refreshToken a))%nat
                  then Some a else None
              | None => None
              end) entries ->
  sa_refreshToken a <> EmptyString.
Proof.
  intros ([b|] & _ & Hb)%list_elem_of_omap; [|done].
  destruct (sa_refreshToken b) eqn:E; [done|].
  cbn in Hb. injection Hb as <-. by rewrite E.
Qed.

Lemma loadAccounts_tokens (d : disk) :
  Forall (fun a => sa_refreshToken a <> EmptyString)
    (st_accounts (loadAccounts d))
  /\ NoDup (sa_refreshToken <$> st_accounts (loadAccounts d)).
Proof.
  unfold loadAccounts. destruct d as [data|]; [|split; constructor].
  destruct (fd_accounts data) as [entries|]; [|split; constructor].
  cbn [st_accounts].
  destruct (deduplicateAccounts_spec
              (omap (fun e : option StoredAccount =>
                       match e with
                       | Some a =>
                           if (0 <? String.length (sa_refreshToken a))%nat
                           then Some a else None
                       | None => None
                       end) entries)) as (Hnd & Hsub & _).
  split; [|done]. apply Forall_forall. intros a Ha.
  by apply (valid_accounts_nonempty entries), Hsub.
Qed.

(** X13. Whatever the storage file holds, the accounts [loadAccounts]
    returns have non-empty, pairwise distinct refresh tokens.  The active
    index it returns is 0 when there is no account; otherwise it is a number
    between 0 and the last position, the number of the file itself when that
    lies in this range, and it is the index of an account whenever the
    number of the file is an integer (or the file holds no number). *)
Theorem loadAccounts_valid (d : disk) :
  let s := loadAccounts d in
  let last := inject_Z (Z.of_nat (length (st_accounts s)) - 1) in
  Forall (fun a => sa_refreshToken a <> EmptyString) (st_accounts s)
  /\ NoDup (sa_refreshToken <$> st_accounts s)
  /\ (st_accounts s = [] -> st_activeIndex s = 0%Q)
  /\ (st_accounts s <> [] ->
      (0 <= st_activeIndex s <= last)%Q
      /\ (forall data q,
            d = Some data -> fd_activeIndex data = Some q ->
            (0 <= q <= last)%Q -> (st_activeIndex s == q)%Q)
      /\ (integral_index d ->
          exists i : nat,
            as_index (st_activeIndex s) = Some i
            /\ (i < length (st_accounts s))%nat)).
Proof.
  intros s last. subst s last. destruct (loadAccounts_tokens d) as [H1 H2].
  split; [done|]. split; [done|]. split.
  - intros Hnil. by destruct (loadAccounts_in_range d) as [[_ ?]|[Hq Hhi]];
      [|exfalso; rewrite Hnil in Hhi;
        assert (Hhi' : (st_activeIndex (loadAccounts d) <= -1)%Q)
          by exact Hhi;
        destruct Hq as [Hq|Hq]; [rewrite Hq in Hhi'|]; lra].
  - intros Hne.
    destruct (loadAccounts_in_range d) as [[? _]|[Hq Hhi]]; [done|].
    split; [split; [destruct Hq as [->|Hq]; lra|done]|]. split.
    + intros data q -> Hfd. revert Hne. unfold loadAccounts.
      destruct (fd_accounts data) as [entries|]; [|done].
      cbn [st_accounts st_activeIndex]. rewrite Hfd. cbn [default].
      destruct (deduplicateAccounts _) as [|a l]; [done|]. intros _.
      cbn [length Nat.ltb Nat.leb]. intros [Hq0 Hq1].
      by apply clamp_between.
    + intros Hd. destruct (loadAccounts_integral d Hd) as [i Hi].
      exists i. split; [done|]. apply as_index_spec in Hi.
      rewrite Hi in Hhi. unfold of_index in Hhi.
      rewrite <- Zle_Qle in Hhi. lia.
Qed.

(** A fraction of the file as the active index *)
Example loadAccounts_fraction :
  let stored token :=
    mkStoredAccount None token None None None 0 0 true None None O in
  let d : disk :=
    Some (mkFileDocument
            (Some [Some (stored "r0"); Some (stored "r1"); Some (stored "r2")])
            (Some (3 # 2)%Q)) in
  st_activeIndex (loadAccounts d) = (3 # 2)%Q
  /\ as_index (st_activeIndex (loadAccounts d)) = None.
Proof. by vm_compute. Qed.

(** X14. Loading is stable: saving what [loadAccounts] returned and loading
    again returns the same accounts and the same active index. *)
Theorem loadAccounts_stable (d : disk) :
  loadAccounts (saveAccounts (loadAccounts d)) = loadAccounts d.
Proof.
  destruct (loadAccounts_tokens d) as [H1 H2].
  pose proof (loadAccounts_in_range d) as Hr. cbv zeta in Hr.
  destruct (loadAccounts d) as [accs act] eqn:E.
  cbn [st_accounts st_activeIndex] in *.
  unfold saveAccounts, loadAccounts.
  cbn [fd_accounts fd_activeIndex st_accounts st_activeIndex default
       from_option].
  rewrite (valid_entries accs H1), (deduplicateAccounts_NoDup accs H2).
  f_equal. destruct Hr as [[-> ->]|[Hq Hhi]]; [done|].
  destruct accs as [|a accs].
  - exfalso. assert (Hhi' : (act <= -1)%Q) by exact Hhi.
    destruct Hq as [->|Hq]; lra.
  - cbn [length Nat.ltb Nat.leb]. by apply clamp_fixed.
Qed.

(** ** Adding an account *)

Lemma to_stored_to_managed (i : nat) (a : StoredAccount) :
  to_stored (to_managed i a) = a.
Proof. by destruct a. Qed.

Section AddAccount.

Variable base64_decode : string -> string.
Variable JSON_parse : string -> option json.

(** The two ways [addAccount] ends *)
Lemma addAccount_cases (w : world) (now : Z) (tokens : TokenSuccess) :
  let m := (load w).1 in
  let d := (load w).2 in
  let accountId' := token_accountId base64_decode JSON_parse tokens in
  let email' := token_email base64_decode JSON_parse tokens in
  (exists (i : nat) existing,
     findIndex (same_account tokens accountId') (accounts m) = Some i
     /\ accounts m !! i = Some existing
     /\ addAccount base64_decode JSON_parse w now tokens
        = (saveToDisk
             (with_healthTracker (Health.reset (healthTracker m) i)
                (with_accounts
                   (<[i := update_existing tokens accountId' email' existing]>
                      (accounts m)) m), d), i))
  \/ (findIndex (same_account tokens accountId') (accounts m) = None
      /\ let newAccount :=
           mkManagedAccount email' (refresh tokens) (Some (access tokens))
             (Some (expires tokens)) accountId' now 0 true None None O
             (length (accounts m)) in
         addAccount base64_decode JSON_parse w now tokens
         = (saveToDisk
              ((if Nat.eqb (length (accounts m ++ [newAccount])) 1
                then with_activeIndex (Some 0%Q)
                       (with_accounts (accounts m ++ [newAccount]) m)
                else with_accounts (accounts m ++ [newAccount]) m), d),
            length (accounts m))).
Proof.
  intros m d accountId' email'. subst m d. unfold addAccount.
  destruct (load w) as [m d]. cbn [fst snd]. fold accountId' email'.
  destruct (findIndex _ (accounts m)) as [i|] eqn:Ef.
  - left. pose proof Ef as Ef'.
    apply findIndex_Some in Ef' as (x & Hx & _).
    exists i, x. rewrite Hx. done.
  - right. done.
Qed.

(** X15. When no account in memory (after loading) is a duplicate of the
    new tokens, [addAccount] appends a fresh enabled account at the end,
    with the length of the list as index, and returns that index; the
    accounts before it are untouched, and it becomes the active account only
    if it is the first. *)
Theorem addAccount_appends_new (w : world) (now : Z) (tokens : TokenSuccess) :
  let accs := accounts (load w).1 in
  (forall a, a ∈ accs -> ~ duplicate_of base64_decode JSON_parse tokens a) ->
  let res := addAccount base64_decode JSON_parse w now tokens in
  exists new,
    res.2 = length accs
    /\ accounts res.1.1 = accs ++ [new]
    /\ index new = length accs
    /\ refreshToken new = refresh tokens
    /\ accessToken new = Some (access tokens)
    /\ accessTokenExpires new = Some (expires tokens)
    /\ addedAt new = now
    /\ lastUsed new = 0
    /\ enabled new = true
    /\ consecutiveFailures new = O
    /\ rateLimitResetTime new = None
    /\ activeIndex res.1.1
       = match accs with [] => Some 0%Q | _ :: _ => activeIndex (load w).1 end.
Proof.
  intros accs Hno res. subst res.
  destruct (addAccount_cases w now tokens) as [(i & ex & Hf & Hi & _)|[_ ->]].
  { exfalso. apply (Hno ex).
    - by apply list_elem_of_lookup_2 in Hi.
    - apply findIndex_Some in Hf as (x & Hx & Hsame & _).
      apply same_account_spec. congruence. }
  fold accs. eexists. cbn [fst snd saveToDisk].
  split; [done|]. split.
  { by destruct (Nat.eqb _ 1). }
  cbn [index refreshToken accessToken accessTokenExpires addedAt lastUsed
       enabled consecutiveFailures rateLimitResetTime].
  repeat (split; [done|]).
  rewrite length_app. cbn [length].
  destruct accs as [|a0 accs'] eqn:Ea; cbn [length]; [done|].
  replace (S (length accs') + 1 =? 1)%nat with false; [done|].
  symmetry. apply Nat.eqb_neq. lia.
Qed.

(** X16. [addAccount] writes through: when it returns, the storage file
    holds exactly the accounts and the active index in memory.  Called on a
    manager that has not loaded yet, it loads first, so every account
    [loadAccounts] reads from the file is still there afterwards, at the same
    position, except for the one the call updated. *)
Theorem addAccount_writes_through (strategy0 : AccountSelectionStrategy)
    (w : world) (d : disk) (now : Z) (tokens : TokenSuccess) :
  let res := addAccount base64_decode JSON_parse w now tokens in
  let res0 :=
    addAccount base64_decode JSON_parse (new_AccountManager strategy0, d) now
      tokens in
  res.1.2
  = saveAccounts
      (mkAccountStorage (List.map to_stored (accounts res.1.1))
         (default 0%Q (activeIndex res.1.1)))
  /\ forall (j : nat) b,
       st_accounts (loadAccounts d) !! j = Some b -> j <> res0.2 ->
       to_stored <$> accounts res0.1.1 !! j = Some b.
Proof.
  intros res res0. subst res res0. split.
  - destruct (addAccount_cases w now tokens) as [(i & ex & _ & _ & ->)|[_ ->]];
      [done|]. cbn [fst snd saveToDisk]. done.
  - intros j b Hb Hj.
    assert (Hl : accounts (load (new_AccountManager strategy0, d)).1 !! j
                 = Some (to_managed j b)).
    { cbn. by rewrite list_lookup_imap, Hb. }
    revert Hj.
    destruct (addAccount_cases (new_AccountManager strategy0, d) now tokens)
      as [(i & ex & _ & _ & ->)|[_ ->]]; cbn [fst snd saveToDisk]; intros Hj.
    + cbn [accounts with_healthTracker with_accounts].
      rewrite list_lookup_insert_ne by done. rewrite Hl. cbn.
      by rewrite to_stored_to_managed.
    + match goal with
      | |- context [accounts (if ?c then with_activeIndex _ ?m' else ?m')] =>
          replace (accounts (if c then with_activeIndex (Some 0%Q) m' else m'))
            with (accounts m') by (by destruct c)
      end.
      cbn [accounts with_accounts].
      rewrite lookup_app_l by (by apply lookup_lt_Some in Hl).
      rewrite Hl. cbn. by rewrite to_stored_to_managed.
Qed.

End AddAccount.

Lemma addAccount_appends_new_witness :
  let w : world := (ex_manager [ex_account 0 "r0" None], None) in
  exists new,
    (addAccount (fun s => s) read_json w 1000 (mkTokenSuccess "a1" "r1" 9000)).2
    = length (accounts (load w).1)
    /\ accounts (addAccount (fun s => s) read_json w 1000
                   (mkTokenSuccess "a1" "r1" 9000)).1.1
       = accounts (load w).1 ++ [new].
Proof.
  destruct (addAccount_appends_new (fun s => s) read_json
              (ex_manager [ex_account 0 "r0" None], None) 1000
              (mkTokenSuccess "a1" "r1" 9000)) as (new & H1 & H2 & _).
  - intros a Ha [Hd|(id & Hid & _)].
    + cbn in Ha. apply list_elem_of_singleton in Ha. subst a. discriminate Hd.
    + vm_compute in Hid. discriminate Hid.
  - exists new. split; [exact H1|exact H2].
Defined.

(** ** Input filtering, include list and reasoning effort *)

Lemma jget_jdel_eq (k : string) (o : jobject) : jget k (jdel k o) = None.
Proof.
  induction o as [|[k' v] o IH]; cbn; [done|].
  destruct (String.eqb k' k) eqn:E; cbn; [done|]. by rewrite E.
Qed.

Lemma jget_jdel_ne (k k' : string) (o : jobject) :
  k' <> k -> jget k' (jdel k o) = jget k' o.
Proof.
  intros Hne. induction o as [|[k0 v] o IH]; cbn; [done|].
  destruct (String.eqb k0 k) eqn:E; cbn.
  - apply String.eqb_eq in E as ->.
    destruct (String.eqb k k') eqn:E'; [|done].
    apply String.eqb_eq in E'. congruence.
  - by rewrite IH.
Qed.

Lemma jget_jset_ne (k k' : string) (v : json) (o : jobject) :
  k' <> k -> jget k' (jset k v o) = jget k' o.
Proof.
  intros Hne. induction o as [|[k0 v0] o IH]; cbn.
  - destruct (String.eqb k k') eqn:E; [|done].
    apply String.eqb_eq in E. congruence.
  - destruct (String.eqb k0 k) eqn:E; cbn; [|by rewrite IH].
    apply String.eqb_eq in E as ->.
    destruct (String.eqb k k') eqn:E'; [|done].
    apply String.eqb_eq in E'. congruence.
Qed.

Lemma strip_id_stateless (item : InputItem) :
  item_type item "item_reference" = false ->
  stateless_item (match jget "id" item with
                  | Some i => if jtruthy i then jdel "id" item else item
                  | None => item
                  end).
Proof.
  intros Ht. unfold stateless_item, has_id, item_type in *.
  destruct (jget "id" item) as [i|] eqn:Ei.
  - destruct (jtruthy i) eqn:Et.
    + by rewrite jget_jdel_eq, jget_jdel_ne.
    + by rewrite Ei, Et.
  - by rewrite Ei.
Qed.

Lemma filterInput_fixed (input : list InputItem) :
  Forall stateless_item input -> filterInput input = input.
Proof.
  unfold filterInput. induction 1 as [|item input [Ht Hi] _ IH]; [done|].
  cbn [List.filter]. rewrite Ht. cbn [negb List.map]. rewrite IH. f_equal.
  unfold has_id in Hi. destruct (jget "id" item) as [i|]; [|done].
  by rewrite Hi.
Qed.

Lemma filterInput_stateless (input : list InputItem) :
  Forall stateless_item (filterInput input).
Proof.
  unfold filterInput. induction input as [|item input IH]; [constructor|].
  cbn [List.filter]. destruct (item_type item "item_reference") eqn:Ht;
    cbn [negb List.map]; [done|].
  constructor; [by apply strip_id_stateless|done].
Qed.

(** X17. [filterInput] drops the [item_reference] items and removes every
    truthy [id]: none is left in its result, a list that has none already is
    returned as it is, and filtering twice is filtering once. *)
Theorem filterInput_spec (input : list InputItem) :
  Forall stateless_item (filterInput input)
  /\ (Forall stateless_item input -> filterInput input = input)
  /\ filterInput (filterInput input) = filterInput input
  /\ (length (filterInput input) <= length input)%nat.
Proof.
  split; [apply filterInput_stateless|]. split; [apply filterInput_fixed|].
  split; [apply filterInput_fixed, filterInput_stateless|].
  unfold filterInput. rewrite length_map. apply List.filter_length_le.
Qed.

Lemma dedup_strings_elem (seen xs : list string) (x : string) :
  x ∈ dedup_strings seen xs <-> x ∈ xs /\ x ∉ seen.
Proof.
  revert seen. induction xs as [|y xs IH]; intros seen; cbn.
  { split; [by intros ?%elem_of_nil|by intros [?%elem_of_nil _]]. }
  destruct (List.existsb (String.eqb y) seen) eqn:E.
  - apply existsb_exists in E as (z & Hz & ->%String.eqb_eq).
    apply list_elem_of_In in Hz. rewrite IH. split.
    + intros [? ?]. split; [by right|done].
    + intros [[->|?]%elem_of_cons ?]; done.
  - assert (y ∉ seen) as Hy.
    { intros Hin%list_elem_of_In.
      assert (List.existsb (String.eqb y) seen = true); [|congruence].
      apply existsb_exists. exists y. split; [done|apply String.eqb_refl]. }
    rewrite elem_of_cons, IH, not_elem_of_cons. split.
    + intros [->|[? [? ?]]]; [split; [by left|done]|split; [by right|done]].
    + intros [[->|?]%elem_of_cons ?]; [by left|].
      destruct (decide (x = y)) as [->|?]; [by left|by right].
Qed.

Lemma dedup_strings_NoDup (seen xs : list string) :
  NoDup (dedup_strings seen xs).
Proof.
  revert seen. induction xs as [|y xs IH]; intros seen; cbn; [constructor|].
  destruct (List.existsb (String.eqb y) seen); [done|].
  apply NoDup_cons. split; [|done].
  rewrite dedup_strings_elem, not_elem_of_cons. tauto.
Qed.

Lemma resolveInclude_facts (modelConfig : ConfigOptions) (body : RequestBody) :
  let r := resolveInclude modelConfig body in
  "reasoning.encrypted_content" ∈ r
  /\ NoDup r
  /\ (forall s, s ∈ r ->
        s <> EmptyString
        /\ (s = "reasoning.encrypted_content"
            \/ s ∈ include_base modelConfig body))
  /\ (forall s, s ∈ include_base modelConfig body -> s <> EmptyString ->
        s ∈ r).
Proof.
  intros r. subst r. unfold resolveInclude. fold (include_base modelConfig body).
  set (base := include_base modelConfig body).
  set (inc := dedup_strings [] (List.filter Js.truthy base)).
  assert (Hinc : forall s, s ∈ inc <-> s ∈ base /\ s <> EmptyString).
  { intros s. unfold inc. rewrite dedup_strings_elem.
    rewrite !list_elem_of_In, filter_In. split.
    - intros [[? Ht] _]. split; [done|]. by destruct s.
    - intros [? Hs]. split; [|by intros []].
      split; [done|]. by destruct s. }
  pose proof (dedup_strings_NoDup [] (List.filter Js.truthy base)) as Hnd.
  fold inc in Hnd.
  destruct (List.existsb (String.eqb "reasoning.encrypted_content") inc) eqn:E.
  - apply existsb_exists in E as (z & Hz & <-%String.eqb_eq).
    apply list_elem_of_In in Hz.
    split; [done|]. split; [done|]. split.
    + intros s Hs%Hinc. split; [tauto|right; tauto].
    + intros s ? ?. by apply Hinc.
  - assert ("reasoning.encrypted_content" ∉ inc) as Hno.
    { intros Hin%list_elem_of_In.
      assert (List.existsb (String.eqb "reasoning.encrypted_content") inc
              = true); [|congruence].
      apply existsb_exists. eexists. split; [done|apply String.eqb_refl]. }
    split; [apply elem_of_app; right; by left|]. split.
    { apply NoDup_app. split; [done|]. split; [|apply NoDup_singleton].
      by intros s Hs ->%list_elem_of_singleton. }
    split.
    + intros s [Hs%Hinc| ->%list_elem_of_singleton]%elem_of_app.
      * split; [tauto|right; tauto].
      * split; [done|by left].
    + intros s ? ?. apply elem_of_app. left. by apply Hinc.
Qed.

(** X18. The include list always names [reasoning.encrypted_content], once;
    it holds no entry twice and no empty entry, and apart from that name it
    holds exactly the non-empty entries of the list it starts from (the
    body's, else the provider options', else the model configuration's). *)
Theorem resolveInclude_spec (modelConfig : ConfigOptions) (body : RequestBody) :
  let r := resolveInclude modelConfig body in
  "reasoning.encrypted_content" ∈ r
  /\ NoDup r
  /\ (forall s, s ∈ r ->
        s <> EmptyString
        /\ (s = "reasoning.encrypted_content"
            \/ s ∈ include_base modelConfig body))
  /\ (forall s, s ∈ include_base modelConfig body -> s <> EmptyString ->
        s ∈ r).
Proof. exact (resolveInclude_facts modelConfig body). Qed.

(** The traits of the model decide the effort: [getReasoningConfig] is the
    clamping below, applied to the traits of the lower-cased model name. *)
Lemma getReasoningConfig_traits (modelName : option string)
    (userConfig : ConfigOptions) :
  let n := match modelName with
           | Some m => Js.toLowerCase m
           | None => EmptyString
           end in
  exists isLightweight : bool,
    getReasoningConfig modelName userConfig
    = (let mini := isCodexMini n in
       let xhigh := supportsXhigh n in
       let none := supportsNone n in
       let defaultEffort :=
         if mini then effort_medium
         else if xhigh then effort_high
         else if isLightweight then effort_minimal
         else effort_medium in
       let effort0 := default defaultEffort (reasoningEffort userConfig) in
       let effort1 :=
         if mini then
           let e1 := match effort0 with
                     | effort_minimal | effort_low | effort_none =>
                         effort_medium
                     | e => e
                     end in
           let e2 := match e1 with effort_xhigh => effort_high | e => e end in
           match e2 with
           | effort_high | effort_medium => e2
           | _ => effort_medium
           end
         else effort0 in
       let effort2 :=
         match effort1 with
         | effort_xhigh => if negb xhigh then effort_high else effort1
         | _ => effort1
         end in
       let effort3 :=
         match effort2 with
         | effort_none => if negb none then effort_low else effort2
         | _ => effort2
         end in
       let effort4 :=
         match effort3 with effort_minimal => effort_low | e => e end in
       mkReasoningConfig effort4
         (default summary_auto (reasoningSummary userConfig))).
Proof.
  intros n.
  exists (negb (isCodexMini n)
          && (Js.includes n "nano" || Js.includes n "mini")).
  reflexivity.
Qed.

Lemma getReasoningConfig_effort_cases (modelName : option string)
    (userConfig : ConfigOptions) :
  let n := match modelName with
           | Some m => Js.toLowerCase m
           | None => EmptyString
           end in
  let r := getReasoningConfig modelName userConfig in
  effort r <> effort_minimal
  /\ (effort r = effort_xhigh ->
      reasoningEffort userConfig = Some effort_xhigh /\ supportsXhigh n = true)
  /\ (effort r = effort_none ->
      reasoningEffort userConfig = Some effort_none /\ supportsNone n = true)
  /\ (isCodexMini n = true ->
      effort r = effort_medium \/ effort r = effort_high)
  /\ (isCodexMini n = false -> supportsXhigh n = true ->
      reasoningEffort userConfig = Some effort_xhigh ->
      effort r = effort_xhigh)
  /\ summary r = default summary_auto (reasoningSummary userConfig).
Proof.
  intros n r.
  destruct (getReasoningConfig_traits modelName userConfig) as [lw Hr].
  fold n r in Hr. clearbody r. revert Hr.
  generalize (isCodexMini n) (supportsXhigh n) (supportsNone n).
  generalize (reasoningSummary userConfig) (reasoningEffort userConfig).
  intros rs re mini xh nn Hr.
  destruct re as [e|]; [destruct e|];
    destruct mini, xh, nn, lw; cbv in Hr; subst r;
    cbn [effort summary];
    repeat split; intros; try done; try congruence; auto.
Qed.

(** ** Orphan repair is idempotent *)

Lemma mapM_fixed {A : Type} (f : A -> option A) (l : list A) :
  (forall x, x ∈ l -> f x = Some x) -> mapM f l = Some l.
Proof.
  intros H. apply mapM_Some. induction l as [|x l IH]; constructor.
  - apply H. by left.
  - apply IH. intros y Hy. apply H. by right.
Qed.

Section RepairFacts.

Variable JSON_stringify : json -> string.

Lemma convertOrphanedOutputToMessage_message (item y : InputItem)
    (cid : option string) :
  convertOrphanedOutputToMessage JSON_stringify item cid = Some y ->
  forall ty, ty <> "message" -> item_type y ty = false.
Proof.
  unfold convertOrphanedOutputToMessage.
  destruct (output_text JSON_stringify item); [|done]. intros [= <-] ty Hty.
  unfold item_type. change (jget "type" _) with (Some (JStr "message")).
  destruct (String.eqb "message" ty) eqn:E; [|done].
  apply String.eqb_eq in E. by destruct Hty.
Qed.

Lemma convertOrphanedOutputToMessage_stateless (item y : InputItem)
    (cid : option string) :
  convertOrphanedOutputToMessage JSON_stringify item cid = Some y ->
  stateless_item y.
Proof.
  unfold convertOrphanedOutputToMessage.
  destruct (output_text JSON_stringify item); [|done]. by intros [= <-].
Qed.

(** What [repair_item] answers: the item itself, or the message that stands
    for an output item. *)
Lemma repair_item_cases (ids : CallIdSets) (x y : InputItem) :
  repair_item JSON_stringify ids x = Some y ->
  y = x
  \/ ((item_type x "function_call_output" = true
       \/ item_type x "custom_tool_call_output" = true
       \/ item_type x "local_shell_call_output" = true)
      /\ convertOrphanedOutputToMessage JSON_stringify x (getCallId x)
         = Some y).
Proof.
  unfold repair_item.
  destruct (item_type x "function_call_output" && _) eqn:E1.
  { apply andb_prop in E1 as [E1 _]. intros H. right. tauto. }
  destruct (item_type x "custom_tool_call_output" && _) eqn:E2.
  { apply andb_prop in E2 as [E2 _]. intros H. right. tauto. }
  destruct (item_type x "local_shell_call_output" && _) eqn:E3.
  { apply andb_prop in E3 as [E3 _]. intros H. right. tauto. }
  intros [= <-]. by left.
Qed.

(** Orphan repair changes no call item, so the calls of the result are the
    calls of the input. *)
Lemma repair_has_call (ids : CallIdSets) (input out : list InputItem)
    (ty cid : string) :
  Forall2 (fun x y => repair_item JSON_stringify ids x = Some y) input out ->
  ty <> "message" -> ty <> "function_call_output" ->
  ty <> "custom_tool_call_output" -> ty <> "local_shell_call_output" ->
  has_call out ty cid <-> has_call input ty cid.
Proof.
  intros HF Hm H1 H2 H3.
  induction HF as [|x y input out Hxy HF IH].
  { split; intros H; by apply has_call_nil in H. }
  rewrite !has_call_cons, IH.
  assert ((item_type y ty = true /\ getCallId y = Some cid)
          <-> (item_type x ty = true /\ getCallId x = Some cid)); [|tauto].
  destruct (repair_item_cases ids x y Hxy) as [->|[Hout Hconv]]; [done|].
  pose proof (convertOrphanedOutputToMessage_message x y _ Hconv ty Hm) as Hy.
  assert (item_type x ty = false) as Hx.
  { destruct Hout as [Ho|[Ho|Ho]];
      apply (item_type_excl x _ ty Ho); congruence. }
  rewrite Hx, Hy. split; intros [? _]; done.
Qed.

Lemma orphaned_same_calls (input out : list InputItem) (item : InputItem) :
  (forall ty cid,
     ty <> "message" -> ty <> "function_call_output" ->
     ty <> "custom_tool_call_output" -> ty <> "local_shell_call_output" ->
     has_call out ty cid <-> has_call input ty cid) ->
  orphaned out item -> orphaned input item.
Proof.
  intros Hc. unfold orphaned.
  assert (Hf : forall cid, has_call out "function_call" cid
                 <-> has_call input "function_call" cid)
    by (intros; by apply Hc).
  assert (Hl : forall cid, has_call out "local_shell_call" cid
                 <-> has_call input "local_shell_call" cid)
    by (intros; by apply Hc).
  assert (Hu : forall cid, has_call out "custom_tool_call" cid
                 <-> has_call input "custom_tool_call" cid)
    by (intros; by apply Hc).
  intros [[Ht H]|[[Ht H]|[Ht H]]].
  - left. split; [done|]. intros cid Hcid. rewrite <- Hf, <- Hl. by apply H.
  - right. left. split; [done|]. intros cid Hcid. rewrite <- Hu. by apply H.
  - right. right. split; [done|]. intros cid Hcid. rewrite <- Hl.
    by apply H.
Qed.

Lemma normalizeOrphanedToolOutputs_fixed (input out : list InputItem) :
  normalizeOrphanedToolOutputs JSON_stringify input = Some out ->
  normalizeOrphanedToolOutputs JSON_stringify out = Some out
  /\ forall item, item ∈ out -> ~ orphaned out item.
Proof.
  unfold normalizeOrphanedToolOutputs. intros HF%mapM_Some.
  assert (Hno : forall item, item ∈ out -> ~ orphaned out item).
  { intros y Hy Horph.
    apply (orphaned_same_calls input out) in Horph;
      [|intros; by apply (repair_has_call (collectCallIds input))].
    apply list_elem_of_lookup_1 in Hy as [i Hi].
    destruct (Forall2_lookup_r _ _ _ _ _ HF Hi) as (x & Hx & Hxy).
    destruct (repair_item_cases _ x y Hxy) as [->|[_ Hconv]].
    - rewrite (repair_item_orphaned JSON_stringify input x Horph) in Hxy.
      pose proof (convertOrphanedOutputToMessage_message x x _ Hxy) as Hm.
      destruct Horph as [[Ht _]|[[Ht _]|[Ht _]]];
        rewrite Hm in Ht; done.
    - pose proof (convertOrphanedOutputToMessage_message x y _ Hconv) as Hm.
      destruct Horph as [[Ht _]|[[Ht _]|[Ht _]]];
        rewrite Hm in Ht; done. }
  split; [|done]. apply mapM_fixed. intros y Hy.
  apply repair_item_paired. by apply Hno.
Qed.

(** X19. Orphan repair is idempotent: the sequence it returns has no
    orphaned output left, so repairing it again returns it unchanged. *)
Theorem normalizeOrphanedToolOutputs_idempotent (input out : list InputItem) :
  normalizeOrphanedToolOutputs JSON_stringify input = Some out ->
  normalizeOrphanedToolOutputs JSON_stringify out = Some out
  /\ forall item, item ∈ out -> ~ orphaned out item.
Proof. exact (normalizeOrphanedToolOutputs_fixed input out). Qed.

End RepairFacts.

Lemma normalizeOrphanedToolOutputs_idempotent_witness :
  normalizeOrphanedToolOutputs write_json
    [ ex_call "function_call" "X";
      [ ("type", JStr "message"); ("role", JStr "assistant");
        ("content", JStr "[Previous tool result; call_id=Y]: hi") ] ]
  = Some [ ex_call "function_call" "X";
           [ ("type", JStr "message"); ("role", JStr "assistant");
             ("content", JStr "[Previous tool result; call_id=Y]: hi") ] ].
Proof.
  apply (normalizeOrphanedToolOutputs_idempotent write_json
           [ ex_call "function_call" "X";
             ex_output "function_call_output" "Y" "hi" ]).
  by vm_compute.
Defined.

(** ** Filtering the OpenCode system prompts *)

Lemma replaceContentText_frame (item : InputItem) (text k : string) :
  k <> "content" ->
  jget k (replaceContentText item text) = jget k item.
Proof.
  intros Hk. unfold replaceContentText.
  destruct (jget "content" item) as [[]|]; by apply jget_jset_ne.
Qed.

Lemma isOpenCodeSystemPrompt_role (item : InputItem)
    (cachedPrompt : option string) :
  isOpenCodeSystemPrompt item cachedPrompt = true ->
  item_role item "developer" = true \/ item_role item "system" = true.
Proof.
  unfold isOpenCodeSystemPrompt, item_role.
  destruct (jget "role" item) as [[| | | |r| |]|]; try done.
  destruct (String.eqb r "developer"); [by left|].
  destruct (String.eqb r "system"); [by right|done].
Qed.

(** The context starts where the marker is found in the lower-cased text,
    counted in code units, and is cut out of the text itself: one U+0130
    before the marker, one code unit longer in lower case, moves the cut by
    one. *)
Example extractOpenCodeContext_position :
  extractOpenCodeContext "I <env> x" = Some "<env> x"
  /\ extractOpenCodeContext "é <ENV> x" = Some "<ENV> x"
  /\ extractOpenCodeContext "İ <env> x" = Some "env> x".
Proof. by vm_compute. Qed.





(** ** What the transformed request carries *)

Lemma filterOpenCode_stateless (input : list InputItem)
    (cachedPrompt : option string) :
  Forall stateless_item input ->
  Forall stateless_item
    (filterOpenCodeSystemPromptsWithCachedPrompt input cachedPrompt).
Proof.
  unfold filterOpenCodeSystemPromptsWithCachedPrompt.
  induction 1 as [|item input Hi _ IH]; [constructor|].
  cbn [List.flat_map]. apply Forall_app. split; [|done].
  destruct (match jget "role" item with
            | Some (JStr r) => String.eqb r "user"
            | _ => false
            end); [by constructor|].
  destruct (negb (isOpenCodeSystemPrompt item cachedPrompt));
    [by constructor|].
  destruct (extractOpenCodeContext (getContentText item)) as [ctx|];
    [|constructor].
  destruct (Js.truthy ctx); [|constructor].
  constructor; [|constructor].
  destruct Hi as [Ht Hid]. unfold stateless_item, item_type, has_id in *.
  by rewrite !replaceContentText_frame.
Qed.

Section TransformerOutput.

Variables bridge remap : string.
Variable JSON_stringify : json -> string.

Lemma repair_stateless (ids : CallIdSets) (input out : list InputItem) :
  Forall stateless_item input ->
  mapM (repair_item JSON_stringify ids) input = Some out ->
  Forall stateless_item out.
Proof.
  intros Hin HF%mapM_Some. induction HF as [|x y input out Hxy _ IH];
    [constructor|].
  apply Forall_cons in Hin as [Hx Hin]. constructor; [|by apply IH].
  destruct (repair_item_cases JSON_stringify ids x y Hxy) as [->|[_ Hc]];
    [done|].
  by apply (convertOrphanedOutputToMessage_stateless JSON_stringify x y _ Hc).
Qed.

Lemma clean_input_stateless (cachedPrompt : option string)
    (codexMode hasTools : bool) (input : list InputItem) :
  Forall stateless_item
    (clean_input bridge remap cachedPrompt codexMode hasTools input).
Proof.
  unfold clean_input, addCodexBridgeMessage, addToolRemapMessage.
  pose proof (filterInput_stateless input) as Hf.
  destruct codexMode, hasTools; cbn [negb];
    repeat (constructor; [done|]);
    try done; by apply filterOpenCode_stateless.
Qed.

(** X21. When [transformRequestBody] returns, the input of the body holds
    no [item_reference], no item with an [id] and no orphaned tool output
    (repairing it again changes nothing); the reasoning effort is never
    [minimal]; and the include list names [reasoning.encrypted_content] and
    holds no entry twice. *)
Theorem transformRequestBody_output (h : heap) (body : ref)
    (b0 : RequestBody) (codexInstructions : string) (userConfig : UserConfig)
    (codexMode : bool) (cachedPrompt : option string) :
  h !! body = Some b0 ->
  let res :=
    transformRequestBody bridge remap JSON_stringify h body codexInstructions
      userConfig codexMode cachedPrompt in
  res.2 = Some body ->
  exists b',
    res.1 !! body = Some b'
    /\ (input b0 = None -> input b' = None)
    /\ (forall inp, input b' = Some inp ->
          Forall stateless_item inp
          /\ normalizeOrphanedToolOutputs JSON_stringify inp = Some inp)
    /\ (exists e s,
          reasoning b' = Some (mkPartialReasoning (Some e) (Some s))
          /\ e <> effort_minimal)
    /\ (exists inc,
          include b' = Some inc
          /\ "reasoning.encrypted_content" ∈ inc /\ NoDup inc).
Proof.
  intros Hb res. subst res.
  assert (Hm : (exists o, model b0 = model_name <$> o)
               \/ exists k, model b0 = Some (inherited_property k)).
  { destruct (model b0) as [[m|k]|].
    - left. by exists (Some m).
    - right. by exists k.
    - left. by exists None. }
  destruct Hm as [[originalModel Hm]|[k Hk]];
    [|unfold transformRequestBody; by rewrite Hb, Hk].
  rewrite (transformRequestBody_result bridge remap JSON_stringify h body b0
             originalModel _ _ _ _ Hb Hm).
  cbv zeta.
  assert (Heff : forall m c b,
            effort (resolveReasoningConfig m c b) <> effort_minimal).
  { intros m c b. unfold resolveReasoningConfig.
    apply getReasoningConfig_effort_cases. }
  assert (Hinc : forall c b,
            "reasoning.encrypted_content" ∈ resolveInclude c b
            /\ NoDup (resolveInclude c b)).
  { intros c b. destruct (resolveInclude_facts c b) as (? & ? & _). done. }
  destruct (input b0) as [inp|] eqn:Hinp.
  - destruct (normalizeOrphanedToolOutputs JSON_stringify _)
      as [repaired|] eqn:Hrep; [|done].
    destruct (normalizeModel originalModel) as [name|k]; [|done].
    cbn [fst snd]. intros _.
    eexists. split; [apply lookup_insert_eq|]. body_fields.
    split; [done|]. split.
    { intros ? [= <-]. split.
      - apply (repair_stateless _ _ _ (clean_input_stateless _ _ _ _) Hrep).
      - by apply (normalizeOrphanedToolOutputs_fixed _ _ _ Hrep). }
    split; [by eexists _, _|]. eexists. split; [done|]. apply Hinc.
  - destruct (normalizeModel originalModel) as [name|k]; [|done].
    cbn [fst snd]. intros _.
    eexists. split; [apply lookup_insert_eq|]. body_fields.
    split; [done|]. split; [by rewrite Hinp|].
    split; [by eexists _, _|]. eexists. split; [done|]. apply Hinc.
Qed.

End TransformerOutput.

Lemma transformRequestBody_output_witness :
  let h : heap := {[ 1%positive := ex_body ]} in
  let res :=
    transformRequestBody "bridge" "remap" write_json h 1%positive
      "instructions" (mkUserConfig None []) true None in
  exists b', res.1 !! 1%positive = Some b'.
Proof.
  intros h res.
  destruct (transformRequestBody_output "bridge" "remap" write_json h
              1%positive ex_body "instructions" (mkUserConfig None []) true
              None eq_refl eq_refl)
    as (b' & Hb' & _).
  exists b'. exact Hb'.
Defined.

(** ** Model names *)

Lemma split_on_nonempty (c : Ascii.ascii) (s : string) : Js.split_on c s <> [].
Proof.
  destruct s as [|a s]; cbn; [done|].
  destruct (Ascii.eqb a c); [done|]. by destruct (Js.split_on c s).
Qed.

Lemma split_on_app (c : Ascii.ascii) (p m : string) :
  Js.split_on c (p +:+ String c m) = Js.split_on c p ++ Js.split_on c m.
Proof.
  induction p as [|a p IH]; cbn [String.append Js.split_on].
  - by rewrite Ascii.eqb_refl.
  - rewrite IH. destruct (Ascii.eqb a c); [done|].
    pose proof (split_on_nonempty c p). by destruct (Js.split_on c p).
Qed.

Lemma last_app_nonempty {A : Type} (l1 l2 : list A) (d : A) :
  l2 <> [] -> List.last (l1 ++ l2) d = List.last l2 d.
Proof.
  intros Hne. induction l1 as [|x l1 IH]; [done|].
  cbn [app]. rewrite <- IH. cbn.
  destruct (l1 ++ l2) eqn:E; [|done].
  apply app_eq_nil in E as [_ ?]. done.
Qed.

Lemma split_on_absent (c : Ascii.ascii) (s : string) :
  Js.includes s (String c EmptyString) = false -> Js.split_on c s = [s].
Proof.
  induction s as [|a s IH]; [done|].
  cbn [Js.includes Js.startsWith Js.split_on].
  intros [H1 H2]%orb_false_elim. rewrite andb_true_r in H1.
  rewrite H1, (IH H2). done.
Qed.

(** The model id is what follows the last slash. *)
Lemma modelId_last (m : string) :
  (if Js.includes m "/" then Js.pop (Js.split m "/") else m)
  = List.last (Js.split_on "/" m) EmptyString.
Proof.
  destruct (Js.includes m "/") eqn:E; [done|].
  by rewrite (split_on_absent "/" m E).
Qed.

Lemma normalizeModel_by_last (s s' : string) :
  Js.truthy s = true -> Js.truthy s' = true ->
  List.last (Js.split_on "/" s) EmptyString
  = List.last (Js.split_on "/" s') EmptyString ->
  normalizeModel (Some s) = normalizeModel (Some s').
Proof.
  intros Hs Hs' Hl. unfold normalizeModel. rewrite Hs, Hs'. cbn [negb].
  by rewrite !modelId_last, Hl.
Qed.

(** X22. A provider prefix does not matter: [normalizeModel] answers for
    [prefix/model] what it answers for [model]. *)
Theorem normalizeModel_provider_prefix (prefix m : string) :
  normalizeModel (Some (prefix +:+ "/" +:+ m)) = normalizeModel (Some m).
Proof.
  assert (Hl : forall m',
            List.last (Js.split_on "/" (prefix +:+ "/" +:+ m')) EmptyString
            = List.last (Js.split_on "/" m') EmptyString).
  { intros m'. change ("/" +:+ m') with (String "/" m').
    rewrite split_on_app. apply last_app_nonempty, split_on_nonempty. }
  assert (Ht : forall m', Js.truthy (prefix +:+ "/" +:+ m') = true)
    by (intros m'; by destruct prefix).
  destruct m as [|a m].
  - rewrite (normalizeModel_by_last _ "/" (Ht _) eq_refl); [done|].
    by rewrite Hl.
  - apply normalizeModel_by_last; [apply Ht|done|apply Hl].
Qed.

Lemma lower_ascii_slash (a : Ascii.ascii) :
  Ascii.eqb (Js.lower_ascii a) "/" = Ascii.eqb a "/".
Proof. by destruct a as [[] [] [] [] [] [] [] []]. Qed.

Lemma high_not_slash (a : Ascii.ascii) (n : N) :
  (128 <= n)%N -> (Ascii.N_of_ascii a =? n)%N = true ->
  Ascii.eqb a "/" = false.
Proof.
  intros Hn Ha%N.eqb_eq. destruct (Ascii.eqb_spec a "/") as [->|]; [|done].
  cbn in Ha. lia.
Qed.

(** The first part of a split is the text up to the first separator. *)
Lemma split_on_head (c : Ascii.ascii) (s w : string) (ws : list string) :
  Js.split_on c s = w :: ws -> exists r, s = w +:+ r.
Proof.
  revert w ws. induction s as [|a s IH]; intros w ws; cbn [Js.split_on].
  - intros [= <- <-]. by exists EmptyString.
  - destruct (Ascii.eqb a c).
    + intros [= <- <-]. by eexists.
    + destruct (Js.split_on c s) as [|w' ws'] eqn:E.
      * intros [= <- <-]. by exists s.
      * intros [= <- <-]. destruct (IH _ _ eq_refl) as [r ->]. by exists r.
Qed.

(** A byte that is lower-cased on its own before a text is lower-cased on
    its own before every beginning of that text. *)
Lemma toLowerCase_cons_prefix (c : ascii) (w r : string) :
  match w +:+ r with
  | String c1 s2 =>
      Js.dotted_I c c1 = false
      /\ match s2 with
         | String c2 _ => Js.kelvin c c1 c2 = false
         | EmptyString => True
         end
  | EmptyString => True
  end ->
  Js.toLowerCase (String c w) = String (Js.lower_ascii c) (Js.toLowerCase w).
Proof.
  rewrite (Js.toLowerCase_equation (String c _)).
  destruct w as [|c1 [|c2 w3]]; cbn [String.append]; [done| |].
  - by intros [-> _].
  - by intros [-> ->].
Qed.

Lemma split_on_lower (s : string) :
  Js.split_on "/" (Js.toLowerCase s)
  = List.map Js.toLowerCase (Js.split_on "/" s).
Proof.
  assert (Hstep : forall c s1,
            Js.split_on "/" (Js.toLowerCase s1)
            = List.map Js.toLowerCase (Js.split_on "/" s1) ->
            match s1 with
            | String c1 s2 =>
                Js.dotted_I c c1 = false
                /\ match s2 with
                   | String c2 _ => Js.kelvin c c1 c2 = false
                   | EmptyString => True
                   end
            | EmptyString => True
            end ->
            Js.split_on "/" (String (Js.lower_ascii c) (Js.toLowerCase s1))
            = List.map Js.toLowerCase (Js.split_on "/" (String c s1))).
  { intros c s1 IH Hc. cbn [Js.split_on]. rewrite lower_ascii_slash, IH.
    destruct (Ascii.eqb c "/"); [done|].
    destruct (Js.split_on "/" s1) as [|w ws] eqn:E; cbn [List.map].
    { by destruct (split_on_nonempty "/" s1). }
    f_equal. destruct (split_on_head _ _ _ _ E) as [r ->].
    symmetry. by apply (toLowerCase_cons_prefix c w r). }
  functional induction (Js.toLowerCase s).
  - done.
  - cbn [Js.split_on List.map]. rewrite lower_ascii_slash.
    by destruct (Ascii.eqb c "/").
  - unfold Js.dotted_I in e0.
    apply andb_prop in e0 as [Ec Ec1].
    pose proof (high_not_slash _ 196 ltac:(lia) Ec) as Hc.
    pose proof (high_not_slash _ 176 ltac:(lia) Ec1) as Hc1.
    cbn [Js.split_on]. rewrite Hc, Hc1, IHs0.
    change (Ascii.eqb "i" "/") with false.
    change (Ascii.eqb (Ascii.ascii_of_N 204) "/") with false.
    change (Ascii.eqb (Ascii.ascii_of_N 135) "/") with false.
    cbv iota.
    destruct (Js.split_on "/" s2) as [|w ws] eqn:E; cbn [List.map].
    { by destruct (split_on_nonempty "/" s2). }
    f_equal. rewrite (Js.toLowerCase_equation (String c _)).
    unfold Js.dotted_I. by rewrite Ec, Ec1.
  - unfold Js.kelvin in e2.
    apply andb_prop in e2 as [[Ec Ec1]%andb_prop Ec2].
    pose proof (high_not_slash _ 226 ltac:(lia) Ec) as Hc.
    pose proof (high_not_slash _ 132 ltac:(lia) Ec1) as Hc1.
    pose proof (high_not_slash _ 170 ltac:(lia) Ec2) as Hc2.
    cbn [Js.split_on]. rewrite Hc, Hc1, Hc2, IHs0.
    change (Ascii.eqb "k" "/") with false. cbv iota.
    destruct (Js.split_on "/" s3) as [|w ws] eqn:E; cbn [List.map].
    { by destruct (split_on_nonempty "/" s3). }
    f_equal. rewrite (Js.toLowerCase_equation (String c _)), e0.
    unfold Js.kelvin. by rewrite Ec, Ec1, Ec2.
  - apply Hstep; [done|]. by split.
  - apply Hstep; [done|]. by split.
Qed.

Lemma last_map_lower (l : list string) :
  List.last (List.map Js.toLowerCase l) EmptyString
  = Js.toLowerCase (List.last l EmptyString).
Proof.
  induction l as [|x l IH]; [done|]. cbn [List.map].
  destruct l as [|y l]; [done|]. exact IH.
Qed.

Lemma MODEL_MAP_keys_lower (kv : string * string) :
  In kv MODEL_MAP -> Js.toLowerCase kv.1 = kv.1.
Proof.
  assert (H : forallb (fun kv : string * string =>
                         String.eqb (Js.toLowerCase kv.1) kv.1) MODEL_MAP
              = true) by by vm_compute.
  rewrite forallb_forall in H. intros Hin. by apply String.eqb_eq, H.
Qed.

Lemma map_get_Some_In (k v : string) (m : list (string * string)) :
  map_get k m = Some v -> In (k, v) m.
Proof.
  induction m as [|[k' v'] m IH]; cbn; [done|].
  destruct (String.eqb k' k) eqn:E.
  - apply String.eqb_eq in E as ->. intros [= ->]. by left.
  - intros H. right. by apply IH.
Qed.

(** No key of the table is a property name of [Object.prototype]. *)
Lemma MODEL_MAP_keys_own (kv : string * string) :
  In kv MODEL_MAP ->
  List.existsb (String.eqb kv.1) Object_prototype_keys = false.
Proof.
  assert (H : forallb (fun kv : string * string =>
                         negb (List.existsb (String.eqb kv.1)
                                 Object_prototype_keys)) MODEL_MAP
              = true) by by vm_compute.
  rewrite forallb_forall in H. intros Hin. by apply negb_true_iff, H.
Qed.

Lemma MODEL_MAP_get_own (k : string) :
  List.existsb (String.eqb k) Object_prototype_keys = false ->
  MODEL_MAP_get k = model_name <$> map_get k MODEL_MAP.
Proof.
  intros H. unfold MODEL_MAP_get. rewrite H.
  by destruct (map_get k MODEL_MAP).
Qed.

Lemma MODEL_MAP_get_inherited (k : string) :
  List.existsb (String.eqb k) Object_prototype_keys = true ->
  MODEL_MAP_get k = Some (inherited_property k).
Proof.
  intros H. unfold MODEL_MAP_get. rewrite H.
  destruct (map_get k MODEL_MAP) as [v|] eqn:Hg; [|done].
  apply map_get_Some_In, MODEL_MAP_keys_own in Hg. cbn [fst] in Hg.
  congruence.
Qed.

(** A name that is no inherited property is looked up among the keys of the
    table, without regard to letter case. *)
Lemma getNormalizedModel_by_search (modelId : string) :
  List.existsb (String.eqb modelId) Object_prototype_keys = false ->
  getNormalizedModel modelId
  = match List.find (fun kv : string * string =>
                       String.eqb (Js.toLowerCase kv.1)
                         (Js.toLowerCase modelId)) MODEL_MAP with
    | Some kv => model_name <$> map_get kv.1 MODEL_MAP
    | None => None
    end.
Proof.
  intros Hown. unfold getNormalizedModel. rewrite (MODEL_MAP_get_own _ Hown).
  destruct (map_get modelId MODEL_MAP) as [v|] eqn:Hg;
    cbn [fmap option_fmap option_map].
  - pose proof (map_get_Some_In _ _ _ Hg) as Hin.
    pose proof (MODEL_MAP_keys_lower _ Hin) as Hlow. cbn [fst] in Hlow.
    destruct (List.find _ MODEL_MAP) as [kv|] eqn:Hf.
    + apply find_some in Hf as [Hkv Heq]. apply String.eqb_eq in Heq.
      rewrite (MODEL_MAP_keys_lower _ Hkv), Hlow in Heq.
      by rewrite Heq, Hg.
    + pose proof (find_none _ _ Hf _ Hin) as Hn. cbn [fst] in Hn.
      by rewrite String.eqb_refl in Hn.
  - destruct (List.find _ MODEL_MAP) as [kv|] eqn:Hf; [|done].
    apply find_some in Hf as [Hkv _].
    by rewrite (MODEL_MAP_get_own _ (MODEL_MAP_keys_own _ Hkv)).
Qed.

Lemma getNormalizedModel_inherited (modelId : string) :
  List.existsb (String.eqb modelId) Object_prototype_keys = true ->
  getNormalizedModel modelId = Some (inherited_property modelId).
Proof.
  intros H. unfold getNormalizedModel.
  by rewrite (MODEL_MAP_get_inherited _ H).
Qed.

(** An inherited property name whose lower-cased form is one as well is in
    lower case already. *)
Lemma inherited_lower (k : string) :
  List.existsb (String.eqb k) Object_prototype_keys = true ->
  List.existsb (String.eqb (Js.toLowerCase k)) Object_prototype_keys = true ->
  Js.toLowerCase k = k.
Proof.
  intros H. apply existsb_exists in H as (x & Hx & ->%String.eqb_eq).
  unfold Object_prototype_keys in Hx. cbn [In] in Hx.
  repeat (destruct Hx as [<-|Hx]; [by vm_compute|]). done.
Qed.

(** X23. Model names are matched without regard to letter case, inherited
    property names apart: [normalizeModel] answers for the lower-cased name
    what it answers for the name exactly when the model id (what follows the
    last slash) and its lower-cased form are both, or are both not, a
    property name every object inherits. *)
Theorem normalizeModel_case_insensitive (m : string) :
  let modelId := List.last (Js.split_on "/" m) EmptyString in
  let inherited k := List.existsb (String.eqb k) Object_prototype_keys in
  inherited (Js.toLowerCase modelId) = inherited modelId
  <-> normalizeModel (Some (Js.toLowerCase m)) = normalizeModel (Some m).
Proof.
  intros modelId inherited. subst inherited. cbv beta.
  unfold normalizeModel. rewrite truthy_lower.
  destruct (Js.truthy m) eqn:Em.
  2:{ destruct m; [|done]. done. }
  cbn [negb]. rewrite !modelId_last, split_on_lower, last_map_lower.
  fold modelId. rewrite toLowerCase_idem.
  match goal with
  | |- context [match getNormalizedModel modelId with
                | Some _ => _ | None => ?l end] =>
      assert (Hl : exists s, l = model_name s)
        by (repeat match goal with
                   | |- context [if ?b then _ else _] => destruct b
                   end; by eexists);
      destruct Hl as [ladder Hl]; rewrite Hl; clear Hl
  end.
  destruct (List.existsb (String.eqb modelId) Object_prototype_keys) eqn:E1;
    destruct (List.existsb (String.eqb (Js.toLowerCase modelId))
                Object_prototype_keys) eqn:E2.
  - rewrite (inherited_lower _ E1 E2). done.
  - rewrite (getNormalizedModel_inherited _ E1).
    rewrite (getNormalizedModel_by_search _ E2).
    split; [done|]. intros H. exfalso. revert H.
    destruct (List.find _ MODEL_MAP) as [kv|]; [|done].
    by destruct (map_get kv.1 MODEL_MAP).
  - rewrite (getNormalizedModel_inherited _ E2).
    rewrite (getNormalizedModel_by_search _ E1).
    split; [done|]. intros H. exfalso. revert H.
    destruct (List.find _ MODEL_MAP) as [kv|]; [|done].
    by destruct (map_get kv.1 MODEL_MAP).
  - rewrite (getNormalizedModel_by_search _ E1).
    rewrite (getNormalizedModel_by_search _ E2).
    by rewrite toLowerCase_idem.
Qed.

(** Letter case and the inherited property names *)
Example normalizeModel_inherited_names :
  normalizeModel (Some "constructor") = inherited_property "constructor"
  /\ normalizeModel (Some "CONSTRUCTOR") = "gpt-5.1"
  /\ normalizeModel (Some "toString") = inherited_property "toString"
  /\ normalizeModel (Some "tostring") = "gpt-5.1".
Proof. by vm_compute. Qed.

Lemma normalized_model_effort_cases (model : option string) (m : string)
    (userConfig : ConfigOptions) :
  normalizeModel model = model_name m ->
  let e := effort (getReasoningConfig (Some m) userConfig) in
  let strong := In m ["gpt-5.2"; "gpt-5.2-codex"; "gpt-5.1-codex-max"] in
  (e = effort_xhigh <->
   reasoningEffort userConfig = Some effort_xhigh /\ strong)
  /\ (e = effort_none <->
      reasoningEffort userConfig = Some effort_none
      /\ In m ["gpt-5.2"; "gpt-5.1"])
  /\ (In m ["gpt-5.1-codex-mini"; "codex-mini-latest"] ->
      e = effort_medium \/ e = effort_high)
  /\ (reasoningEffort userConfig = None ->
      (strong -> e = effort_high) /\ (~ strong -> e = effort_medium)).
Proof.
  intros Hm e strong. subst e strong.
  pose proof (normalizeModel_range model) as Hr. rewrite Hm in Hr.
  clear Hm. unfold normalizeModel_results in Hr. cbn [In] in Hr.
  destruct userConfig as [re rs tv inc]. cbn [reasoningEffort].
  destruct Hr as [<-|[<-|[<-|[<-|[<-|[<-|[<-|[]]]]]]]];
    (destruct re as [[]|]; vm_compute;
     repeat split; intros; try done; try tauto;
     repeat match goal with
            | H : _ /\ _ |- _ => destruct H
            | H : _ \/ _ |- _ => destruct H
            end; try done; try tauto; auto).
Qed.

(** X24. The reasoning effort [getReasoningConfig] answers is never
    [minimal]; it is [xhigh] only when that was asked for and the model
    supports it, [none] only when that was asked for and the model supports
    it, and [medium] or [high] for every codex-mini model; on the other
    models that support [xhigh], a request for it is honoured.  The summary
    is the configured one, [auto] when none is configured.  For the names
    [normalizeModel] answers as strings this means: [xhigh] is answered
    exactly when it is asked for and the model is gpt-5.2, gpt-5.2-codex or
    gpt-5.1-codex-max; [none] exactly when it is asked for and the model is
    gpt-5.2 or gpt-5.1; the codex-mini models get [medium] or [high]; and
    without a configured effort those three models get [high], all others
    [medium]. *)
Theorem reasoning_effort_spec (modelName : option string)
    (userConfig : ConfigOptions) :
  (let n := match modelName with
            | Some m => Js.toLowerCase m
            | None => EmptyString
            end in
   let r := getReasoningConfig modelName userConfig in
   effort r <> effort_minimal
   /\ (effort r = effort_xhigh ->
       reasoningEffort userConfig = Some effort_xhigh
       /\ supportsXhigh n = true)
   /\ (effort r = effort_none ->
       reasoningEffort userConfig = Some effort_none /\ supportsNone n = true)
   /\ (isCodexMini n = true ->
       effort r = effort_medium \/ effort r = effort_high)
   /\ (isCodexMini n = false -> supportsXhigh n = true ->
       reasoningEffort userConfig = Some effort_xhigh ->
       effort r = effort_xhigh)
   /\ summary r = default summary_auto (reasoningSummary userConfig))
  /\ (forall model m,
        normalizeModel model = model_name m ->
        let e := effort (getReasoningConfig (Some m) userConfig) in
        let strong :=
          In m ["gpt-5.2"; "gpt-5.2-codex"; "gpt-5.1-codex-max"] in
        (e = effort_xhigh <->
         reasoningEffort userConfig = Some effort_xhigh /\ strong)
        /\ (e = effort_none <->
            reasoningEffort userConfig = Some effort_none
            /\ In m ["gpt-5.2"; "gpt-5.1"])
        /\ (In m ["gpt-5.1-codex-mini"; "codex-mini-latest"] ->
            e = effort_medium \/ e = effort_high)
        /\ (reasoningEffort userConfig = None ->
            (strong -> e = effort_high) /\ (~ strong -> e = effort_medium))).
Proof.
  split.
  - exact (getReasoningConfig_effort_cases modelName userConfig).
  - intros model m Hm.
    exact (normalized_model_effort_cases model m userConfig Hm).
Qed.

Lemma reasoning_effort_spec_witness :
  normalizeModel (Some "openai/gpt-5.2-codex-high") = "gpt-5.2-codex"
  /\ effort (getReasoningConfig (Some "gpt-5.2-codex")
               (mkConfigOptions None None None None))
     = effort_high.
Proof.
  split; [reflexivity|].
  apply (proj2 (reasoning_effort_spec None
                  (mkConfigOptions None None None None))
           (Some "openai/gpt-5.2-codex-high") "gpt-5.2-codex" eq_refl);
    [reflexivity|]. cbn [In]. tauto.
Defined.

(** X25. The prompt family of a request is decided by the normalised
    model: gpt-5.2-codex and gpt-5.1-codex-max have their own prompt, the
    other codex models share the codex prompt, and gpt-5.2 and gpt-5.1 have
    theirs.  This is for the names [normalizeModel] answers as strings; an
    inherited value has no [includes] to ask. *)
Theorem prompt_family_of_normalized_model (model : option string)
    (m : string) :
  normalizeModel model = model_name m ->
  PROMPT_FILES (getModelFamily m)
  = if String.eqb m "gpt-5.2-codex" then "gpt-5.2-codex_prompt.md"
    else if String.eqb m "gpt-5.1-codex-max" then "gpt-5.1-codex-max_prompt.md"
    else if String.eqb m "gpt-5.2" then "gpt_5_2_prompt.md"
    else if String.eqb m "gpt-5.1" then "gpt_5_1_prompt.md"
    else "gpt_5_codex_prompt.md".
Proof.
  intros Hm. pose proof (normalizeModel_range model) as Hr. rewrite Hm in Hr.
  clear Hm. unfold normalizeModel_results in Hr. cbn [In] in Hr.
  destruct Hr as [<-|[<-|[<-|[<-|[<-|[<-|[<-|[]]]]]]]]; reflexivity.
Qed.

Lemma prompt_family_of_normalized_model_witness :
  normalizeModel (Some "openai/gpt-5.1-codex-max-high") = "gpt-5.1-codex-max"
  /\ PROMPT_FILES (getModelFamily "gpt-5.1-codex-max")
     = "gpt-5.1-codex-max_prompt.md".
Proof.
  split; [reflexivity|].
  exact (prompt_family_of_normalized_model
           (Some "openai/gpt-5.1-codex-max-high") "gpt-5.1-codex-max"
           eq_refl).
Defined.

(** The lower-case form of U+0130 is [i] followed by U+0307: a name that
    ends with it holds [gpt-5.1-codex-mini] once it is lower-cased, though no
    key of the table equals it. *)
Example normalizeModel_dotted_capital_I :
  normalizeModel (Some "gpt-5.1-codex-minİ") = "gpt-5.1-codex-mini"
  /\ Js.toLowerCase "gpt-5.1-codex-minİ" <> "gpt-5.1-codex-mini"
  /\ Js.length (Js.toLowerCase "İ") = 2%nat.
Proof. by vm_compute. Qed.

(** ** Request headers *)

Lemma headers_get_set_eq (n v : string) (h : Headers) :
  headers_get n (headers_set n v h) = Some v.
Proof.
  induction h as [|[n' v'] h IH]; cbn.
  - by rewrite String.eqb_refl.
  - destruct (String.eqb n' n) eqn:E; cbn.
    + by rewrite String.eqb_refl.
    + by rewrite E.
Qed.

Lemma headers_get_set_ne (n n' v : string) (h : Headers) :
  n' <> n -> headers_get n' (headers_set n v h) = headers_get n' h.
Proof.
  intros Hne. induction h as [|[n0 v0] h IH]; cbn.
  - destruct (String.eqb n n') eqn:E; [|done].
    apply String.eqb_eq in E. congruence.
  - destruct (String.eqb n0 n) eqn:E; cbn; [|by rewrite IH].
    apply String.eqb_eq in E as ->.
    destruct (String.eqb n n') eqn:E'; [|done].
    apply String.eqb_eq in E'. congruence.
Qed.

Lemma headers_get_delete_eq (n : string) (h : Headers) :
  headers_get n (headers_delete n h) = None.
Proof.
  induction h as [|[n' v'] h IH]; cbn; [done|].
  destruct (String.eqb n' n) eqn:E; cbn; [done|]. by rewrite E.
Qed.

Lemma headers_get_delete_ne (n n' : string) (h : Headers) :
  n' <> n -> headers_get n' (headers_delete n h) = headers_get n' h.
Proof.
  intros Hne. induction h as [|[n0 v0] h IH]; cbn; [done|].
  destruct (String.eqb n0 n) eqn:E; cbn; [|by rewrite IH].
  apply String.eqb_eq in E as ->.
  destruct (String.eqb n n') eqn:E'; [|done].
  apply String.eqb_eq in E'. congruence.
Qed.

Lemma headers_has_get (n : string) (h : Headers) :
  headers_has n h = bool_decide (is_Some (headers_get n h)).
Proof.
  induction h as [|[n' v'] h IH]; cbn; [done|].
  by destruct (String.eqb n' n).
Qed.

Section CodexHeadersFacts.

Variable header_value : string -> option string.

(** X26. The headers [createCodexHeaders] answers never carry
    [x-api-key]; they carry the bearer token, the account id, the beta and
    originator marks and the event-stream [accept]; they carry
    [conversation_id] and [session_id], both set to the prompt cache key,
    exactly when that key is present and non-empty, whatever the caller's
    headers held; every other header of the caller is passed on. *)
Theorem createCodexHeaders_spec (initHeaders : Headers)
    (accountId accessToken : string) (promptCacheKey : option string)
    (h : Headers) :
  createCodexHeaders header_value initHeaders accountId accessToken
    promptCacheKey = Some h ->
  headers_has "x-api-key" h = false
  /\ headers_get "authorization" h = header_value ("Bearer " +:+ accessToken)
  /\ headers_get "chatgpt-account-id" h = header_value accountId
  /\ headers_get "openai-beta" h = header_value "responses=experimental"
  /\ headers_get "originator" h = header_value "codex_cli_rs"
  /\ headers_get "accept" h = header_value "text/event-stream"
  /\ match promptCacheKey with
     | Some (String c k) =>
         headers_get "conversation_id" h = header_value (String c k)
         /\ headers_get "session_id" h = header_value (String c k)
     | _ =>
         headers_get "conversation_id" h = None
         /\ headers_get "session_id" h = None
     end
  /\ forall name,
       name ∉ [ "x-api-key"; "authorization"; "chatgpt-account-id";
                "openai-beta"; "originator"; "accept"; "conversation_id";
                "session_id" ] ->
       headers_get name h = headers_get name initHeaders.
Proof.
  unfold createCodexHeaders, Headers_set, Headers_delete.
  change (Js.toLowerCase "x-api-key") with "x-api-key".
  change (Js.toLowerCase "Authorization") with "authorization".
  change (Js.toLowerCase OPENAI_HEADERS_ACCOUNT_ID) with "chatgpt-account-id".
  change (Js.toLowerCase OPENAI_HEADERS_BETA) with "openai-beta".
  change (Js.toLowerCase OPENAI_HEADERS_ORIGINATOR) with "originator".
  change (Js.toLowerCase OPENAI_HEADERS_CONVERSATION_ID)
    with "conversation_id".
  change (Js.toLowerCase OPENAI_HEADERS_SESSION_ID) with "session_id".
  change (Js.toLowerCase "accept") with "accept".
  unfold OPENAI_HEADER_VALUES_BETA_RESPONSES,
    OPENAI_HEADER_VALUES_ORIGINATOR_CODEX.
  destruct (header_value ("Bearer " +:+ accessToken)) as [v1|]; [|done].
  destruct (header_value accountId) as [v2|]; [|done].
  destruct (header_value "responses=experimental") as [v3|]; [|done].
  destruct (header_value "codex_cli_rs") as [v4|]; [|done].
  cbv zeta.
  set (h4 := headers_set "originator" v4 _).
  assert (H4 : forall name,
            headers_get name h4
            = if String.eqb name "originator" then Some v4
              else if String.eqb name "openai-beta" then Some v3
              else if String.eqb name "chatgpt-account-id" then Some v2
              else if String.eqb name "authorization" then Some v1
              else if String.eqb name "x-api-key" then None
              else headers_get name initHeaders).
  { intros name. unfold h4.
    destruct (String.eqb_spec name "originator") as [->|?];
      [by rewrite headers_get_set_eq|rewrite headers_get_set_ne by done].
    destruct (String.eqb_spec name "openai-beta") as [->|?];
      [by rewrite headers_get_set_eq|rewrite headers_get_set_ne by done].
    destruct (String.eqb_spec name "chatgpt-account-id") as [->|?];
      [by rewrite headers_get_set_eq|rewrite headers_get_set_ne by done].
    destruct (String.eqb_spec name "authorization") as [->|?];
      [by rewrite headers_get_set_eq|rewrite headers_get_set_ne by done].
    destruct (String.eqb_spec name "x-api-key") as [->|?];
      [by rewrite headers_get_delete_eq|by rewrite headers_get_delete_ne]. }
  clearbody h4.
  assert (Hfin : forall (h5 : Headers) (ck ss : option string),
            (forall name,
               headers_get name h5
               = if String.eqb name "session_id" then ss
                 else if String.eqb name "conversation_id" then ck
                 else headers_get name h4) ->
            match header_value "text/event-stream" with
            | Some v => Some (headers_set "accept" v h5)
            | None => None
            end = Some h ->
            headers_has "x-api-key" h = false
            /\ headers_get "authorization" h = Some v1
            /\ headers_get "chatgpt-account-id" h = Some v2
            /\ headers_get "openai-beta" h = Some v3
            /\ headers_get "originator" h = Some v4
            /\ headers_get "accept" h = header_value "text/event-stream"
            /\ (headers_get "conversation_id" h = ck
                /\ headers_get "session_id" h = ss)
            /\ forall name,
                 name ∉ [ "x-api-key"; "authorization"; "chatgpt-account-id";
                          "openai-beta"; "originator"; "accept";
                          "conversation_id"; "session_id" ] ->
                 headers_get name h = headers_get name initHeaders).
  { intros h5 ck ss H5.
    destruct (header_value "text/event-stream") as [v5|]; [|done].
    intros [= <-].
    assert (Hh : forall name, name <> "accept" ->
              headers_get name (headers_set "accept" v5 h5)
              = headers_get name h5)
      by (intros; by apply headers_get_set_ne).
    split; [by rewrite headers_has_get, Hh, H5, H4|].
    split; [by rewrite Hh, H5, H4|].
    split; [by rewrite Hh, H5, H4|].
    split; [by rewrite Hh, H5, H4|].
    split; [by rewrite Hh, H5, H4|].
    split; [by rewrite headers_get_set_eq|].
    split; [split; by rewrite Hh, H5|].
    intros name Hname.
    destruct (String.eqb_spec name "accept") as [->|?];
      [exfalso; apply Hname; set_solver|].
    rewrite Hh, H5, H4 by done.
    repeat match goal with
           | |- context [String.eqb name ?s] =>
               destruct (String.eqb_spec name s) as [->|?];
                 [exfalso; apply Hname; set_solver|]
           end.
    done. }
  assert (Hdel : forall name,
            headers_get name
              (headers_delete "session_id"
                 (headers_delete "conversation_id" h4))
            = if String.eqb name "session_id" then None
              else if String.eqb name "conversation_id" then None
              else headers_get name h4).
  { intros name.
    destruct (String.eqb_spec name "session_id") as [->|?];
      [by rewrite headers_get_delete_eq|rewrite headers_get_delete_ne by done].
    destruct (String.eqb_spec name "conversation_id") as [->|?];
      [by rewrite headers_get_delete_eq|by rewrite headers_get_delete_ne]. }
  destruct promptCacheKey as [[|c k]|]; cbn [Js.truthy].
  - intros H. by destruct (Hfin _ None None Hdel H) as (?&?&?&?&?&?&?&?).
  - destruct (header_value (String c k)) as [vk|] eqn:Ek; [|done].
    cbv beta iota. intros H. refine (Hfin _ (Some vk) (Some vk) _ H).
    intros name.
    destruct (String.eqb_spec name "session_id") as [->|?];
      [by rewrite headers_get_set_eq|rewrite headers_get_set_ne by done].
    destruct (String.eqb_spec name "conversation_id") as [->|?];
      [by rewrite headers_get_set_eq|by rewrite headers_get_set_ne].
  - intros H. by destruct (Hfin _ None None Hdel H) as (?&?&?&?&?&?&?&?).
Qed.

End CodexHeadersFacts.

Lemma createCodexHeaders_spec_witness :
  exists h,
    createCodexHeaders Some [("x-api-key", "secret"); ("user-agent", "cli")]
      "acct" "token" (Some "key") = Some h
    /\ headers_has "x-api-key" h = false.
Proof.
  eexists. split; [reflexivity|].
  eapply (createCodexHeaders_spec Some
            [("x-api-key", "secret"); ("user-agent", "cli")] "acct" "token"
            (Some "key")).
  reflexivity.
Defined.

(** ** Successful responses *)

Section SuccessResponses.

Variable JSON_parse : string -> option json.
Variable JSON_stringify : json -> string.
Variable decode_stream : list string -> string.


End SuccessResponses.

(** ** Decoding a token *)

Lemma split_on_join (c : Ascii.ascii) (s : string) :
  join_on c (Js.split_on c s) = s /\ Forall (free_of c) (Js.split_on c s).
Proof.
  unfold free_of. induction s as [|a s [IH1 IH2]].
  { split; [done|]. by constructor. }
  cbn [Js.split_on]. pose proof (split_on_nonempty c s) as Hne.
  destruct (Ascii.eqb a c) eqn:E.
  - apply Ascii.eqb_eq in E as ->. split.
    + cbn [join_on]. destruct (Js.split_on c s); [done|]. by rewrite IH1.
    + by constructor.
  - destruct (Js.split_on c s) as [|w ws]; [done|].
    apply Forall_cons in IH2 as [Hw Hws]. split.
    + cbn [join_on] in *. destruct ws; cbn; by rewrite <- IH1.
    + constructor; [|done]. cbn [Js.includes Js.startsWith].
      by rewrite E, Hw.
Qed.

Section Tokens.

Variable base64_decode : string -> string.
Variable JSON_parse : string -> option json.

(** X28. [decodeJWT] answers [null] unless the token consists of exactly
    three parts separated by two dots; for such a token it answers what
    [JSON.parse] makes of the decoded middle part. *)
Theorem decodeJWT_three_parts (token : string) :
  (forall payload,
     decodeJWT base64_decode JSON_parse token = Some payload ->
     exists h p s,
       token = h +:+ "." +:+ p +:+ "." +:+ s
       /\ free_of "." h /\ free_of "." p /\ free_of "." s
       /\ JSON_parse (base64_decode p) = Some payload)
  /\ (forall h p s,
        free_of "." h -> free_of "." p -> free_of "." s ->
        decodeJWT base64_decode JSON_parse (h +:+ "." +:+ p +:+ "." +:+ s)
        = JSON_parse (base64_decode p)).
Proof.
  unfold decodeJWT, Js.split. split.
  - intros payload.
    destruct (split_on_join "." token) as [Hj Hf].
    destruct (Js.split_on "." token) as [|h [|p [|s [|]]]]; try done.
    intros Hp. exists h, p, s.
    apply Forall_cons in Hf as [Hh Hf]. apply Forall_cons in Hf as [Hp' Hf].
    apply Forall_cons in Hf as [Hs _].
    split; [|done]. by rewrite <- Hj.
  - intros h p s Hh Hp Hs.
    change ("." +:+ p +:+ "." +:+ s) with (String "." (p +:+ String "." s)).
    rewrite !split_on_app.
    by rewrite (split_on_absent _ _ Hh), (split_on_absent _ _ Hp),
      (split_on_absent _ _ Hs).
Qed.

End Tokens.

(** ** The invariants of the manager *)

Lemma of_index_range (i n : nat) :
  (i < n)%nat ->
  (of_index i = 0%Q \/ (0 < of_index i)%Q)
  /\ (of_index i <= inject_Z (Z.of_nat n - 1))%Q.
Proof.
  intros Hi. unfold of_index. split.
  - destruct i as [|i]; [by left|right].
    change 0%Q with (inject_Z 0). rewrite <- Zlt_Qlt. lia.
  - rewrite <- Zle_Qle. lia.
Qed.

Lemma manager_ok_selectAccount (m : AccountManager) (now : Z) :
  manager_ok m -> well_indexed (accounts m) ->
  manager_ok (selectAccount m now).1.
Proof.
  intros [Hact Hun] Hw.
  destruct (decide (accounts m = [])) as [Hnil|Hne].
  { unfold selectAccount. by rewrite Hnil. }
  rewrite (selectAccount_unfold m now Hne). cbv zeta.
  assert (Hlen : length (snapshot m now).2 = length (accounts m))
    by (by rewrite snapshot_accounts, length_map).
  assert (Hl : loaded m = true).
  { destruct (loaded m); [done|]. by destruct Hne; apply Hun. }
  pose proof (selected_position m now) as Hsel.
  destruct (match run_selector m now (snapshot m now).1 with
            | Some i => Some i
            | None => _
            end) as [i|] eqn:Ei; cbn [fst].
  - destruct (Hsel i Hw eq_refl) as (a0 & Ha0 & _).
    apply lookup_lt_Some in Ha0.
    split; [|cbn; congruence]. unfold active_in_range.
    cbn [activeIndex accounts with_activeIndex with_accounts].
    apply of_index_range. lia.
  - split; [|cbn; congruence]. unfold active_in_range in *.
    cbn [activeIndex accounts with_activeIndex with_accounts].
    destruct (activeIndex m); [by rewrite Hlen|done].
Qed.

Lemma integral_selectAccount (m : AccountManager) (now : Z) :
  active_integral m -> active_integral (selectAccount m now).1.
Proof.
  intros Ha. destruct (decide (accounts m = [])) as [Hnil|Hne].
  { unfold selectAccount. by rewrite Hnil. }
  rewrite (selectAccount_unfold m now Hne). cbv zeta.
  destruct (match run_selector m now (snapshot m now).1 with
            | Some i => Some i
            | None => _
            end) as [i|]; cbn [fst].
  - intros q. cbn [activeIndex with_activeIndex with_accounts].
    intros [= <-]. rewrite as_index_of_index. by eexists.
  - exact Ha.
Qed.

Section ManagerInvariants.

Variable base64_decode : string -> string.
Variable JSON_parse : string -> option json.

Lemma invariants_apply_call (w : world) (c : manager_call) :
  manager_ok w.1 -> well_indexed (accounts w.1) ->
  manager_ok (apply_call base64_decode JSON_parse w c).1
  /\ well_indexed (accounts (apply_call base64_decode JSON_parse w c).1).
Proof.
  intros Hok Hw. destruct c as [o|now]; cbn [apply_call fst].
  - split; [by apply manager_ok_apply|by apply well_indexed_apply].
  - split; [by apply manager_ok_selectAccount
           |by apply well_indexed_selectAccount].
Qed.

Lemma integral_apply_call (w : world) (c : manager_call) :
  active_integral w.1 -> integral_index w.2 ->
  active_integral (apply_call base64_decode JSON_parse w c).1
  /\ integral_index (apply_call base64_decode JSON_parse w c).2.
Proof.
  intros Ha Hd. destruct c as [o|now]; cbn [apply_call fst snd].
  - by apply integral_apply.
  - split; [by apply integral_selectAccount|done].
Qed.

Lemma invariants_run_calls (calls : list manager_call) (w : world) :
  manager_ok w.1 -> well_indexed (accounts w.1) ->
  manager_ok (run_calls base64_decode JSON_parse w calls).1
  /\ well_indexed (accounts (run_calls base64_decode JSON_parse w calls).1).
Proof.
  revert w. induction calls as [|c calls IH]; intros w Hok Hw; [done|].
  cbn [run_calls List.fold_left].
  destruct (invariants_apply_call w c Hok Hw) as [Hok' Hw'].
  by apply IH.
Qed.

Lemma integral_run_calls (calls : list manager_call) (w : world) :
  active_integral w.1 -> integral_index w.2 ->
  active_integral (run_calls base64_decode JSON_parse w calls).1
  /\ integral_index (run_calls base64_decode JSON_parse w calls).2.
Proof.
  revert w. induction calls as [|c calls IH]; intros w Ha Hd; [done|].
  cbn [run_calls List.fold_left].
  destruct (integral_apply_call w c Ha Hd) as [Ha' Hd'].
  by apply IH.
Qed.

(** X29. In every state the manager reaches from its creation, by adding
    accounts, reporting successes, rate limits and failures, saving, and
    selecting accounts, every account sits at the position its [index]
    names, and the active index is a number between 0 and the last
    position, [null] only while there is no account.  It is the index of an
    account provided the storage file the manager started from holds no
    fraction as its active index. *)
Theorem manager_invariants (strategy0 : AccountSelectionStrategy) (d0 : disk)
    (calls : list manager_call) :
  let m :=
    (run_calls base64_decode JSON_parse (new_AccountManager strategy0, d0)
       calls).1 in
  well_indexed (accounts m)
  /\ match activeIndex m with
     | Some q =>
         (0 <= q <= inject_Z (Z.of_nat (length (accounts m)) - 1))%Q
         /\ (integral_index d0 ->
             exists i : nat,
               as_index q = Some i /\ (i < length (accounts m))%nat)
     | None => accounts m = []
     end.
Proof.
  intros m. subst m.
  destruct (invariants_run_calls calls (new_AccountManager strategy0, d0))
    as [[Hact _] Hw]; [by split|by intros i a|].
  split; [done|].
  pose proof (integral_run_calls calls (new_AccountManager strategy0, d0))
    as Hint. cbn [fst snd] in Hint.
  unfold active_in_range in Hact.
  destruct (activeIndex _) as [q|] eqn:Eq; [|done].
  destruct Hact as [Hq Hhi]. split; [destruct Hq as [->|Hq]; lra|].
  intros Hd. destruct Hint as [Hint _]; [done|done|].
  destruct (Hint q Eq) as [i Hi]. exists i. split; [done|].
  apply as_index_spec in Hi. rewrite Hi in Hhi. unfold of_index in Hhi.
  rewrite <- Zle_Qle in Hhi. lia.
Qed.

End ManagerInvariants.

(** A fraction in the storage file stays the active index until an account
    is selected. *)
Example fraction_until_selected :
  let stored token :=
    mkStoredAccount None token None None None 0 0 true None None O in
  let d0 : disk :=
    Some (mkFileDocument
            (Some [Some (stored "r0"); Some (stored "r1"); Some (stored "r2")])
            (Some (3 # 2)%Q)) in
  let w0 := (new_AccountManager sticky, d0) in
  let w1 :=
    run_calls (fun s => s) read_json w0
      [Operation (AddAccount 1000 (mkTokenSuccess "a0" "r0" 9000))] in
  let w2 :=
    run_calls (fun s => s) read_json w1 [SelectAccount 2000] in
  activeIndex w1.1 = Some (3 # 2)%Q
  /\ getActiveAccount w1.1 = None
  /\ (activeIndex w2.1 ≫= as_index) = Some 0%nat.
Proof. by vm_compute. Qed.

(** ** Rotation on a rate limit *)

(** X30. Rotation: once an account is marked rate-limited, a selection made
    before its backoff has run out (within 20 seconds is always before)
    answers another account, enabled and not rate-limited, provided some
    other account can be selected. *)
Theorem rate_limited_account_is_rotated_out (m : AccountManager)
    (now now' : Z) (idx : nat) (reason : RateLimitReason)
    (a b : ManagedAccount) :
  well_indexed (accounts m) ->
  accounts m !! idx = Some a ->
  0 <= now ->
  now <= now' < now + 20000 ->
  In b (accounts m) ->
  index b <> idx ->
  selectable m now' b ->
  exists s,
    (selectAccount (markRateLimited m now idx reason) now').2 = Some s
    /\ index s <> idx
    /\ enabled s = true
    /\ (Manager_isRateLimited now' s).1 = false.
Proof.
  intros Hw Ha Hnow Hnow' Hb Hbi (Hen & Hrl & Hhyb).
  pose proof (calculateBackoff_range reason (consecutiveFailures a)) as Hbo.
  pose proof (lookup_lt_Some _ _ _ Ha) as Hlt.
  set (m' := markRateLimited m now idx reason).
  assert (Hm' : exists a',
            accounts m' = <[idx := a']> (accounts m)
            /\ index a' = index a
            /\ rateLimitResetTime a'
               = Some (now + calculateBackoff reason (consecutiveFailures a))
            /\ strategy m' = strategy m
            /\ tokenTracker m' = tokenTracker m
            /\ healthTracker m'
               = Health.recordRateLimit (healthTracker m) now idx).
  { unfold m', markRateLimited. rewrite Ha. by eexists. }
  destruct Hm' as (a' & Hacc & Hia & Hreset & Hst & Htt & Hht).
  assert (Hw' : well_indexed (accounts m')).
  { rewrite Hacc. by apply (well_indexed_insert _ _ a). }
  assert (Hb' : In b (accounts m')).
  { apply list_elem_of_In, list_elem_of_lookup_1 in Hb as [k Hk].
    pose proof (Hw k b Hk) as Hkb. apply list_elem_of_In.
    apply (list_elem_of_lookup_2 _ k). rewrite Hacc.
    rewrite list_lookup_insert_ne by congruence. done. }
  assert (Hsel : selectable m' now' b).
  { split; [done|]. split; [done|]. rewrite Hst, Htt, Hht. intros Hs.
    destruct (Hhyb Hs) as [Hh Ht]. split; [|done].
    unfold Health.getScore, Health.recordRateLimit in *.
    cbn [scores hs_config]. by rewrite lookup_insert_ne. }
  assert (Hne : accounts m' <> []) by (by destruct (accounts m')).
  destruct (selectAccount_selected m' now' Hw' Hne)
    as (s0 & s & Hr & Hs0 & Hs & Hens & Hrl0 & Hrls).
  { by apply (run_selector_is_Some m' now' b). }
  exists s. split; [done|]. split; [|done].
  intros Hidx. rewrite Hidx, Hacc, list_lookup_insert_eq in Hs0 by done.
  injection Hs0 as <-.
  unfold Manager_isRateLimited in Hrl0. rewrite Hreset in Hrl0.
  destruct (_ =? 0) eqn:E0; [lia|].
  destruct (_ <=? now') eqn:E1; [lia|done].
Qed.

Lemma rate_limited_account_is_rotated_out_witness :
  exists s,
    (selectAccount
       (markRateLimited
          (ex_manager [ex_account 0 "r0" None; ex_account 1 "r1" None]) 1000 0
          RATE_LIMIT_EXCEEDED) 2000).2 = Some s
    /\ index s <> O.
Proof.
  destruct (rate_limited_account_is_rotated_out
              (ex_manager [ex_account 0 "r0" None; ex_account 1 "r1" None])
              1000 2000 0 RATE_LIMIT_EXCEEDED (ex_account 0 "r0" None)
              (ex_account 1 "r1" None)) as (s & H1 & H2 & _).
  - intros i a. destruct i as [|[|i]]; cbn; intros [= <-]; reflexivity.
  - reflexivity.
  - lia.
  - lia.
  - cbn. right. left. reflexivity.
  - discriminate.
  - split; [reflexivity|]. split; [reflexivity|].
    intros _. by vm_compute.
  - exists s. split; [exact H1|exact H2].
Defined.
